(** * BusTub storage core: buffer pool manager and B+ tree index

    A shallow embedding of
      - src/buffer/buffer_pool_manager_instance.cpp
      - src/storage/index/b_plus_tree.cpp
      - src/include/storage/page/b_plus_tree_page.h
      - src/include/storage/page/b_plus_tree_leaf_page.h
    and the properties of the storage-engine specification that concern
    them.

    Conventions.
      - C++ [int], [page_id_t] and [frame_id_t] values are modelled as [Z]
        (frame ids, which index the frame array, as [nat]).  The page-id
        counter of the pool is an atomic 32-bit integer and its increment
        wraps around ([wrap_page_id]).  Page sizes and pin counts are
        plain [int]s that the code moves by one at a time; their overflow
        is undefined in C++ and is not modelled.
      - A [Page *] is the index of a frame of the pool; [nullptr] is [None].
        Dereferencing a page pointer reads the frame's current contents, so
        a pointer kept after the page was unpinned aliases whatever the
        frame holds by then, as in the C++ code.
      - Calling a member through [nullptr] aborts the operation
        ([NullDeref]).  Loops and recursion of the tree take a fuel
        argument; [OutOfFuel] is kept apart from [NullDeref]. *)

From stdpp Require Import gmap strings list fin_maps.
From Stdlib Require Import ZArith Lia.

Local Open Scope Z_scope.

(** ** Common definitions (common/config.h) *)

Definition INVALID_PAGE_ID : Z := -1.
Definition HEADER_PAGE_ID : Z := 0.

(** Modelled from the spec: the declaration of [page_id_t] (common/config.h)
    is not part of the sources.  It is [int32_t]: a page id lies between
    [MIN_PAGE_ID] and [MAX_PAGE_ID], and the atomic page-id counter of the
    allocator wraps around in two's complement when it leaves that range. *)
Definition MIN_PAGE_ID : Z := -2147483648.
Definition MAX_PAGE_ID : Z := 2147483647.
Definition wrap_page_id (z : Z) : Z := (z + 2147483648) mod 4294967296 - 2147483648.

(** ** B+ tree pages (b_plus_tree_page.h, b_plus_tree_leaf_page.h) *)

Inductive IndexPageType := INVALID_INDEX_PAGE | LEAF_PAGE | INTERNAL_PAGE.

#[global] Instance IndexPageType_eq_dec : EqDecision IndexPageType.
Proof. solve_decision. Defined.

(** The header shared by leaf and internal pages, the leaf's sibling links
    and the slot array.  The code moves between [BPlusTreePage *],
    [LeafPage *] and [InternalPage *] with [reinterpret_cast]; one record
    carries the fields of all three views.  A slot is a pair [(key, value)];
    in an internal page the value is a child page id and the key of slot 0
    is unused.  [array_] is the memory behind the page: [size_] says how
    many slots are live, and slots beyond it keep whatever was written
    there, as in the C++ code that shrinks a page by decreasing its size. *)
Module BPlusTreePage.
Record t := mk {
    page_type_ : IndexPageType;
    size_ : Z;
    max_size_ : Z;
    parent_page_id_ : Z;
    page_id_ : Z;
    next_page_id_ : Z;
    prev_page_id_ : Z;
    array_ : list (Z * Z)
  }.

(** All-zero memory seen through the page header. *)
Definition zero : t := mk INVALID_INDEX_PAGE 0 0 0 0 0 0 [].

Definition IsLeafPage (n : t) : bool := bool_decide (page_type_ n = LEAF_PAGE).
Definition GetSize (n : t) : Z := size_ n.
Definition GetMaxSize (n : t) : Z := max_size_ n.
Definition GetParentPageId (n : t) : Z := parent_page_id_ n.
Definition GetPageId (n : t) : Z := page_id_ n.
Definition GetNextPageId (n : t) : Z := next_page_id_ n.
Definition GetPrevPageId (n : t) : Z := prev_page_id_ n.
Definition GetArray (n : t) : list (Z * Z) := array_ n.

Definition SetPageType (ty : IndexPageType) (n : t) : t :=
    mk ty (size_ n) (max_size_ n) (parent_page_id_ n) (page_id_ n)
       (next_page_id_ n) (prev_page_id_ n) (array_ n).
Definition SetSize (s : Z) (n : t) : t :=
    mk (page_type_ n) s (max_size_ n) (parent_page_id_ n) (page_id_ n)
       (next_page_id_ n) (prev_page_id_ n) (array_ n).
Definition IncreaseSize (amount : Z) (n : t) : t := SetSize (size_ n + amount) n.
Definition SetMaxSize (s : Z) (n : t) : t :=
    mk (page_type_ n) (size_ n) s (parent_page_id_ n) (page_id_ n)
       (next_page_id_ n) (prev_page_id_ n) (array_ n).
Definition SetParentPageId (p : Z) (n : t) : t :=
    mk (page_type_ n) (size_ n) (max_size_ n) p (page_id_ n)
       (next_page_id_ n) (prev_page_id_ n) (array_ n).
Definition SetPageId (p : Z) (n : t) : t :=
    mk (page_type_ n) (size_ n) (max_size_ n) (parent_page_id_ n) p
       (next_page_id_ n) (prev_page_id_ n) (array_ n).
Definition SetNextPageId (p : Z) (n : t) : t :=
    mk (page_type_ n) (size_ n) (max_size_ n) (parent_page_id_ n) (page_id_ n)
       p (prev_page_id_ n) (array_ n).
Definition SetPrevPageId (p : Z) (n : t) : t :=
    mk (page_type_ n) (size_ n) (max_size_ n) (parent_page_id_ n) (page_id_ n)
       (next_page_id_ n) p (array_ n).
Definition SetArray (a : list (Z * Z)) (n : t) : t :=
    mk (page_type_ n) (size_ n) (max_size_ n) (parent_page_id_ n) (page_id_ n)
       (next_page_id_ n) (prev_page_id_ n) a.

(** Modelled from the spec: [IsRootPage] (body missing): the parent page id
    is [INVALID] at the root. *)
Definition IsRootPage (n : t) : bool := parent_page_id_ n =? INVALID_PAGE_ID.

(** b_plus_tree_page.h: [NeedSplit() { return size_ == max_size_; }] *)
Definition NeedSplit (n : t) : bool := size_ n =? max_size_ n.

(** b_plus_tree_leaf_page.h: [IsLast() { return next_page_id_ == INVALID_PAGE_ID; }] *)
Definition IsLast (n : t) : bool := next_page_id_ n =? INVALID_PAGE_ID.

(** b_plus_tree_leaf_page.h:
      [NeedRedsb() { return GetSize() < GetMaxSize() / 2; }]
      ([/] is C++ integer division, which truncates). *)
Definition NeedRedsb (n : t) : bool := GetSize n <? GetMaxSize n ÷ 2.

#[global] Instance eq_dec : EqDecision t.
Proof. solve_decision. Defined.
End BPlusTreePage.

(** What the bytes of a page hold: a B+ tree page or the header page with
    its [(index name, root page id)] records. *)
Inductive PageData :=
| NodeData (n : BPlusTreePage.t)
| HeaderData (records : list (string * Z)).

#[global] Instance PageData_eq_dec : EqDecision PageData.
Proof. solve_decision. Defined.

(** [Page::ResetMemory]: the page is filled with zero bytes. *)
Definition zero_data : PageData := NodeData BPlusTreePage.zero.

(** [reinterpret_cast<BPlusTreePage *>(page->GetData())].  The byte layout
    of the header page is outside this model; read as a tree page it is
    given the all-zero view. *)
Definition as_node (d : PageData) : BPlusTreePage.t :=
  match d with
  | NodeData n => n
  | HeaderData _ => BPlusTreePage.zero
  end.

(** ** Frames (storage/page/page.h) *)

Module Page.
Record t := mk {
    data_ : PageData;
    page_id_ : Z;
    pin_count_ : Z;
    is_dirty_ : bool
  }.

(** A frame as the pool's constructor leaves it. *)
Definition fresh : t := mk zero_data INVALID_PAGE_ID 0 false.

Definition set_data (d : PageData) (p : t) : t :=
    mk d (page_id_ p) (pin_count_ p) (is_dirty_ p).
Definition set_page_id (i : Z) (p : t) : t :=
    mk (data_ p) i (pin_count_ p) (is_dirty_ p).
Definition set_pin_count (c : Z) (p : t) : t :=
    mk (data_ p) (page_id_ p) c (is_dirty_ p).
Definition set_is_dirty (b : bool) (p : t) : t :=
    mk (data_ p) (page_id_ p) (pin_count_ p) b.
Definition ResetMemory (p : t) : t := set_data zero_data p.
End Page.

(** ** LRU-K replacer (buffer/lru_k_replacer.h) *)

Module LRUKReplacer.

(** Per frame: the timestamps of its most recent accesses, newest first and
    at most [k_] of them, and the evictable flag. *)
Record entry := mk_entry {
  history_ : list nat;
  evictable_ : bool
}.

Record t := mk {
  k_ : nat;
  current_timestamp_ : nat;
  node_store_ : gmap nat entry
}.

Definition init (k : nat) : t := mk k 0%nat ∅.

(** Modelled from the spec: the replacer is not part of the sources.
    [RecordAccess] registers an
    access of the frame at the current logical timestamp, keeps the [k_]
    most recent timestamps and advances the clock.  A frame seen for the
    first time starts non-evictable. *)
Definition RecordAccess (f : nat) (r : t) : t :=
  let e := default (mk_entry [] false) (node_store_ r !! f) in
  let h := take (k_ r) (current_timestamp_ r :: history_ e) in
  mk (k_ r) (S (current_timestamp_ r))
     (<[f := mk_entry h (evictable_ e)]> (node_store_ r)).

(** Modelled from the spec: [SetEvictable(frame_id, bool)] of the missing
    replacer; it sets the flag of a tracked frame. *)
Definition SetEvictable (f : nat) (b : bool) (r : t) : t :=
  match node_store_ r !! f with
  | Some e => mk (k_ r) (current_timestamp_ r)
                 (<[f := mk_entry (history_ e) b]> (node_store_ r))
  | None => r
  end.

(** Modelled from the spec: [Remove(frame_id)] of the missing replacer drops
    all state of the frame. *)
Definition Remove (f : nat) (r : t) : t :=
  mk (k_ r) (current_timestamp_ r) (delete f (node_store_ r)).

(** A frame with fewer than [k_] recorded accesses has backward k-distance
    infinity. *)
Definition infinite_distance (k : nat) (e : entry) : bool :=
  (length (history_ e) <? k)%nat.

(** The oldest recorded access: for a frame with [k_] accesses this is its
    k-th most recent one. *)
Definition oldest_access (e : entry) : nat := List.last (history_ e) 0%nat.

(** [better k a b]: [a] is a strictly better victim than [b]: a larger
    backward k-distance (infinity is the largest; among finite distances
    the older k-th access), and among infinities the older first access. *)
Definition better (k : nat) (a b : entry) : bool :=
  match infinite_distance k a, infinite_distance k b with
  | true, false => true
  | false, true => false
  | _, _ => (oldest_access a <? oldest_access b)%nat
  end.

Fixpoint best (k : nat) (l : list (nat * entry)) : option (nat * entry) :=
  match l with
  | [] => None
  | c :: l' =>
      match best k l' with
      | Some c' => if better k (snd c') (snd c) then Some c' else Some c
      | None => Some c
      end
  end.

Definition candidates (r : t) : list (nat * entry) :=
  filter (λ c, evictable_ (snd c) = true) (map_to_list (node_store_ r)).

(** Modelled from the spec: [Evict] of the missing replacer chooses
    the victim among the evictable frames and forgets it; [None] is the C++
    [false] result (no candidate). *)
Definition Evict (r : t) : option nat * t :=
  match best (k_ r) (candidates r) with
  | Some (f, _) => (Some f, Remove f r)
  | None => (None, r)
  end.

(** The replacer has an evictable frame. *)
Definition has_evictable (r : t) : Prop :=
  ∃ f e, node_store_ r !! f = Some e ∧ evictable_ e = true.

End LRUKReplacer.

(** ** Buffer pool manager (buffer/buffer_pool_manager_instance.cpp) *)

(** The calls the pool makes to its collaborators, in program order: the
    disk manager's [WritePage] and [ReadPage], [Page::ResetMemory] on a
    frame, and [DeallocatePage].  The list is ghost state: it records the
    order of the effects and is never read by the code. *)
Inductive event :=
| EvWritePage (page_id : Z) (d : PageData)
| EvReadPage (page_id : Z)
| EvResetMemory (frame_id : nat)
| EvDeallocatePage (page_id : Z).

Module BufferPoolManagerInstance.

(** [disk_manager_] is the block device: the page image stored under each
    page id.  [page_table_] is the extendible hash table, used only through
    [Find], [Insert] and [Remove]. *)
Record t := mk {
  pool_size_ : nat;
  pages_ : list Page.t;
  page_table_ : gmap Z nat;
  replacer_ : LRUKReplacer.t;
  free_list_ : list nat;
  next_page_id_ : Z;
  disk_manager_ : gmap Z PageData;
  trace_ : list event
}.

Definition set_pages (x : list Page.t) (b : t) : t :=
  mk (pool_size_ b) x (page_table_ b) (replacer_ b) (free_list_ b)
     (next_page_id_ b) (disk_manager_ b) (trace_ b).
Definition set_page_table (x : gmap Z nat) (b : t) : t :=
  mk (pool_size_ b) (pages_ b) x (replacer_ b) (free_list_ b)
     (next_page_id_ b) (disk_manager_ b) (trace_ b).
Definition set_replacer (x : LRUKReplacer.t) (b : t) : t :=
  mk (pool_size_ b) (pages_ b) (page_table_ b) x (free_list_ b)
     (next_page_id_ b) (disk_manager_ b) (trace_ b).
Definition set_free_list (x : list nat) (b : t) : t :=
  mk (pool_size_ b) (pages_ b) (page_table_ b) (replacer_ b) x
     (next_page_id_ b) (disk_manager_ b) (trace_ b).
Definition set_next_page_id (x : Z) (b : t) : t :=
  mk (pool_size_ b) (pages_ b) (page_table_ b) (replacer_ b) (free_list_ b)
     x (disk_manager_ b) (trace_ b).
Definition set_disk_manager (x : gmap Z PageData) (b : t) : t :=
  mk (pool_size_ b) (pages_ b) (page_table_ b) (replacer_ b) (free_list_ b)
     (next_page_id_ b) x (trace_ b).
Definition emit (e : event) (b : t) : t :=
  mk (pool_size_ b) (pages_ b) (page_table_ b) (replacer_ b) (free_list_ b)
     (next_page_id_ b) (disk_manager_ b) (trace_ b ++ [e]).

(** The constructor: every frame is fresh and on the free list, in the order
    of the [emplace_back] calls. *)
Definition init (pool_size replacer_k : nat) (disk : gmap Z PageData) : t :=
  mk pool_size (replicate pool_size Page.fresh) ∅
     (LRUKReplacer.init replacer_k) (seq 0 pool_size) 0 disk [].

(** [pages_ + frame_id], read and written in place. *)
Definition frame (b : t) (f : nat) : Page.t := default Page.fresh (pages_ b !! f).
Definition upd_frame (f : nat) (g : Page.t → Page.t) (b : t) : t :=
  set_pages (<[f := g (frame b f)]> (pages_ b)) b.

(** [disk_manager_->WritePage(page_id, data)] *)
Definition WritePage (page_id : Z) (d : PageData) (b : t) : t :=
  emit (EvWritePage page_id d) (set_disk_manager (<[page_id := d]> (disk_manager_ b)) b).

(** [disk_manager_->ReadPage(page_id, data)] into frame [f]; a block that
    was never written reads as zeros. *)
Definition ReadPage (page_id : Z) (f : nat) (b : t) : t :=
  emit (EvReadPage page_id)
       (upd_frame f (Page.set_data (default zero_data (disk_manager_ b !! page_id))) b).

(** [target->ResetMemory()] *)
Definition ResetMemory (f : nat) (b : t) : t :=
  emit (EvResetMemory f) (upd_frame f Page.ResetMemory b).

(** [AllocatePage() { return next_page_id_++; }], on the atomic 32-bit
    counter: after [MAX_PAGE_ID] the counter wraps to [MIN_PAGE_ID]. *)
Definition AllocatePage (b : t) : Z * t :=
  (next_page_id_ b, set_next_page_id (wrap_page_id (next_page_id_ b + 1)) b).

(** Modelled from the spec: [DeallocatePage] is declared outside the
    sources; deallocation is a hint to the allocator and reclaims nothing. *)
Definition DeallocatePage (page_id : Z) (b : t) : t := emit (EvDeallocatePage page_id) b.

(** [NewPgImp(page_id_t *page_id) -> Page *]: the result is the returned
    pointer and the value left in the out-parameter. *)
Definition NewPgImp (b : t) : (option nat * Z) * t :=
  let '(new_page_id, b) := AllocatePage b in
  (* *page_id = new_page_id; *)
  let found :=
    match last (free_list_ b) with
    | Some target_frame =>
        (* find in free list *)
        Some (target_frame, set_free_list (removelast (free_list_ b)) b)
    | None =>
        (* try evict *)
        match LRUKReplacer.Evict (replacer_ b) with
        | (None, _) => None
        | (Some target_frame, r) =>
            let b := set_replacer r b in
            let target := frame b target_frame in
            (* write back to disk *)
            let b := if Page.is_dirty_ target
                     then WritePage (Page.page_id_ target) (Page.data_ target) b
                     else b in
            Some (target_frame,
                  set_page_table (delete (Page.page_id_ target) (page_table_ b)) b)
        end
    end in
  match found with
  | None => ((None, new_page_id), b)
  | Some (target_frame, b) =>
      (* init the new page *)
      let b := upd_frame target_frame (Page.set_page_id new_page_id) b in
      let b := upd_frame target_frame (Page.set_is_dirty false) b in
      let b := upd_frame target_frame (Page.set_pin_count 1) b in
      let b := ResetMemory target_frame b in
      (* update page table *)
      let b := set_page_table (<[new_page_id := target_frame]> (page_table_ b)) b in
      (* update the replacer *)
      let b := set_replacer (LRUKReplacer.RecordAccess target_frame (replacer_ b)) b in
      let b := set_replacer (LRUKReplacer.SetEvictable target_frame false (replacer_ b)) b in
      ((Some target_frame, new_page_id), b)
  end.

(** [FetchPgImp(page_id_t page_id) -> Page *] *)
Definition FetchPgImp (page_id : Z) (b : t) : option nat * t :=
  match page_table_ b !! page_id with
  | Some target_frame =>
      (* can find in buffer pool *)
      let b := upd_frame target_frame
                 (λ p, Page.set_pin_count (Page.pin_count_ p + 1) p) b in
      let b := set_replacer (LRUKReplacer.RecordAccess target_frame (replacer_ b)) b in
      let b := set_replacer (LRUKReplacer.SetEvictable target_frame false (replacer_ b)) b in
      (Some target_frame, b)
  | None =>
      (* can't find in buffer pool *)
      let found :=
        match last (free_list_ b) with
        | Some target_frame =>
            Some (target_frame, set_free_list (removelast (free_list_ b)) b)
        | None =>
            match LRUKReplacer.Evict (replacer_ b) with
            | (None, _) => None
            | (Some target_frame, r) =>
                let b := set_replacer r b in
                let target := frame b target_frame in
                let b := if Page.is_dirty_ target
                         then WritePage (Page.page_id_ target) (Page.data_ target) b
                         else b in
                Some (target_frame,
                      set_page_table (delete (Page.page_id_ target) (page_table_ b)) b)
            end
        end in
      match found with
      | None => (None, b)
      | Some (target_frame, b) =>
          let b := ResetMemory target_frame b in
          let b := ReadPage page_id target_frame b in
          (* init the page *)
          let b := upd_frame target_frame (Page.set_page_id page_id) b in
          let b := upd_frame target_frame (Page.set_is_dirty false) b in
          let b := upd_frame target_frame (Page.set_pin_count 1) b in
          (* update page table *)
          let b := set_page_table (<[page_id := target_frame]> (page_table_ b)) b in
          (* update replacer *)
          let b := set_replacer (LRUKReplacer.RecordAccess target_frame (replacer_ b)) b in
          let b := set_replacer (LRUKReplacer.SetEvictable target_frame false (replacer_ b)) b in
          (Some target_frame, b)
      end
  end.

(** [UnpinPgImp(page_id_t page_id, bool is_dirty) -> bool] *)
Definition UnpinPgImp (page_id : Z) (is_dirty : bool) (b : t) : bool * t :=
  match page_table_ b !! page_id with
  | Some target_frame =>
      if Page.pin_count_ (frame b target_frame) <=? 0 then (false, b)
      else
        let b := upd_frame target_frame
                   (λ p, Page.set_pin_count (Page.pin_count_ p - 1) p) b in
        let b := if Page.pin_count_ (frame b target_frame) <=? 0
                 then set_replacer (LRUKReplacer.SetEvictable target_frame true (replacer_ b)) b
                 else b in
        let b := upd_frame target_frame
                   (λ p, Page.set_is_dirty (is_dirty || Page.is_dirty_ p) p) b in
        (true, b)
  | None => (false, b)
  end.

(** [FlushPgImp(page_id_t page_id) -> bool] *)
Definition FlushPgImp (page_id : Z) (b : t) : bool * t :=
  match page_table_ b !! page_id with
  | Some target_frame =>
      let target := frame b target_frame in
      let b := WritePage (Page.page_id_ target) (Page.data_ target) b in
      (true, upd_frame target_frame (Page.set_is_dirty false) b)
  | None => (false, b)
  end.

(** [FlushAllPgsImp()]: the loop over the frames [0 .. pool_size_). *)
Definition FlushAllPgsImp (b : t) : t :=
  foldl (λ b i,
           let target := frame b i in
           if negb (Page.page_id_ target =? INVALID_PAGE_ID) && Page.is_dirty_ target
           then upd_frame i (Page.set_is_dirty false)
                  (WritePage (Page.page_id_ target) (Page.data_ target) b)
           else b)
        b (seq 0 (pool_size_ b)).

(** [DeletePgImp(page_id_t page_id) -> bool] *)
Definition DeletePgImp (page_id : Z) (b : t) : bool * t :=
  match page_table_ b !! page_id with
  | Some target_frame =>
      if 0 <? Page.pin_count_ (frame b target_frame) then (false, b)
      else
        (* reset the target page *)
        let b := ResetMemory target_frame b in
        let b := upd_frame target_frame (Page.set_page_id INVALID_PAGE_ID) b in
        let b := upd_frame target_frame (Page.set_is_dirty false) b in
        let b := upd_frame target_frame (Page.set_pin_count 0) b in
        (* update page table *)
        let b := set_page_table (delete page_id (page_table_ b)) b in
        (* update replacer *)
        let b := set_replacer (LRUKReplacer.Remove target_frame (replacer_ b)) b in
        (* update free list *)
        let b := set_free_list (free_list_ b ++ [target_frame]) b in
        (true, DeallocatePage page_id b)
  | None => (true, b)
  end.

End BufferPoolManagerInstance.

Module BPM := BufferPoolManagerInstance.

(** ** Keys, values and slot arrays *)

(** Keys are the integers the tests feed to [GenericKey::SetFromInteger];
    a value stands for a [RID]. *)

(** Modelled from the spec: the injected comparator ([GenericComparator] is
    not part of the sources) is a strict weak order on keys reporting -1,
    0 or 1. *)
Definition comparator_ (a b : Z) : Z :=
  match a ?= b with
  | Lt => -1
  | Eq => 0
  | Gt => 1
  end.

(** The integers [from, from + 1, ..., to - 1] of a [for] loop. *)
Definition range (from to : Z) : list Z :=
  map (λ k, from + Z.of_nat k) (seq 0 (Z.to_nat (to - from))).

(** [arr[i]]: memory that was never written holds zeros.  A negative index
    would address the page header, which the model does not alias. *)
Definition slot (a : list (Z * Z)) (i : Z) : Z * Z :=
  if i <? 0 then (0, 0) else nth (Z.to_nat i) a (0, 0).

(** [arr[i] = x] *)
Definition set_slot (i : Z) (x : Z * Z) (a : list (Z * Z)) : list (Z * Z) :=
  if i <? 0 then a
  else <[Z.to_nat i := x]> (a ++ replicate (S (Z.to_nat i) - length a) (0, 0)).

(** [std::copy(src + from, src + to, dst)] *)
Definition std_copy (src : list (Z * Z)) (from to : Z) (dst : list (Z * Z)) : list (Z * Z) :=
  foldl (λ d i, set_slot (i - from) (slot src i) d) dst (range from to).

(** The live slots [arr[0 .. n)]. *)
Definition live (n : Z) (a : list (Z * Z)) : list (Z * Z) := map (slot a) (range 0 n).

(** Rounded-up half, the [⌈max/2⌉] of the specification. *)
Definition ceil_half (m : Z) : Z := (m + 1) ÷ 2.

(** ** Leaf pages (b_plus_tree_leaf_page.h; the member functions' bodies are
    not part of the sources) *)

Module BPlusTreeLeafPage.
Import BPlusTreePage.

(** Modelled from the spec: [Init(page_id, parent_id, max_size)] (body
    missing) sets the header of a freshly created leaf: type tag, size 0,
    ids, capacity, and no siblings. *)
Definition Init (page_id parent_id max_size : Z) (n : t) : t :=
  SetPrevPageId INVALID_PAGE_ID
    (SetNextPageId INVALID_PAGE_ID
       (SetMaxSize max_size
          (SetParentPageId parent_id
             (SetPageId page_id (SetSize 0 (SetPageType LEAF_PAGE n)))))).

Definition KeyAt (n : t) (index : Z) : Z := fst (slot (array_ n) index).
Definition ValueAt (n : t) (index : Z) : Z := snd (slot (array_ n) index).

(** Modelled from the spec: [IsFirst] (body missing), the mirror image of
    [IsLast]. *)
Definition IsFirst (n : t) : bool := prev_page_id_ n =? INVALID_PAGE_ID.

(** Modelled from the spec: [Search(key, comparator)] (body missing) is the
    index of [key] among the live slots, or -1. *)
Definition Search (key : Z) (n : t) : Z :=
  match list_find (λ i, comparator_ (KeyAt n i) key = 0) (range 0 (size_ n)) with
  | Some (_, i) => i
  | None => -1
  end.

(** Modelled from the spec: [Insert(key, value, comparator)] (body missing):
    if the key already exists, return false; otherwise place [(key, value)]
    in sorted position. *)
Definition Insert (key value : Z) (n : t) : bool * t :=
  let entries := live (size_ n) (array_ n) in
  if bool_decide (Search key n = -1) then
    let pos :=
      match list_find (λ e, comparator_ (fst e) key = 1) entries with
      | Some (i, _) => i
      | None => length entries
      end in
    (true, IncreaseSize 1 (SetArray (take pos entries ++ (key, value) :: drop pos entries) n))
  else (false, n).

(** Modelled from the spec: [Remove(key, comparator, need_update)] (body
    missing): if the key is absent, return false; otherwise remove the
    entry, and report through [need_update] that the leftmost key changed,
    which happens when the removed entry was at position 0. *)
Definition Remove (key : Z) (n : t) : bool * bool * t :=
  let entries := live (size_ n) (array_ n) in
  let pos := Search key n in
  if bool_decide (pos = -1) then (false, false, n)
  else (true, bool_decide (pos = 0),
        IncreaseSize (-1) (SetArray (delete (Z.to_nat pos) entries) n)).

(** Modelled from the spec: [StealFirst(value)] (body missing): a sibling
    gives up its first entry if it has more than [⌈max/2⌉] entries. *)
Definition StealFirst (n : t) : option (Z * Z) * t :=
  if ceil_half (max_size_ n) <? size_ n then
    (Some (slot (array_ n) 0),
     IncreaseSize (-1) (SetArray (drop 1 (live (size_ n) (array_ n))) n))
  else (None, n).

(** Modelled from the spec: [StealLast(value)] (body missing): as
    [StealFirst], for the last entry. *)
Definition StealLast (n : t) : option (Z * Z) * t :=
  if ceil_half (max_size_ n) <? size_ n then
    (Some (slot (array_ n) (size_ n - 1)), IncreaseSize (-1) n)
  else (None, n).

(** Modelled from the spec: [InsertFirst(value)] and [InsertLast(value)]
    (bodies missing) put a stolen entry at the front or at the end. *)
Definition InsertFirst (x : Z * Z) (n : t) : t :=
  IncreaseSize 1 (SetArray (x :: live (size_ n) (array_ n)) n).
Definition InsertLast (x : Z * Z) (n : t) : t :=
  IncreaseSize 1 (SetArray (set_slot (size_ n) x (array_ n)) n).

(** Modelled from the spec: [MergeFromLeft(rest_leaf)] (body missing): this
    leaf, the right one, takes over the entries of [rest_leaf] in front of
    its own. *)
Definition MergeFromLeft (rest_leaf : t) (n : t) : t :=
  SetSize (size_ rest_leaf + size_ n)
    (SetArray (live (size_ rest_leaf) (array_ rest_leaf) ++ live (size_ n) (array_ n)) n).

(** Modelled from the spec: [MergeFromRight(rest_leaf)] (body missing): this
    leaf, the left one, appends the entries of [rest_leaf] to its own. *)
Definition MergeFromRight (rest_leaf : t) (n : t) : t :=
  SetSize (size_ n + size_ rest_leaf)
    (SetArray (live (size_ n) (array_ n) ++ live (size_ rest_leaf) (array_ rest_leaf)) n).

End BPlusTreeLeafPage.

(** ** Internal pages (b_plus_tree_internal_page.h is not part of the
    sources).  An internal page of size [n] has the keys of slots [1 .. n]
    and the children of slots [0 .. n]. *)

Module BPlusTreeInternalPage.
Import BPlusTreePage.

(** Modelled from the spec: [Init(page_id, parent_id, max_size)] (body
    missing) sets the header of a freshly created internal page. *)
Definition Init (page_id parent_id max_size : Z) (n : t) : t :=
  SetMaxSize max_size
    (SetParentPageId parent_id
       (SetPageId page_id (SetSize 0 (SetPageType INTERNAL_PAGE n)))).

Definition KeyAt (n : t) (index : Z) : Z := fst (slot (array_ n) index).
Definition ValueAt (n : t) (index : Z) : Z := snd (slot (array_ n) index).

(** Modelled from the spec: [SetKeyAt(index, key)] (body missing). *)
Definition SetKeyAt (index key : Z) (n : t) : t :=
  SetArray (set_slot index (key, ValueAt n index) (array_ n)) n.

(** Modelled from the spec: [SetFirstPoint(page_id)] (body missing) stores
    the leading child pointer, [child_0]. *)
Definition SetFirstPoint (page_id : Z) (n : t) : t :=
  SetArray (set_slot 0 (KeyAt n 0, page_id) (array_ n)) n.

(** The slots [0 .. size] in use. *)
Definition slots (n : t) : list (Z * Z) := live (size_ n + 1) (array_ n).

(** Modelled from the spec: [Insert(key, page_id, comparator)] (body
    missing) inserts [(promoted_key, new_right_id)] into the parent, at the
    sorted position among the keys of slots [1 .. size]. *)
Definition Insert (key page_id : Z) (n : t) : t :=
  let pos :=
    match list_find (λ i, comparator_ (KeyAt n i) key = 1) (range 1 (size_ n + 1)) with
    | Some (_, i) => Z.to_nat i
    | None => length (slots n)
    end in
  IncreaseSize 1 (SetArray (take pos (slots n) ++ (key, page_id) :: drop pos (slots n)) n).

(** Modelled from the spec: [SearchPosition(page_id)] (body missing) is the
    index of the child slot that holds [page_id], or -1. *)
Definition SearchPosition (page_id : Z) (n : t) : Z :=
  match list_find (λ i, ValueAt n i = page_id) (range 0 (size_ n + 1)) with
  | Some (_, i) => i
  | None => -1
  end.

(** Modelled from the spec: [Remove(index)] (body missing) removes the
    separator and child of slot [index]; the later slots move down. *)
Definition Remove (index : Z) (n : t) : t :=
  if index <? 0 then n
  else IncreaseSize (-1) (SetArray (delete (Z.to_nat index) (slots n)) n).

(** Modelled from the spec: internal [NeedRedsb] (body missing): the page
    is under-full when it has fewer than [⌈max/2⌉] entries. *)
Definition NeedRedsb (n : t) : bool := size_ n <? ceil_half (max_size_ n).

(** Modelled from the spec: [StealFirst(value)] and [StealLast(value)]
    (bodies missing): a sibling with more than [⌈max/2⌉] entries gives up
    its first or its last slot. *)
Definition StealFirst (n : t) : option (Z * Z) * t :=
  if ceil_half (max_size_ n) <? size_ n then
    (Some (slot (array_ n) 0), IncreaseSize (-1) (SetArray (drop 1 (slots n)) n))
  else (None, n).
Definition StealLast (n : t) : option (Z * Z) * t :=
  if ceil_half (max_size_ n) <? size_ n then
    (Some (slot (array_ n) (size_ n)), IncreaseSize (-1) n)
  else (None, n).

(** Modelled from the spec: [InsertFirst(value)] and [InsertLast(value)]
    (bodies missing) add a slot in front of slot 0 or after the last. *)
Definition InsertFirst (x : Z * Z) (n : t) : t :=
  IncreaseSize 1 (SetArray (x :: slots n) n).
Definition InsertLast (x : Z * Z) (n : t) : t :=
  IncreaseSize 1 (SetArray (set_slot (size_ n + 1) x (array_ n)) n).

End BPlusTreeInternalPage.

(** Modelled from the spec: the header page ([HeaderPage] is not part of the
    sources) exposes [InsertRecord(name, id)] and [UpdateRecord(name, id)]
    keyed by the index name.  A page that is not a header page holds no
    record. *)
Definition UpdateRecord (name : string) (root_id : Z) (d : PageData) : PageData :=
  match d with
  | HeaderData records =>
      HeaderData (map (λ r, if bool_decide (fst r = name) then (name, root_id) else r) records)
  | NodeData _ => d
  end.

Definition InsertRecord (name : string) (root_id : Z) (d : PageData) : PageData :=
  match d with
  | HeaderData records =>
      if bool_decide (name ∈ map fst records) then d
      else HeaderData (records ++ [(name, root_id)])
  | NodeData _ => d
  end.

(** ** The B+ tree (storage/index/b_plus_tree.cpp) *)

Module BPlusTree.

Record t := mk {
  index_name_ : string;
  root_page_id_ : Z;
  buffer_pool_manager_ : BufferPoolManagerInstance.t;
  leaf_max_size_ : Z;
  internal_max_size_ : Z
}.

Definition set_root_page_id (r : Z) (tr : t) : t :=
  mk (index_name_ tr) r (buffer_pool_manager_ tr) (leaf_max_size_ tr) (internal_max_size_ tr).
Definition set_buffer_pool_manager (b : BufferPoolManagerInstance.t) (tr : t) : t :=
  mk (index_name_ tr) (root_page_id_ tr) b (leaf_max_size_ tr) (internal_max_size_ tr).

(** The constructor: an empty tree over a pool. *)
Definition init (name : string) (bpm : BufferPoolManagerInstance.t)
    (leaf_max_size internal_max_size : Z) : t :=
  mk name INVALID_PAGE_ID bpm leaf_max_size internal_max_size.

(** How a member function of the tree ends: it returns [a] and leaves the
    tree (with its pool) in state [tr], or it calls a member through a null
    page pointer, or the fuel given to its loops ran out. *)
Inductive outcome (A : Type) :=
| Done (a : A) (tr : t)
| NullDeref
| OutOfFuel.
Arguments Done {A} a tr.
Arguments NullDeref {A}.
Arguments OutOfFuel {A}.

Definition M (A : Type) : Type := t → outcome A.

#[global] Instance M_ret : MRet M := λ A a tr, Done a tr.
#[global] Instance M_bind : MBind M := λ A B f c tr,
  match c tr with
  | Done a tr' => f a tr'
  | NullDeref => NullDeref
  | OutOfFuel => OutOfFuel
  end.

(** The value and the final state of a run that returned. *)
Definition value_of {A} (o : outcome A) : option A :=
  match o with
  | Done a _ => Some a
  | _ => None
  end.
Definition state_of {A} (o : outcome A) : option t :=
  match o with
  | Done _ tr => Some tr
  | _ => None
  end.

Definition get : M t := λ tr, Done tr tr.
Definition null_deref {A} : M A := λ _, NullDeref.
Definition out_of_fuel {A} : M A := λ _, OutOfFuel.

(** A call into the buffer pool. *)
Definition pool {A} (f : BufferPoolManagerInstance.t → A * BufferPoolManagerInstance.t) : M A :=
  λ tr, let '(a, b) := f (buffer_pool_manager_ tr) in Done a (set_buffer_pool_manager b tr).

(** [p->...] for a page pointer that may be null. *)
Definition nonnull (p : option nat) : M nat :=
  match p with
  | Some f => mret f
  | None => null_deref
  end.

(** Reading the tree page behind a page pointer, and updating it in place. *)
Definition node_at (tr : t) (p : nat) : BPlusTreePage.t :=
  as_node (Page.data_ (BufferPoolManagerInstance.frame (buffer_pool_manager_ tr) p)).
Definition load (p : nat) : M BPlusTreePage.t := λ tr, Done (node_at tr p) tr.
Definition poke (p : nat) (g : BPlusTreePage.t → BPlusTreePage.t) (tr : t) : t :=
  set_buffer_pool_manager
    (BufferPoolManagerInstance.upd_frame p
       (λ pg, Page.set_data (NodeData (g (as_node (Page.data_ pg)))) pg)
       (buffer_pool_manager_ tr)) tr.
Definition store (p : nat) (g : BPlusTreePage.t → BPlusTreePage.t) : M unit :=
  λ tr, Done () (poke p g tr).

(** [for (int i = from; i < to; ++i) body] *)
Fixpoint for_ (l : list Z) (body : Z → M unit) : M unit :=
  match l with
  | [] => mret ()
  | i :: l' => body i;; for_ l' body
  end.

(** [buffer_pool_manager_->NewPage(&page_id)] cast to a tree page pointer:
    the pointer, which may be null, and the id left in [page_id]. *)
Definition NewPage : M (option nat * Z) := pool BufferPoolManagerInstance.NewPgImp.

(** The tree's [UnpinPage] and [DeletePage] helpers hand the call to the
    pool and drop its result. *)
Definition UnpinPage (page_id : Z) (is_dirty : bool) : M unit :=
  pool (BufferPoolManagerInstance.UnpinPgImp page_id is_dirty);; mret ().
Definition DeletePage (page_id : Z) : M unit :=
  pool (BufferPoolManagerInstance.DeletePgImp page_id);; mret ().

(** [IsEmpty() { return root_page_id_ == INVALID_PAGE_ID; }] *)
Definition IsEmpty (tr : t) : bool := root_page_id_ tr =? INVALID_PAGE_ID.

(** [GetPage], [GetLeafPage], [GetInternalPage]:
    [buffer_pool_manager_->FetchPage(id)->GetData()], cast. *)
Definition GetPage (page_id : Z) : M nat :=
  p ← pool (BufferPoolManagerInstance.FetchPgImp page_id); nonnull p.
Definition GetLeafPage (leaf_id : Z) : M nat := GetPage leaf_id.
Definition GetInternalPage (internal_id : Z) : M nat := GetPage internal_id.

(** [UpdateRootPageId(int insert_record)] *)
Definition UpdateRootPageId (insert_record : Z) : M unit :=
  header_page ← pool (BufferPoolManagerInstance.FetchPgImp HEADER_PAGE_ID);
  header_page ← nonnull header_page;
  tr ← get;
  pool (λ b, ((), BufferPoolManagerInstance.upd_frame header_page
                    (λ pg, Page.set_data
                             ((if bool_decide (insert_record ≠ 0)
                               then InsertRecord else UpdateRecord)
                                (index_name_ tr) (root_page_id_ tr) (Page.data_ pg)) pg) b));;
  pool (BufferPoolManagerInstance.UnpinPgImp HEADER_PAGE_ID true);;
  mret ().

(** The lambda of [FindLeafPage]: the child to descend to. *)
Definition next_page_id_of (internal_node_page : BPlusTreePage.t) (key : Z) : Z :=
  match list_find
          (λ i, comparator_ (BPlusTreeInternalPage.KeyAt internal_node_page i) key = 1)
          (range 1 (BPlusTreePage.GetSize internal_node_page + 1)) with
  | Some (_, i) => BPlusTreeInternalPage.ValueAt internal_node_page (i - 1)
  | None => BPlusTreeInternalPage.ValueAt internal_node_page
              (BPlusTreePage.GetSize internal_node_page)
  end.

(** The [while (!curr_node_page->IsLeafPage())] loop of [FindLeafPage]. *)
Fixpoint FindLeafPage_loop (fuel : nat) (key : Z) (curr_node_page : nat) : M nat :=
  match fuel with
  | O => out_of_fuel
  | S fuel =>
      n ← load curr_node_page;
      if BPlusTreePage.IsLeafPage n then mret curr_node_page
      else
        let next_page_id := next_page_id_of n key in
        UnpinPage (BPlusTreePage.GetPageId n) false;;
        curr_node_page ← GetPage next_page_id;
        FindLeafPage_loop fuel key curr_node_page
  end.

(** [FindLeafPage(const KeyType &key) -> LeafPage *] *)
Definition FindLeafPage (fuel : nat) (key : Z) : M nat :=
  tr ← get;
  curr_node_page ← GetPage (root_page_id_ tr);
  FindLeafPage_loop fuel key curr_node_page.

(** [GetValue(key, result, transaction) -> bool]: the result vector goes in
    and comes out. *)
Definition GetValue (fuel : nat) (key : Z) (result : list Z) : M (bool * list Z) :=
  tr ← get;
  if IsEmpty tr then mret (false, result)
  else
    leaf_node_page ← FindLeafPage fuel key;
    n ← load leaf_node_page;
    match list_find (λ i, comparator_ (BPlusTreeLeafPage.KeyAt n i) key = 0)
                    (range 0 (BPlusTreePage.GetSize n)) with
    | Some (_, i) =>
        UnpinPage (BPlusTreePage.GetPageId n) false;;
        mret (true, result ++ [BPlusTreeLeafPage.ValueAt n i])
    | None =>
        UnpinPage (BPlusTreePage.GetPageId n) false;;
        mret (false, result)
    end.

Definition set_root (page_id : Z) : M unit := λ tr, Done () (set_root_page_id page_id tr).

(** [UpdateParentId(page_id_t page_id, page_id_t p_page_id)] *)
Definition UpdateParentId (page_id p_page_id : Z) : M unit :=
  target_page ← GetPage page_id;
  store target_page (BPlusTreePage.SetParentPageId p_page_id);;
  UnpinPage page_id true.

(** [SplitInternal], "Address the parent level" and "Address the low
    level": the separator goes to [parent_node], the slots behind it move
    to [new_internal], whose children are told their new parent, and
    [new_internal] is unpinned (b_plus_tree.cpp lines 291-314). *)
Definition SplitInternal_move (size mid_index mid_key new_internal_id : Z)
    (over_node new_internal parent_node : nat) : M unit :=
  store parent_node (BPlusTreeInternalPage.Insert mid_key new_internal_id);;
  (* == Address the low level == *)
  o ← load over_node;
  let mid_page_id := snd (slot (BPlusTreePage.GetArray o) mid_index) in
  for_ (range 0 (size - mid_index)) (λ i,
    o ← load over_node;
    let mapp_elem := slot (BPlusTreePage.GetArray o) (i + mid_index + 1) in
    UpdateParentId (snd mapp_elem) new_internal_id;;
    store new_internal
      (λ n, BPlusTreePage.SetArray (set_slot (i + 1) mapp_elem (BPlusTreePage.GetArray n)) n));;
  UpdateParentId mid_page_id new_internal_id;;
  store new_internal (BPlusTreeInternalPage.SetFirstPoint mid_page_id);;
  store new_internal (BPlusTreePage.IncreaseSize (size - mid_index));;
  store over_node (BPlusTreePage.IncreaseSize (-1 * (size - mid_index + 1)));;
  UnpinPage new_internal_id true.

(** [SplitInternal(InternalPage *over_node, InternalPage *new_internal)] *)
Fixpoint SplitInternal (fuel : nat) (over_node new_internal : nat) : M unit :=
  match fuel with
  | O => out_of_fuel
  | S fuel =>
      o ← load over_node;
      let size := BPlusTreePage.GetSize o in
      let mid_index := BPlusTreePage.GetMaxSize o ÷ 2 + 1 in
      let mid_key := BPlusTreeInternalPage.KeyAt o mid_index in
      ni ← load new_internal;
      let new_internal_id := BPlusTreePage.GetPageId ni in
      let over_node_id := BPlusTreePage.GetPageId o in
      (* == get parent node == *)
      parent_node ←
        (if negb (BPlusTreePage.IsRootPage o) then
           store new_internal (BPlusTreePage.SetParentPageId (BPlusTreePage.GetParentPageId o));;
           mret None
         else
           (* create new root node page *)
           '(new_root, new_root_page_id) ← NewPage;
           set_root new_root_page_id;;
           UpdateRootPageId 0;;
           new_root ← nonnull new_root;
           tr ← get;
           store new_root
             (BPlusTreeInternalPage.Init new_root_page_id INVALID_PAGE_ID (internal_max_size_ tr));;
           store new_root (BPlusTreeInternalPage.SetFirstPoint over_node_id);;
           store over_node (BPlusTreePage.SetParentPageId (root_page_id_ tr));;
           store new_internal
             (BPlusTreeInternalPage.Init new_internal_id (root_page_id_ tr) (internal_max_size_ tr));;
           mret (Some new_root));
      (* == Address the parent level == *)
      parent_node ←
        match parent_node with
        | Some p => mret p
        | None => o ← load over_node; GetInternalPage (BPlusTreePage.GetParentPageId o)
        end;
      SplitInternal_move size mid_index mid_key new_internal_id
        over_node new_internal parent_node;;
      p ← load parent_node;
      (if BPlusTreePage.NeedSplit p then
         '(new_node, new_page_id) ← NewPage;
         new_node ← nonnull new_node;
         tr ← get;
         store new_node
           (BPlusTreeInternalPage.Init new_page_id INVALID_PAGE_ID (internal_max_size_ tr));;
         SplitInternal fuel parent_node new_node
       else mret ());;
      p ← load parent_node;
      UnpinPage (BPlusTreePage.GetPageId p) true
  end.

(** [SplitLeaf], "Address the parent level", "Address the leaf level" and
    "move data": the separator goes to [parent_node], the new leaf is put
    into the sibling list behind [over_node], the slots from [mid_index] on
    are copied to it, and both leaves are unpinned (b_plus_tree.cpp lines
    219-244).  It returns [parent_node]. *)
Definition SplitLeaf_link (size mid_index mid_key over_node_id new_leaf_id : Z)
    (over_node new_leaf parent_node : nat) : M nat :=
  store parent_node (BPlusTreeInternalPage.Insert mid_key new_leaf_id);;
  (* == Address the leaf level == *)
  o ← load over_node;
  let next_page_id := BPlusTreePage.GetNextPageId o in
  store new_leaf (BPlusTreePage.SetNextPageId next_page_id);;
  store new_leaf (BPlusTreePage.SetPrevPageId over_node_id);;
  o ← load over_node;
  (if negb (BPlusTreePage.IsLast o) then
     leaf ← GetLeafPage next_page_id;
     store leaf (BPlusTreePage.SetPrevPageId new_leaf_id);;
     UnpinPage next_page_id true
   else mret ());;
  store over_node (BPlusTreePage.SetNextPageId new_leaf_id);;
  (* = move data = *)
  o ← load over_node;
  store new_leaf
    (λ n, BPlusTreePage.SetArray
            (std_copy (BPlusTreePage.GetArray o) mid_index size (BPlusTreePage.GetArray n)) n);;
  store new_leaf (BPlusTreePage.IncreaseSize (size - mid_index));;
  store over_node (BPlusTreePage.IncreaseSize (-1 * (size - mid_index)));;
  UnpinPage over_node_id true;;
  UnpinPage new_leaf_id true;;
  mret parent_node.

(** [SplitLeaf(LeafPage *over_node)], first part: the new right leaf, the
    parent level, the sibling list and the move of the entries
    (b_plus_tree.cpp lines 185-244).  It returns [parent_node]. *)
Definition SplitLeaf_move (over_node : nat) : M nat :=
  o ← load over_node;
  let size := BPlusTreePage.GetSize o in
  let mid_index := BPlusTreePage.GetMaxSize o ÷ 2 in
  let mid_key := BPlusTreeLeafPage.KeyAt o mid_index in
  let over_node_id := BPlusTreePage.GetPageId o in
  (* create new leaf node page *)
  '(new_leaf, new_leaf_id) ← NewPage;
  o ← load over_node;
  parent_node ←
    (if negb (BPlusTreePage.IsRootPage o) then
       new_leaf ← nonnull new_leaf;
       tr ← get;
       store new_leaf
         (BPlusTreeLeafPage.Init new_leaf_id (BPlusTreePage.GetParentPageId o) (leaf_max_size_ tr));;
       mret None
     else
       (* create new root node page *)
       '(new_root, new_root_page_id) ← NewPage;
       set_root new_root_page_id;;
       UpdateRootPageId 0;;
       new_root ← nonnull new_root;
       tr ← get;
       store new_root
         (BPlusTreeInternalPage.Init new_root_page_id INVALID_PAGE_ID (internal_max_size_ tr));;
       store new_root (BPlusTreeInternalPage.SetFirstPoint over_node_id);;
       store over_node (BPlusTreePage.SetParentPageId (root_page_id_ tr));;
       new_leaf ← nonnull new_leaf;
       store new_leaf (BPlusTreeLeafPage.Init new_leaf_id (root_page_id_ tr) (leaf_max_size_ tr));;
       mret (Some new_root));
  new_leaf ← nonnull new_leaf;
  (* == Address the parent level == *)
  parent_node ←
    match parent_node with
    | Some p => mret p
    | None => o ← load over_node; GetInternalPage (BPlusTreePage.GetParentPageId o)
    end;
  SplitLeaf_link size mid_index mid_key over_node_id new_leaf_id
    over_node new_leaf parent_node.

(** [SplitLeaf], second part: "check if need to split the parent"
    (lines 245-253). *)
Definition SplitLeaf_parent (fuel : nat) (parent_node : nat) : M unit :=
  p ← load parent_node;
  (if BPlusTreePage.NeedSplit p then
     '(new_node, new_page_id) ← NewPage;
     new_node ← nonnull new_node;
     tr ← get;
     store new_node (BPlusTreeInternalPage.Init new_page_id INVALID_PAGE_ID (internal_max_size_ tr));;
     SplitInternal fuel parent_node new_node
   else mret ());;
  p ← load parent_node;
  UnpinPage (BPlusTreePage.GetPageId p) true.

(** [SplitLeaf(LeafPage *over_node)] *)
Definition SplitLeaf (fuel : nat) (over_node : nat) : M unit :=
  parent_node ← SplitLeaf_move over_node;
  SplitLeaf_parent fuel parent_node.

(** [Insert(key, value, transaction) -> bool] *)
Definition Insert (fuel : nat) (key value : Z) : M bool :=
  tr ← get;
  if IsEmpty tr then
    '(new_root, new_root_page_id) ← NewPage;
    set_root new_root_page_id;;
    UpdateRootPageId 0;;
    new_root ← nonnull new_root;
    store new_root (BPlusTreeLeafPage.Init new_root_page_id INVALID_PAGE_ID (leaf_max_size_ tr));;
    store new_root (λ n, snd (BPlusTreeLeafPage.Insert key value n));;
    tr ← get;
    UnpinPage (root_page_id_ tr) true;;
    mret true
  else
    leaf_node_page ← FindLeafPage fuel key;
    n ← load leaf_node_page;
    let '(success, n') := BPlusTreeLeafPage.Insert key value n in
    store leaf_node_page (λ _, n');;
    if negb success then
      (* duplicate!! *)
      UnpinPage (BPlusTreePage.GetPageId n') false;;
      mret false
    else
      (* check if needing splitting the node *)
      if BPlusTreePage.NeedSplit n' then
        SplitLeaf fuel leaf_node_page;;
        mret true
      else
        UnpinPage (BPlusTreePage.GetPageId n') true;;
        mret true.

(** [GetLeftMostKey(InternalPage *internal_page) -> KeyType] *)
Fixpoint GetLeftMostKey_loop (fuel : nat) (cur_page : nat) : M nat :=
  match fuel with
  | O => out_of_fuel
  | S fuel =>
      c ← load cur_page;
      if BPlusTreePage.IsLeafPage c then mret cur_page
      else
        let internal := cur_page in
        cur_page ← GetPage (BPlusTreeInternalPage.ValueAt c 0);
        i ← load internal;
        UnpinPage (BPlusTreePage.GetPageId i) false;;
        GetLeftMostKey_loop fuel cur_page
  end.

Definition GetLeftMostKey (fuel : nat) (internal_page : nat) : M Z :=
  ip ← load internal_page;
  cur_page ← GetInternalPage (BPlusTreeInternalPage.ValueAt ip 0);
  leaf ← GetLeftMostKey_loop fuel cur_page;
  l ← load leaf;
  let key := BPlusTreeLeafPage.KeyAt l 0 in
  let leaf_id := BPlusTreePage.GetPageId l in
  UnpinPage leaf_id false;;
  mret key.

(** The [while (pos == 0)] loop of [UpdateParentKey] and the statements
    after it. *)
Fixpoint UpdateParentKey_loop (fuel : nat) (new_key cur_id parent_id : Z)
    (parent_page : nat) (pos : Z) : M unit :=
  match fuel with
  | O => out_of_fuel
  | S fuel =>
      if pos =? 0 then
        let cur_page := parent_page in
        UnpinPage cur_id false;;
        let cur_id := parent_id in
        c ← load cur_page;
        let parent_id := BPlusTreePage.GetParentPageId c in
        parent_page ← GetInternalPage parent_id;
        pp ← load parent_page;
        UpdateParentKey_loop fuel new_key cur_id parent_id parent_page
          (BPlusTreeInternalPage.SearchPosition cur_id pp)
      else
        store parent_page (BPlusTreeInternalPage.SetKeyAt pos new_key);;
        UnpinPage cur_id false;;
        UnpinPage parent_id true
  end.

(** [UpdateParentKey(const KeyType &new_key, page_id_t page_id)] *)
Definition UpdateParentKey (fuel : nat) (new_key page_id : Z) : M unit :=
  cur_page ← GetPage page_id;
  c ← load cur_page;
  let parent_id := BPlusTreePage.GetParentPageId c in
  let cur_id := page_id in
  parent_page ← GetInternalPage parent_id;
  pp ← load parent_page;
  UpdateParentKey_loop fuel new_key cur_id parent_id parent_page
    (BPlusTreeInternalPage.SearchPosition cur_id pp).

(** [p->StealFirst(&value)] and [p->StealLast(&value)] on the page behind a
    pointer: [None] is the C++ [false]. *)
Definition steal (p : nat) (f : BPlusTreePage.t → option (Z * Z) * BPlusTreePage.t)
    : M (option (Z * Z)) :=
  n ← load p;
  store p (λ _, snd (f n));;
  mret (fst (f n)).

(** [StealSibling(LeafPage *deleting_leaf) -> bool] *)
Definition StealSibling (fuel : nat) (deleting_leaf : nat) : M bool :=
  d ← load deleting_leaf;
  if BPlusTreePage.IsLast d then
    stealing_leaf ← GetLeafPage (BPlusTreePage.GetPrevPageId d);
    value ← steal stealing_leaf BPlusTreeLeafPage.StealLast;
    match value with
    | None =>
        s ← load stealing_leaf;
        UnpinPage (BPlusTreePage.GetPageId s) false;;
        mret false
    | Some value =>
        store deleting_leaf (BPlusTreeLeafPage.InsertFirst value);;
        d ← load deleting_leaf;
        UpdateParentKey fuel (BPlusTreeLeafPage.KeyAt d 0) (BPlusTreePage.GetPageId d);;
        s ← load stealing_leaf;
        UnpinPage (BPlusTreePage.GetPageId s) true;;
        mret true
    end
  else
    stealing_leaf ← GetLeafPage (BPlusTreePage.GetNextPageId d);
    value ← steal stealing_leaf BPlusTreeLeafPage.StealFirst;
    match value with
    | None =>
        s ← load stealing_leaf;
        UnpinPage (BPlusTreePage.GetPageId s) false;;
        mret false
    | Some value =>
        store deleting_leaf (BPlusTreeLeafPage.InsertLast value);;
        s ← load stealing_leaf;
        UpdateParentKey fuel (BPlusTreeLeafPage.KeyAt s 0) (BPlusTreePage.GetPageId s);;
        s ← load stealing_leaf;
        UnpinPage (BPlusTreePage.GetPageId s) true;;
        mret true
    end.

(** [StealInternal(deleting_internal, parent_internal, neber_internal,
    target_index, is_last) -> bool] *)
Definition StealInternal (fuel : nat) (deleting_internal parent_internal neber_internal : nat)
    (target_index : Z) (is_last : bool) : M bool :=
  value ←
    (if is_last then
       value ← steal neber_internal BPlusTreeInternalPage.StealLast;
       match value with
       | None => mret None
       | Some value =>
           store deleting_internal (BPlusTreeInternalPage.InsertFirst value);;
           (* Update the current page *)
           p ← load parent_internal;
           store deleting_internal
             (BPlusTreeInternalPage.SetKeyAt 1 (BPlusTreeInternalPage.KeyAt p target_index));;
           (* Update the parent page key *)
           store parent_internal (BPlusTreeInternalPage.SetKeyAt target_index (fst value));;
           mret (Some value)
       end
     else
       value ← steal neber_internal BPlusTreeInternalPage.StealFirst;
       match value with
       | None => mret None
       | Some value =>
           store deleting_internal (BPlusTreeInternalPage.InsertLast value);;
           (* Update the current page *)
           d ← load deleting_internal;
           p ← load parent_internal;
           store deleting_internal
             (BPlusTreeInternalPage.SetKeyAt (BPlusTreePage.GetSize d)
                (BPlusTreeInternalPage.KeyAt p (target_index + 1)));;
           (* Update the parent page key *)
           k ← GetLeftMostKey fuel neber_internal;
           store parent_internal (BPlusTreeInternalPage.SetKeyAt (target_index + 1) k);;
           mret (Some value)
       end);
  match value with
  | None => mret false
  | Some value =>
      d ← load deleting_internal;
      UpdateParentId (snd value) (BPlusTreePage.GetPageId d);;
      mret true
  end.

(** [Merge(BPlusTreePage *rest_node)] *)
Fixpoint Merge (fuel : nat) (rest_node : nat) : M unit :=
  match fuel with
  | O => out_of_fuel
  | S fuel =>
      r ← load rest_node;
      if BPlusTreePage.IsLeafPage r then
        (* == Redistribute the leaf page == *)
        let rest_leaf := rest_node in
        parent_page ← GetInternalPage (BPlusTreePage.GetParentPageId r);
        pp ← load parent_page;
        r ← load rest_leaf;
        let target_index := BPlusTreeInternalPage.SearchPosition (BPlusTreePage.GetPageId r) pp in
        merging_leaf ←
          (if BPlusTreePage.IsLast r then
             merging_leaf ← GetLeafPage (BPlusTreePage.GetPrevPageId r);
             r ← load rest_leaf;
             store merging_leaf (BPlusTreeLeafPage.MergeFromRight r);;
             (* update list *)
             store merging_leaf (BPlusTreePage.SetNextPageId INVALID_PAGE_ID);;
             (* remove the correspond parent item *)
             store parent_page (BPlusTreeInternalPage.Remove target_index);;
             mret merging_leaf
           else
             merging_leaf ← GetLeafPage (BPlusTreePage.GetNextPageId r);
             r ← load rest_leaf;
             store merging_leaf (BPlusTreeLeafPage.MergeFromLeft r);;
             (* update list *)
             r ← load rest_leaf;
             (if BPlusTreeLeafPage.IsFirst r then
                store merging_leaf (BPlusTreePage.SetPrevPageId INVALID_PAGE_ID)
              else
                prev_leaf ← GetLeafPage (BPlusTreePage.GetPrevPageId r);
                m ← load merging_leaf;
                store prev_leaf (BPlusTreePage.SetNextPageId (BPlusTreePage.GetPageId m));;
                pl ← load prev_leaf;
                store merging_leaf (BPlusTreePage.SetPrevPageId (BPlusTreePage.GetPageId pl)));;
             (* remove the correspond parent item *)
             store parent_page (BPlusTreeInternalPage.Remove target_index);;
             (* update the parent key *)
             m ← load merging_leaf;
             UpdateParentKey fuel (BPlusTreeLeafPage.KeyAt m 0) (BPlusTreePage.GetPageId m);;
             mret merging_leaf);
        m ← load merging_leaf;
        UnpinPage (BPlusTreePage.GetPageId m) true;;
        r ← load rest_leaf;
        UnpinPage (BPlusTreePage.GetPageId r) false;;
        r ← load rest_leaf;
        DeletePage (BPlusTreePage.GetPageId r);;
        (* check parent *)
        pp ← load parent_page;
        if BPlusTreeInternalPage.NeedRedsb pp then
          if BPlusTreePage.IsRootPage pp && (BPlusTreePage.GetSize pp <=? 0) then
            if BPlusTreePage.GetSize pp <=? 0 then
              store merging_leaf (BPlusTreePage.SetParentPageId INVALID_PAGE_ID);;
              tr ← get;
              UnpinPage (root_page_id_ tr) false;;
              DeletePage (root_page_id_ tr);;
              m ← load merging_leaf;
              set_root (BPlusTreePage.GetPageId m);;
              UpdateRootPageId 0
            else
              tr ← get;
              UnpinPage (root_page_id_ tr) false
          else Merge fuel parent_page
        else UnpinPage (BPlusTreePage.GetPageId pp) true
      else
        (* == Redistribute the internal page == *)
        let deleting_internal := rest_node in
        parent_internal ← GetInternalPage (BPlusTreePage.GetParentPageId r);
        pi ← load parent_internal;
        d ← load deleting_internal;
        let target_index := BPlusTreeInternalPage.SearchPosition (BPlusTreePage.GetPageId d) pi in
        let neber_index :=
          if target_index =? BPlusTreePage.GetSize pi then target_index - 1 else target_index + 1 in
        neber_internal ← GetInternalPage (BPlusTreeInternalPage.ValueAt pi neber_index);
        let is_last := neber_index <? target_index in
        (* = Steal = *)
        stolen ← StealInternal fuel deleting_internal parent_internal neber_internal
                   target_index is_last;
        if (stolen : bool) then
          d ← load deleting_internal;
          UnpinPage (BPlusTreePage.GetPageId d) true;;
          pi ← load parent_internal;
          UnpinPage (BPlusTreePage.GetPageId pi) true;;
          nb ← load neber_internal;
          UnpinPage (BPlusTreePage.GetPageId nb) true
        else
          (* = Merge = *)
          (if is_last then
             (* update the neber internal page's key *)
             pi ← load parent_internal;
             store deleting_internal
               (BPlusTreeInternalPage.SetKeyAt 0 (BPlusTreeInternalPage.KeyAt pi target_index));;
             nb ← load neber_internal;
             let neber_size := BPlusTreePage.GetSize nb in
             d ← load deleting_internal;
             for_ (range 0 (BPlusTreePage.GetSize d + 1)) (λ i,
               d ← load deleting_internal;
               let mapp_elem := slot (BPlusTreePage.GetArray d) i in
               nb ← load neber_internal;
               UpdateParentId (snd mapp_elem) (BPlusTreePage.GetPageId nb);;
               store neber_internal
                 (λ n, BPlusTreePage.SetArray
                         (set_slot (i + neber_size + 1) mapp_elem (BPlusTreePage.GetArray n)) n));;
             d ← load deleting_internal;
             store neber_internal (BPlusTreePage.IncreaseSize (BPlusTreePage.GetSize d + 1));;
             store parent_internal (BPlusTreeInternalPage.Remove target_index)
           else
             (* update the neber internal page's key *)
             nb ← load neber_internal;
             let neber_size := BPlusTreePage.GetSize nb in
             d ← load deleting_internal;
             let deleting_size := BPlusTreePage.GetSize d in
             pi ← load parent_internal;
             store neber_internal
               (BPlusTreeInternalPage.SetKeyAt 0 (BPlusTreeInternalPage.KeyAt pi (target_index + 1)));;
             for_ (range 0 (neber_size + 1)) (λ i,
               store neber_internal
                 (λ n, BPlusTreePage.SetArray
                         (set_slot (neber_size + deleting_size + 1 - i)
                            (slot (BPlusTreePage.GetArray n) (neber_size - i))
                            (BPlusTreePage.GetArray n)) n));;
             d ← load deleting_internal;
             for_ (range 0 (BPlusTreePage.GetSize d + 1)) (λ i,
               d ← load deleting_internal;
               let mapp_elem := slot (BPlusTreePage.GetArray d) i in
               nb ← load neber_internal;
               UpdateParentId (snd mapp_elem) (BPlusTreePage.GetPageId nb);;
               store neber_internal
                 (λ n, BPlusTreePage.SetArray
                         (set_slot i mapp_elem (BPlusTreePage.GetArray n)) n));;
             d ← load deleting_internal;
             store neber_internal (BPlusTreePage.IncreaseSize (BPlusTreePage.GetSize d + 1));;
             store parent_internal (BPlusTreeInternalPage.Remove target_index);;
             k ← GetLeftMostKey fuel deleting_internal;
             store parent_internal (BPlusTreeInternalPage.SetKeyAt target_index k));;
          nb ← load neber_internal;
          UnpinPage (BPlusTreePage.GetPageId nb) true;;
          d ← load deleting_internal;
          UnpinPage (BPlusTreePage.GetPageId d) false;;
          d ← load deleting_internal;
          DeletePage (BPlusTreePage.GetPageId d);;
          (* Recursion *)
          pi ← load parent_internal;
          if BPlusTreeInternalPage.NeedRedsb pi then
            if BPlusTreePage.IsRootPage pi then
              if BPlusTreePage.GetSize pi <=? 0 then
                store neber_internal (BPlusTreePage.SetParentPageId INVALID_PAGE_ID);;
                tr ← get;
                UnpinPage (root_page_id_ tr) false;;
                DeletePage (root_page_id_ tr);;
                nb ← load neber_internal;
                set_root (BPlusTreePage.GetPageId nb);;
                UpdateRootPageId 0
              else
                tr ← get;
                UnpinPage (root_page_id_ tr) false
            else Merge fuel parent_internal
          else UnpinPage (BPlusTreePage.GetPageId pi) true
  end.

(** Which [return] of [Remove] was reached.  The C++ function returns
    [void]; the tag is ghost. *)
Inductive RemoveReturn :=
| RemovedNothing_EmptyTree
| RemovedNothing_KeyAbsent
| Removed_FromRootLeaf
| Removed_NormalDelete
| Removed_Steal
| Removed_Merge.

(** [Remove], "= Normal Delete =": the leaf does not need rebalancing. *)
Definition Remove_normal (fuel : nat) (deleting_leaf : nat) (need_update : bool) : M RemoveReturn :=
  (if need_update then
     d ← load deleting_leaf;
     UpdateParentKey fuel (BPlusTreeLeafPage.KeyAt d 0) (BPlusTreePage.GetPageId d)
   else mret ());;
  d ← load deleting_leaf;
  UnpinPage (BPlusTreePage.GetPageId d) true;;
  mret Removed_NormalDelete.

(** [Remove], "= Steal =" and "= Merge =": rebalancing of the leaf. *)
Definition Remove_rebalance (fuel : nat) (deleting_leaf : nat) (need_update : bool) : M RemoveReturn :=
  stolen ← StealSibling fuel deleting_leaf;
  if (stolen : bool) then
    (if need_update then
       d ← load deleting_leaf;
       UpdateParentKey fuel (BPlusTreeLeafPage.KeyAt d 0) (BPlusTreePage.GetPageId d)
     else mret ());;
    d ← load deleting_leaf;
    UnpinPage (BPlusTreePage.GetPageId d) true;;
    mret Removed_Steal
  else
    Merge fuel deleting_leaf;;
    mret Removed_Merge.

(** [Remove(const KeyType &key, Transaction *transaction)] *)
Definition Remove (fuel : nat) (key : Z) : M RemoveReturn :=
  tr ← get;
  if IsEmpty tr then mret RemovedNothing_EmptyTree
  else
    deleting_leaf ← FindLeafPage fuel key;
    d ← load deleting_leaf;
    let '(removed, need_update, d') := BPlusTreeLeafPage.Remove key d in
    store deleting_leaf (λ _, d');;
    if negb removed then mret RemovedNothing_KeyAbsent
    else if BPlusTreePage.IsRootPage d' then mret Removed_FromRootLeaf
    else if negb (BPlusTreePage.NeedRedsb d') then Remove_normal fuel deleting_leaf need_update
    else Remove_rebalance fuel deleting_leaf need_update.

End BPlusTree.

(** * The pages as the tree sees them *)

(** The image of page [page_id]: the contents of its frame while the page
    is resident, and the block on disk otherwise. *)
Definition page_data (b : BufferPoolManagerInstance.t) (page_id : Z) : PageData :=
  match BufferPoolManagerInstance.page_table_ b !! page_id with
  | Some f => Page.data_ (BufferPoolManagerInstance.frame b f)
  | None => default zero_data (BufferPoolManagerInstance.disk_manager_ b !! page_id)
  end.

(** The tree page stored under [page_id]. *)
Definition node_of (tr : BPlusTree.t) (page_id : Z) : BPlusTreePage.t :=
  as_node (page_data (BPlusTree.buffer_pool_manager_ tr) page_id).

(** The pin count of page [page_id]; a page that is not resident has no
    pins. *)
Definition pin_count_of (b : BufferPoolManagerInstance.t) (page_id : Z) : Z :=
  match BufferPoolManagerInstance.page_table_ b !! page_id with
  | Some f => Page.pin_count_ (BufferPoolManagerInstance.frame b f)
  | None => 0
  end.

(** The final state of a run, or the start state if the run did not
    return. *)
Definition exec {A} (m : BPlusTree.M A) (tr : BPlusTree.t) : BPlusTree.t :=
  default tr (BPlusTree.state_of (m tr)).

(** * Well-formed pools *)

(** The frame-acquisition step that [NewPgImp] and [FetchPgImp] share: a
    frame from the back of the free list, or else a victim of the replacer,
    written back if dirty and removed from the page table. *)
Definition acquire_frame (b : BufferPoolManagerInstance.t)
    : option (nat * BufferPoolManagerInstance.t) :=
  match last (BufferPoolManagerInstance.free_list_ b) with
  | Some target_frame =>
      Some (target_frame,
            BufferPoolManagerInstance.set_free_list
              (removelast (BufferPoolManagerInstance.free_list_ b)) b)
  | None =>
      match LRUKReplacer.Evict (BufferPoolManagerInstance.replacer_ b) with
      | (None, _) => None
      | (Some target_frame, r) =>
          let b := BufferPoolManagerInstance.set_replacer r b in
          let target := BufferPoolManagerInstance.frame b target_frame in
          let b := if Page.is_dirty_ target
                   then BufferPoolManagerInstance.WritePage
                          (Page.page_id_ target) (Page.data_ target) b
                   else b in
          Some (target_frame,
                BufferPoolManagerInstance.set_page_table
                  (delete (Page.page_id_ target) (BufferPoolManagerInstance.page_table_ b)) b)
      end
  end.

(** The invariants of section 4.3 of the specification, for a pool in which
    the frames of [spare] have been taken out of the free list or evicted
    and not yet been given a page.
    - [wf_table]: a page-table entry points to a frame of the pool that
      holds that page, whose pin count is not negative, and which the
      replacer tracks and holds evictable once the pin count is zero; page
      ids handed out so far are below the allocator's counter.
    - [wf_free]: free frames belong to the pool and hold no resident page.
    - [wf_replacer]: the replacer tracks frames of resident pages only, and
      an evictable frame is not pinned.
    - [wf_clean]: an unpinned page that is not dirty equals its block on
      disk. *)
Record pool_wf' (spare : list nat) (b : BufferPoolManagerInstance.t) : Prop := {
  wf_table : ∀ pid f,
    BufferPoolManagerInstance.page_table_ b !! pid = Some f →
    (f < length (BufferPoolManagerInstance.pages_ b))%nat ∧
    Page.page_id_ (BufferPoolManagerInstance.frame b f) = pid ∧
    (f ∉ spare) ∧
    pid < BufferPoolManagerInstance.next_page_id_ b ∧
    0 ≤ Page.pin_count_ (BufferPoolManagerInstance.frame b f) ∧
    ∃ e, LRUKReplacer.node_store_ (BufferPoolManagerInstance.replacer_ b) !! f = Some e ∧
         (Page.pin_count_ (BufferPoolManagerInstance.frame b f) = 0 →
          LRUKReplacer.evictable_ e = true);
  wf_free : ∀ f,
    f ∈ BufferPoolManagerInstance.free_list_ b →
    (f < length (BufferPoolManagerInstance.pages_ b))%nat ∧
    (f ∉ spare) ∧
    ∀ pid, BufferPoolManagerInstance.page_table_ b !! pid ≠ Some f;
  wf_free_nodup : NoDup (BufferPoolManagerInstance.free_list_ b);
  wf_replacer : ∀ f e,
    LRUKReplacer.node_store_ (BufferPoolManagerInstance.replacer_ b) !! f = Some e →
    BufferPoolManagerInstance.page_table_ b
      !! Page.page_id_ (BufferPoolManagerInstance.frame b f) = Some f ∧
    (LRUKReplacer.evictable_ e = true →
     Page.pin_count_ (BufferPoolManagerInstance.frame b f) = 0);
  wf_clean : ∀ pid f,
    BufferPoolManagerInstance.page_table_ b !! pid = Some f →
    Page.is_dirty_ (BufferPoolManagerInstance.frame b f) = false →
    Page.pin_count_ (BufferPoolManagerInstance.frame b f) = 0 →
    Page.data_ (BufferPoolManagerInstance.frame b f) =
      default zero_data (BufferPoolManagerInstance.disk_manager_ b !! pid);
  wf_spare : ∀ f, f ∈ spare → (f < length (BufferPoolManagerInstance.pages_ b))%nat
}.

Definition pool_wf (b : BufferPoolManagerInstance.t) : Prop := pool_wf' [] b.

(** Unpinning page [pid] without the dirty flag loses no change: the page
    stays pinned, or it is already dirty, or it equals its block on disk. *)
Definition unpin_safe (b : BufferPoolManagerInstance.t) (pid : Z) : Prop :=
  ∀ f, BufferPoolManagerInstance.page_table_ b !! pid = Some f →
       Page.pin_count_ (BufferPoolManagerInstance.frame b f) = 1 →
       Page.is_dirty_ (BufferPoolManagerInstance.frame b f) = true ∨
       Page.data_ (BufferPoolManagerInstance.frame b f) =
         default zero_data (BufferPoolManagerInstance.disk_manager_ b !! pid).

(** Pages that are pinned keep their frame from [b] to [b']. *)
Definition pinned_stay (b b' : BufferPoolManagerInstance.t) : Prop :=
  ∀ pid f, BufferPoolManagerInstance.page_table_ b !! pid = Some f →
           0 < Page.pin_count_ (BufferPoolManagerInstance.frame b f) →
           BufferPoolManagerInstance.page_table_ b' !! pid = Some f.

(** The allocator can hand out its next id without wrapping around. *)
Definition can_allocate (b : BufferPoolManagerInstance.t) : Prop :=
  MIN_PAGE_ID ≤ BufferPoolManagerInstance.next_page_id_ b < MAX_PAGE_ID.

(** Some frame can be handed out: the free list is not empty or a resident
    page is not pinned. *)
Definition has_room (b : BufferPoolManagerInstance.t) : Prop :=
  BufferPoolManagerInstance.free_list_ b ≠ [] ∨
  ∃ pid f, BufferPoolManagerInstance.page_table_ b !! pid = Some f ∧
           Page.pin_count_ (BufferPoolManagerInstance.frame b f) = 0.

(** * Tree states *)

(** The page pointer [p] points to the pinned, resident page [pid]. *)
Definition holds (tr : BPlusTree.t) (p : nat) (pid : Z) : Prop :=
  BufferPoolManagerInstance.page_table_ (BPlusTree.buffer_pool_manager_ tr) !! pid = Some p ∧
  0 < pin_count_of (BPlusTree.buffer_pool_manager_ tr) pid.

(** Page pointers that are valid in [tr] are valid in [tr']. *)
Definition keeps (tr tr' : BPlusTree.t) : Prop := ∀ p pid, holds tr p pid → holds tr' p pid.

(** The members of the tree object other than the pool, and the pool's
    page-id counter. *)
Definition cfg (tr : BPlusTree.t) : string * Z * Z * Z :=
  (BPlusTree.index_name_ tr, BPlusTree.root_page_id_ tr,
   BPlusTree.leaf_max_size_ tr, BPlusTree.internal_max_size_ tr).
Definition next_id (tr : BPlusTree.t) : Z :=
  BufferPoolManagerInstance.next_page_id_ (BPlusTree.buffer_pool_manager_ tr).
Definition pins (tr : BPlusTree.t) (pid : Z) : Z :=
  pin_count_of (BPlusTree.buffer_pool_manager_ tr) pid.
Definition tree_pool_wf (tr : BPlusTree.t) : Prop := pool_wf (BPlusTree.buffer_pool_manager_ tr).

(** [St tr σ π c n H]: a description of the tree state [tr].  The pool is
    well formed, page [q] holds the tree page [σ q] and has [π q] pins, the
    tree object's members are [c], the next page id to be allocated is [n],
    and every pair [(p, pid)] of [H] is a valid page pointer [p] to the
    pinned page [pid]. *)
Record St (tr : BPlusTree.t) (σ : Z → BPlusTreePage.t) (π : Z → Z)
    (c : string * Z * Z * Z) (n : Z) (H : list (nat * Z)) : Prop := {
  st_wf : tree_pool_wf tr;
  st_nodes : ∀ q, node_of tr q = σ q;
  st_pins : ∀ q, pins tr q = π q;
  st_cfg : cfg tr = c;
  st_next : next_id tr = n;
  st_holds : ∀ p pid, (p, pid) ∈ H → holds tr p pid
}.

(** Function update, [f] with [f x := y]. *)
Definition upd {B} (x : Z) (y : B) (f : Z → B) : Z → B :=
  λ q, if decide (q = x) then y else f q.

(** * The search rule of the specification *)

(** The separator keys [key_1 .. key_n] of an internal page are in
    ascending order. *)
Definition keys_sorted (n : BPlusTreePage.t) : Prop :=
  ∀ i j, 1 ≤ i → i ≤ j → j ≤ BPlusTreePage.size_ n →
         BPlusTreeInternalPage.KeyAt n i ≤ BPlusTreeInternalPage.KeyAt n j.

(** The separator keys are strictly increasing, as section 3 of the
    specification requires of the keys of every page. *)
Definition keys_increasing (n : BPlusTreePage.t) : Prop :=
  ∀ i j, 1 ≤ i → i < j → j ≤ BPlusTreePage.size_ n →
         BPlusTreeInternalPage.KeyAt n i < BPlusTreeInternalPage.KeyAt n j.

(** Section 4.4.1 of the specification: among the children [0 .. n], the
    search follows [child_i] where [i] is the largest index with
    [key_i ≤ key], and [child_0] when there is no such index, that is when
    [key] is less than [key_1]. *)
Definition largest_index_le (n : BPlusTreePage.t) (key : Z) (i : Z) : Prop :=
  0 ≤ i ≤ BPlusTreePage.size_ n ∧
  (i = 0 ∨ BPlusTreeInternalPage.KeyAt n i ≤ key) ∧
  (∀ j, i < j → j ≤ BPlusTreePage.size_ n → key < BPlusTreeInternalPage.KeyAt n j).

(** The entries of a leaf: its live slots. *)
Definition entries (n : BPlusTreePage.t) : list (Z * Z) :=
  live (BPlusTreePage.size_ n) (BPlusTreePage.array_ n).

(** * Well-formed trees (section 3 of the specification) *)

(** A key window: the keys [x] with [lo ≤ x < hi], where [None] stands for
    no bound. *)
Definition in_window (lo hi : option Z) (x : Z) : Prop :=
  (∀ l, lo = Some l → l ≤ x) ∧ (∀ h, hi = Some h → x < h).

(** The keys strictly inside a window: [lo < x < hi]. *)
Definition between (lo hi : option Z) (x : Z) : Prop :=
  (∀ l, lo = Some l → l < x) ∧ (∀ h, hi = Some h → x < h).

(** The window of child [i] of an internal page with window [lo, hi):
    from [key_i] to [key_(i+1)]. *)
Definition child_lo (n : BPlusTreePage.t) (lo : option Z) (i : Z) : option Z :=
  if decide (i = 0) then lo else Some (BPlusTreeInternalPage.KeyAt n i).
Definition child_hi (n : BPlusTreePage.t) (hi : option Z) (i : Z) : option Z :=
  if decide (i = BPlusTreePage.size_ n) then hi
  else Some (BPlusTreeInternalPage.KeyAt n (i + 1)).

(** The keys of a leaf are strictly increasing. *)
Definition leaf_sorted (n : BPlusTreePage.t) : Prop :=
  ∀ i j, 0 ≤ i → i < j → j < BPlusTreePage.size_ n →
         BPlusTreeLeafPage.KeyAt n i < BPlusTreeLeafPage.KeyAt n j.

(** Page [pid] is a leaf below [parent] with keys in the window: an
    allocated page other than the header page, tagged as a leaf, recording
    its own id and its parent, of a capacity of two entries or more, with
    strictly increasing keys in the window, and a successor link that is
    [INVALID] or an allocated page. *)
Definition leaf_ok (σ : Z → BPlusTreePage.t) (bound parent : Z) (lo hi : option Z)
    (pid : Z) : Prop :=
  HEADER_PAGE_ID < pid ∧ pid < bound ∧
  BPlusTreePage.page_type_ (σ pid) = LEAF_PAGE ∧
  BPlusTreePage.page_id_ (σ pid) = pid ∧
  BPlusTreePage.parent_page_id_ (σ pid) = parent ∧
  2 ≤ BPlusTreePage.max_size_ (σ pid) ∧
  0 ≤ BPlusTreePage.size_ (σ pid) ∧
  leaf_sorted (σ pid) ∧
  (∀ i, 0 ≤ i → i < BPlusTreePage.size_ (σ pid) →
        in_window lo hi (BPlusTreeLeafPage.KeyAt (σ pid) i)) ∧
  (BPlusTreePage.next_page_id_ (σ pid) = INVALID_PAGE_ID ∨
   BPlusTreePage.next_page_id_ (σ pid) < bound).

(** Page [pid] is an internal page below [parent] with separator keys
    strictly inside the window: strictly increasing keys, and allocated
    children that differ from slot to slot. *)
Definition internal_ok (σ : Z → BPlusTreePage.t) (bound parent : Z) (lo hi : option Z)
    (pid : Z) : Prop :=
  HEADER_PAGE_ID < pid ∧ pid < bound ∧
  BPlusTreePage.page_type_ (σ pid) = INTERNAL_PAGE ∧
  BPlusTreePage.page_id_ (σ pid) = pid ∧
  BPlusTreePage.parent_page_id_ (σ pid) = parent ∧
  0 ≤ BPlusTreePage.size_ (σ pid) ∧
  keys_increasing (σ pid) ∧
  (∀ i, 1 ≤ i → i ≤ BPlusTreePage.size_ (σ pid) →
        between lo hi (BPlusTreeInternalPage.KeyAt (σ pid) i)) ∧
  (∀ i, 0 ≤ i → i ≤ BPlusTreePage.size_ (σ pid) →
        BPlusTreeInternalPage.ValueAt (σ pid) i < bound) ∧
  (∀ i i', 0 ≤ i → i ≤ BPlusTreePage.size_ (σ pid) →
           0 ≤ i' → i' ≤ BPlusTreePage.size_ (σ pid) →
           BPlusTreeInternalPage.ValueAt (σ pid) i = BPlusTreeInternalPage.ValueAt (σ pid) i' →
           i = i').

(** [btree σ bound h parent lo hi pid]: the pages of [σ] below page [pid]
    form a B+ tree of height [h] whose keys lie in the window [lo, hi):
    all leaves at the same depth, keys ordered within each page, each
    separator key bounding the keys of the subtrees on its two sides, and
    parent links pointing back. *)
Inductive btree (σ : Z → BPlusTreePage.t) (bound : Z)
    : nat → Z → option Z → option Z → Z → Prop :=
| btree_leaf parent lo hi pid :
    leaf_ok σ bound parent lo hi pid →
    btree σ bound 0 parent lo hi pid
| btree_internal h parent lo hi pid :
    internal_ok σ bound parent lo hi pid →
    (∀ i, 0 ≤ i → i ≤ BPlusTreePage.size_ (σ pid) →
          btree σ bound h pid (child_lo (σ pid) lo i) (child_hi (σ pid) hi i)
            (BPlusTreeInternalPage.ValueAt (σ pid) i)) →
    btree σ bound (S h) parent lo hi pid.

(** The pool between two operations of the tree: it is well formed and can
    hand out a frame, the header page has been allocated, and no page other
    than the header page is pinned. *)
Definition pool_idle (tr : BPlusTree.t) : Prop :=
  tree_pool_wf tr ∧
  has_room (BPlusTree.buffer_pool_manager_ tr) ∧
  HEADER_PAGE_ID < next_id tr ∧
  (∀ q, q ≠ HEADER_PAGE_ID → pins tr q = 0).

(** A tree over a pool, between two operations: the pool is idle, leaves
    hold two entries or more, and the tree is empty or its pages form a B+
    tree below the root, of a height below [fuel]. *)
Definition tree_ok (fuel : nat) (tr : BPlusTree.t) : Prop :=
  pool_idle tr ∧
  2 ≤ BPlusTree.leaf_max_size_ tr ∧
  (BPlusTree.root_page_id_ tr = INVALID_PAGE_ID ∨
   ∃ h, (h < fuel)%nat ∧
        btree (node_of tr) (next_id tr) h INVALID_PAGE_ID None None
          (BPlusTree.root_page_id_ tr)).

(** The ancestors of a page on the search path of [key]: [above σ bound key
    anc c lo hi] says that [anc], nearest first, are the internal pages
    from the parent of [c] up to the root, that the search for [key]
    descends through them to [c], that [lo, hi) is the window of [c], and
    that no page is reached twice. *)
Inductive above (σ : Z → BPlusTreePage.t) (bound key : Z)
    : list Z → Z → option Z → option Z → Prop :=
| above_root c : above σ bound key [] c None None
| above_step A anc c loA hiA j :
    above σ bound key anc A loA hiA →
    internal_ok σ bound (hd INVALID_PAGE_ID anc) loA hiA A →
    in_window loA hiA key →
    largest_index_le (σ A) key j →
    BPlusTreeInternalPage.ValueAt (σ A) j = c →
    (∀ i, 0 ≤ i → i ≤ BPlusTreePage.size_ (σ A) →
          BPlusTreeInternalPage.ValueAt (σ A) i ∉ A :: anc) →
    (∀ X i, X ∈ anc → 0 ≤ i → i ≤ BPlusTreePage.size_ (σ X) →
            BPlusTreeInternalPage.ValueAt (σ X) i ≠ c) →
    above σ bound key (A :: anc) c (child_lo (σ A) loA j) (child_hi (σ A) hiA j).

(** The search path of [key]: the internal pages [chain] from the root
    down to the leaf [L], whose window [lo, hi) holds the key. *)
Definition search_path (σ : Z → BPlusTreePage.t) (bound key : Z) (chain : list Z) (L : Z)
    (lo hi : option Z) : Prop :=
  above σ bound key chain L lo hi ∧
  leaf_ok σ bound (hd INVALID_PAGE_ID chain) lo hi L ∧
  in_window lo hi key.

(** The leaf page [n] stores [value] under [key]. *)
Definition leaf_has (n : BPlusTreePage.t) (key value : Z) : Prop :=
  ∃ i, 0 ≤ i ∧ i < BPlusTreePage.size_ n ∧ slot (BPlusTreePage.array_ n) i = (key, value).

(** The leaf that the search rule reaches from page [pid]. *)
Fixpoint find_leaf (σ : Z → BPlusTreePage.t) (fuel : nat) (key : Z) (pid : Z) : option Z :=
  match fuel with
  | O => None
  | S fuel =>
      if BPlusTreePage.IsLeafPage (σ pid) then Some pid
      else find_leaf σ fuel key (BPlusTree.next_page_id_of (σ pid) key)
  end.

(** The pages that the search visits from [pid] are allocated pages other
    than the header page and record their own ids, and the search ends at a
    leaf within [fuel] steps. *)
Fixpoint path_ok (σ : Z → BPlusTreePage.t) (bound : Z) (fuel : nat) (key : Z) (pid : Z)
    : Prop :=
  match fuel with
  | O => False
  | S fuel =>
      HEADER_PAGE_ID < pid ∧ pid < bound ∧ BPlusTreePage.page_id_ (σ pid) = pid ∧
      (BPlusTreePage.IsLeafPage (σ pid) = true ∨
       (BPlusTreePage.IsLeafPage (σ pid) = false ∧
        path_ok σ bound fuel key (BPlusTree.next_page_id_of (σ pid) key)))
  end.

(** The root above a page [c] with ancestors [anc], nearest first. *)
Definition top (c : Z) (anc : list Z) : Z := List.last anc c.

(** Two tree pages that differ at most in the link to the previous leaf,
    which the search and the insertion never read. *)
Definition eq_mod_prev (n n' : BPlusTreePage.t) : Prop :=
  BPlusTreePage.SetPrevPageId 0 n = BPlusTreePage.SetPrevPageId 0 n'.

(** Two tree pages that differ at most in the parent link. *)
Definition eq_mod_parent (n n' : BPlusTreePage.t) : Prop :=
  BPlusTreePage.SetParentPageId 0 n = BPlusTreePage.SetParentPageId 0 n'.

(** The two halves of a leaf [o] that [SplitLeaf] divides at
    [mid = max / 2]: the left half keeps the slots below [mid] and points
    to the new leaf; the new right leaf, initialised with the tree's leaf
    capacity, takes the slots [mid .. size) and the old successor, and
    points back to [o]. *)
Definition split_leaf_left (o : BPlusTreePage.t) (new_leaf_id : Z) : BPlusTreePage.t :=
  BPlusTreePage.IncreaseSize
    (-1 * (BPlusTreePage.size_ o - BPlusTreePage.max_size_ o ÷ 2))
    (BPlusTreePage.SetNextPageId new_leaf_id o).

Definition split_leaf_right (o : BPlusTreePage.t) (new_leaf_id parent_id leaf_max_size : Z)
    : BPlusTreePage.t :=
  BPlusTreePage.IncreaseSize (BPlusTreePage.size_ o - BPlusTreePage.max_size_ o ÷ 2)
    (BPlusTreePage.SetArray
       (std_copy (BPlusTreePage.array_ o) (BPlusTreePage.max_size_ o ÷ 2)
          (BPlusTreePage.size_ o) [])
       (BPlusTreePage.SetPrevPageId (BPlusTreePage.page_id_ o)
          (BPlusTreePage.SetNextPageId (BPlusTreePage.next_page_id_ o)
             (BPlusTreeLeafPage.Init new_leaf_id parent_id leaf_max_size BPlusTreePage.zero)))).

(** The tree holds [value] under [key]: between two operations, the
    search for [key] from the root ends, within [fuel] steps, at a leaf with
    strictly increasing keys that stores [value] under [key]. *)
Definition found (fuel : nat) (key value : Z) (tr : BPlusTree.t) : Prop :=
  pool_idle tr ∧
  BPlusTree.root_page_id_ tr ≠ INVALID_PAGE_ID ∧
  path_ok (node_of tr) (next_id tr) fuel key (BPlusTree.root_page_id_ tr) ∧
  ∃ L, find_leaf (node_of tr) fuel key (BPlusTree.root_page_id_ tr) = Some L ∧
       leaf_sorted (node_of tr L) ∧ leaf_has (node_of tr L) key value.

(** * Example states *)

(** A pool with a single frame, whose page 0 is pinned by the caller of
    [NewPage]. *)
Definition pool_all_pinned : BufferPoolManagerInstance.t :=
  (BufferPoolManagerInstance.NewPgImp (BufferPoolManagerInstance.init 1 2 ∅)).2.

(** The same pool after the caller changed page 0 and unpinned it with the
    dirty flag. *)
Definition pool_dirty_unpinned : BufferPoolManagerInstance.t :=
  (BufferPoolManagerInstance.UnpinPgImp 0 true
     (BufferPoolManagerInstance.upd_frame 0
        (Page.set_data (HeaderData [("idx"%string, 7)])) pool_all_pinned)).2.

(** A pool of two frames, one free and one holding the pinned page 0. *)
Definition pool_one_free : BufferPoolManagerInstance.t :=
  (BufferPoolManagerInstance.NewPgImp (BufferPoolManagerInstance.init 2 2 ∅)).2.

(** A pool of ten frames in which the header page, page 0, has been created
    and is kept pinned, as the B+ tree tests set it up. *)
Definition pool_with_header : BufferPoolManagerInstance.t :=
  (BufferPoolManagerInstance.NewPgImp (BufferPoolManagerInstance.init 10 2 ∅)).2.

(** Inserting the keys of a list one after the other, with value [10 * key]. *)
Definition insert_all (fuel : nat) (keys : list Z) (tr : BPlusTree.t) : BPlusTree.t :=
  foldl (λ tr k, exec (BPlusTree.Insert fuel k (10 * k)) tr) tr keys.

(** Scenario 1 of the specification: leaf capacity 4, internal capacity 3. *)
Definition tree_empty : BPlusTree.t := BPlusTree.init "idx" pool_with_header 4 3.

(** A tree whose root is a leaf holding the single key 20. *)
Definition tree_single : BPlusTree.t := insert_all 8 [20] tree_empty.



(** * Properties *)

(** ** The replacer *)

Lemma best_None (k : nat) (l : list (nat * LRUKReplacer.entry)) :
  LRUKReplacer.best k l = None ↔ l = [].
Proof.
  destruct l as [|c l]; simpl; [done|].
  split; [|done].
  destruct (LRUKReplacer.best k l) as [c'|]; [|done].
  by destruct (LRUKReplacer.better k c'.2 c.2).
Qed.

Lemma best_elem_of (k : nat) (l : list (nat * LRUKReplacer.entry)) c :
  LRUKReplacer.best k l = Some c → c ∈ l.
Proof.
  revert c. induction l as [|a l IH]; intros c; simpl; [done|].
  destruct (LRUKReplacer.best k l) as [c'|].
  - destruct (LRUKReplacer.better k c'.2 a.2); intros [= <-].
    + right. by apply IH.
    + left.
  - intros [= <-]. left.
Qed.

Lemma candidates_spec (r : LRUKReplacer.t) f e :
  (f, e) ∈ LRUKReplacer.candidates r ↔
  LRUKReplacer.node_store_ r !! f = Some e ∧ LRUKReplacer.evictable_ e = true.
Proof.
  unfold LRUKReplacer.candidates.
  rewrite list_elem_of_filter, elem_of_map_to_list. simpl. tauto.
Qed.

Lemma candidates_nil (r : LRUKReplacer.t) :
  LRUKReplacer.candidates r = [] ↔ ¬ LRUKReplacer.has_evictable r.
Proof.
  split.
  - intros Hnil (f & e & Hf & He).
    assert (Hin : (f, e) ∈ LRUKReplacer.candidates r) by by apply candidates_spec.
    rewrite Hnil in Hin. by apply elem_of_nil in Hin.
  - intros Hno. destruct (LRUKReplacer.candidates r) as [|[f e] l] eqn:Hc; [done|].
    exfalso. apply Hno. exists f, e. apply candidates_spec. rewrite Hc. left.
Qed.

(** [Evict] reports "no candidate" exactly when no tracked frame is
    evictable, and then leaves the replacer as it was. *)
Lemma Evict_None (r : LRUKReplacer.t) :
  (LRUKReplacer.Evict r).1 = None ↔ ¬ LRUKReplacer.has_evictable r.
Proof.
  rewrite <- candidates_nil, <- (best_None (LRUKReplacer.k_ r)).
  unfold LRUKReplacer.Evict.
  destruct (LRUKReplacer.best _ _) as [[f e]|]; simpl; split; done.
Qed.

Lemma Evict_None_eq (r : LRUKReplacer.t) :
  ¬ LRUKReplacer.has_evictable r → LRUKReplacer.Evict r = (None, r).
Proof.
  intros H. apply candidates_nil in H. unfold LRUKReplacer.Evict. by rewrite H.
Qed.

(** A victim is a tracked, evictable frame, and eviction forgets it. *)
Lemma Evict_Some (r r' : LRUKReplacer.t) f :
  LRUKReplacer.Evict r = (Some f, r') →
  (∃ e, LRUKReplacer.node_store_ r !! f = Some e ∧ LRUKReplacer.evictable_ e = true) ∧
  r' = LRUKReplacer.Remove f r.
Proof.
  unfold LRUKReplacer.Evict.
  destruct (LRUKReplacer.best _ _) as [[f' e]|] eqn:Hb; [|done].
  intros [= -> <-]. split; [|done].
  exists e. apply candidates_spec. by eapply best_elem_of.
Qed.

(** ** The buffer pool *)

Lemma last_None_nil {A} (l : list A) : last l = None ↔ l = [].
Proof. apply last_None. Qed.

Lemma wrap_page_id_succ (z : Z) :
  MIN_PAGE_ID ≤ z < MAX_PAGE_ID → wrap_page_id (z + 1) = z + 1.
Proof.
  unfold MIN_PAGE_ID, MAX_PAGE_ID, wrap_page_id. intros Hz.
  rewrite Z.mod_small by lia. lia.
Qed.

Lemma wrap_page_id_range (z : Z) :
  MIN_PAGE_ID ≤ wrap_page_id z ≤ MAX_PAGE_ID.
Proof.
  unfold MIN_PAGE_ID, MAX_PAGE_ID, wrap_page_id.
  pose proof (Z.mod_pos_bound (z + 2147483648) 4294967296). lia.
Qed.

Lemma NewPgImp_out (b : BPM.t) : (BPM.NewPgImp b).1.2 = BPM.next_page_id_ b.
Proof.
  unfold BPM.NewPgImp, BPM.AllocatePage. simpl.
  destruct (last (BPM.free_list_ b)); [done|].
  destruct (LRUKReplacer.Evict (BPM.replacer_ b)) as [[f|] r]; done.
Qed.

Lemma NewPgImp_next (b : BPM.t) :
  BPM.next_page_id_ (BPM.NewPgImp b).2 = wrap_page_id (BPM.next_page_id_ b + 1).
Proof.
  unfold BPM.NewPgImp, BPM.AllocatePage. simpl.
  destruct (last (BPM.free_list_ b)); [done|].
  destruct (LRUKReplacer.Evict (BPM.replacer_ b)) as [[f|] r]; [|done].
  by destruct (Page.is_dirty_ _).
Qed.

(** C10.  [NewPgImp] advances the page-id counter and stores the fresh id in
    the out-parameter before it looks for a frame: whatever the call
    returns, the out-parameter holds the old counter value and the counter
    has moved on, by one as long as it stays below the largest page id,
    and from the largest page id around to the smallest.  In particular a
    call that finds the free list empty and no evictable frame returns
    null, having consumed the id and changed nothing else. *)
Theorem NewPgImp_consumes_page_id (b : BPM.t) :
  (BPM.NewPgImp b).1.2 = BPM.next_page_id_ b ∧
  BPM.next_page_id_ (BPM.NewPgImp b).2 = wrap_page_id (BPM.next_page_id_ b + 1) ∧
  (can_allocate b → BPM.next_page_id_ (BPM.NewPgImp b).2 = BPM.next_page_id_ b + 1) ∧
  (BPM.next_page_id_ b = MAX_PAGE_ID → BPM.next_page_id_ (BPM.NewPgImp b).2 = MIN_PAGE_ID) ∧
  (BPM.free_list_ b = [] → ¬ LRUKReplacer.has_evictable (BPM.replacer_ b) →
   BPM.NewPgImp b =
     ((None, BPM.next_page_id_ b),
      BPM.set_next_page_id (wrap_page_id (BPM.next_page_id_ b + 1)) b)).
Proof.
  split_and!.
  - apply NewPgImp_out.
  - apply NewPgImp_next.
  - intros Hcan. rewrite NewPgImp_next. by apply wrap_page_id_succ.
  - intros Hmax. rewrite NewPgImp_next, Hmax. reflexivity.
  - intros Hfree Hev. unfold BPM.NewPgImp, BPM.AllocatePage. simpl.
    rewrite Hfree. simpl. by rewrite (Evict_None_eq _ Hev).
Qed.

Lemma NewPgImp_consumes_page_id_witness :
  (can_allocate pool_all_pinned ∧
   BPM.next_page_id_ (BPM.set_next_page_id MAX_PAGE_ID pool_all_pinned) = MAX_PAGE_ID ∧
   BPM.free_list_ pool_all_pinned = [] ∧
   ¬ LRUKReplacer.has_evictable (BPM.replacer_ pool_all_pinned)) ∧
  BPM.next_page_id_ (BPM.NewPgImp pool_all_pinned).2 = 2 ∧
  BPM.next_page_id_ (BPM.NewPgImp (BPM.set_next_page_id MAX_PAGE_ID pool_all_pinned)).2
    = MIN_PAGE_ID ∧
  BPM.NewPgImp pool_all_pinned = ((None, 1), BPM.set_next_page_id 2 pool_all_pinned).
Proof.
  assert (H0 : can_allocate pool_all_pinned) by (by vm_compute).
  assert (H1 : BPM.free_list_ pool_all_pinned = []) by reflexivity.
  assert (H2 : ¬ LRUKReplacer.has_evictable (BPM.replacer_ pool_all_pinned))
    by (apply candidates_nil; reflexivity).
  assert (H3 : BPM.next_page_id_ (BPM.set_next_page_id MAX_PAGE_ID pool_all_pinned)
               = MAX_PAGE_ID) by reflexivity.
  destruct (NewPgImp_consumes_page_id pool_all_pinned) as (_ & _ & Hsucc & _ & Hnull).
  destruct (NewPgImp_consumes_page_id (BPM.set_next_page_id MAX_PAGE_ID pool_all_pinned))
    as (_ & _ & _ & Hwrap & _).
  split; [done|]. split; [exact (Hsucc H0)|]. split; [exact (Hwrap H3)|].
  exact (Hnull H1 H2).
Defined.

(** C7.  On a miss, [FetchPgImp] returns null if and only if the free list
    is empty and the replacer has no evictable frame; on a hit it never
    returns null. *)
Theorem FetchPgImp_null_iff (b : BPM.t) (page_id : Z) :
  (BPM.page_table_ b !! page_id = None →
   ((BPM.FetchPgImp page_id b).1 = None ↔
    BPM.free_list_ b = [] ∧ ¬ LRUKReplacer.has_evictable (BPM.replacer_ b))) ∧
  (is_Some (BPM.page_table_ b !! page_id) → (BPM.FetchPgImp page_id b).1 ≠ None).
Proof.
  unfold BPM.FetchPgImp. split.
  - intros ->. rewrite <- Evict_None, <- last_None_nil.
    destruct (last (BPM.free_list_ b)) as [f|]; simpl.
    + split; [done|]. by intros [? _].
    + destruct (LRUKReplacer.Evict (BPM.replacer_ b)) as [[f|] r]; simpl.
      * split; [done|]. by intros [_ ?].
      * done.
  - intros [f ->]. done.
Qed.

Lemma FetchPgImp_null_iff_witness :
  (BPM.page_table_ pool_all_pinned !! 5 = None ∧
   ((BPM.FetchPgImp 5 pool_all_pinned).1 = None ↔
    BPM.free_list_ pool_all_pinned = [] ∧
    ¬ LRUKReplacer.has_evictable (BPM.replacer_ pool_all_pinned))) ∧
  (is_Some (BPM.page_table_ pool_all_pinned !! 0) ∧
   (BPM.FetchPgImp 0 pool_all_pinned).1 ≠ None).
Proof.
  assert (H1 : BPM.page_table_ pool_all_pinned !! 5 = None) by reflexivity.
  assert (H2 : is_Some (BPM.page_table_ pool_all_pinned !! 0)) by (eexists; reflexivity).
  split; (split; [assumption|]).
  - exact (proj1 (FetchPgImp_null_iff pool_all_pinned 5) H1).
  - exact (proj2 (FetchPgImp_null_iff pool_all_pinned 0) H2).
Defined.

Lemma frame_upd_frame_eq (b : BPM.t) f g :
  (f < length (BPM.pages_ b))%nat → BPM.frame (BPM.upd_frame f g b) f = g (BPM.frame b f).
Proof.
  intros Hf. unfold BPM.frame, BPM.upd_frame. simpl.
  by rewrite list_lookup_insert_eq.
Qed.

Lemma frame_upd_frame_ne (b : BPM.t) f f' g :
  f ≠ f' → BPM.frame (BPM.upd_frame f g b) f' = BPM.frame b f'.
Proof.
  intros Hf. unfold BPM.frame, BPM.upd_frame. simpl.
  by rewrite list_lookup_insert_ne.
Qed.

Lemma length_upd_frame (b : BPM.t) f g :
  length (BPM.pages_ (BPM.upd_frame f g b)) = length (BPM.pages_ b).
Proof. unfold BPM.upd_frame. simpl. apply length_insert. Qed.

Lemma frame_set_page_table (b : BPM.t) x f : BPM.frame (BPM.set_page_table x b) f = BPM.frame b f.
Proof. done. Qed.
Lemma frame_set_replacer (b : BPM.t) x f : BPM.frame (BPM.set_replacer x b) f = BPM.frame b f.
Proof. done. Qed.
Lemma frame_set_free_list (b : BPM.t) x f : BPM.frame (BPM.set_free_list x b) f = BPM.frame b f.
Proof. done. Qed.
Lemma frame_set_next_page_id (b : BPM.t) x f : BPM.frame (BPM.set_next_page_id x b) f = BPM.frame b f.
Proof. done. Qed.
Lemma frame_set_disk_manager (b : BPM.t) x f : BPM.frame (BPM.set_disk_manager x b) f = BPM.frame b f.
Proof. done. Qed.
Lemma frame_emit (b : BPM.t) e f : BPM.frame (BPM.emit e b) f = BPM.frame b f.
Proof. done. Qed.
Lemma frame_WritePage (b : BPM.t) p d f : BPM.frame (BPM.WritePage p d b) f = BPM.frame b f.
Proof. done. Qed.
Lemma frame_DeallocatePage (b : BPM.t) p f : BPM.frame (BPM.DeallocatePage p b) f = BPM.frame b f.
Proof. done. Qed.
Lemma frame_ResetMemory_eq (b : BPM.t) f :
  (f < length (BPM.pages_ b))%nat →
  BPM.frame (BPM.ResetMemory f b) f = Page.ResetMemory (BPM.frame b f).
Proof. intros. unfold BPM.ResetMemory. by rewrite frame_emit, frame_upd_frame_eq. Qed.
Lemma frame_ResetMemory_ne (b : BPM.t) f f' :
  f ≠ f' → BPM.frame (BPM.ResetMemory f b) f' = BPM.frame b f'.
Proof. intros. unfold BPM.ResetMemory. by rewrite frame_emit, frame_upd_frame_ne. Qed.
Lemma length_ResetMemory (b : BPM.t) f :
  length (BPM.pages_ (BPM.ResetMemory f b)) = length (BPM.pages_ b).
Proof. unfold BPM.ResetMemory. simpl. apply length_insert. Qed.

Lemma frame_ReadPage_eq (b : BPM.t) pid f :
  (f < length (BPM.pages_ b))%nat →
  BPM.frame (BPM.ReadPage pid f b) f =
    Page.set_data (default zero_data (BPM.disk_manager_ b !! pid)) (BPM.frame b f).
Proof. intros. unfold BPM.ReadPage. by rewrite frame_emit, frame_upd_frame_eq. Qed.

Lemma frame_ReadPage_ne (b : BPM.t) pid f g :
  f ≠ g → BPM.frame (BPM.ReadPage pid f b) g = BPM.frame b g.
Proof. intros. unfold BPM.ReadPage. by rewrite frame_emit, frame_upd_frame_ne. Qed.

Lemma length_ReadPage (b : BPM.t) pid f :
  length (BPM.pages_ (BPM.ReadPage pid f b)) = length (BPM.pages_ b).
Proof. unfold BPM.ReadPage. simpl. apply length_insert. Qed.

Lemma pages_set_page_table (b : BPM.t) x : BPM.pages_ (BPM.set_page_table x b) = BPM.pages_ b.
Proof. done. Qed.
Lemma pages_set_replacer (b : BPM.t) x : BPM.pages_ (BPM.set_replacer x b) = BPM.pages_ b.
Proof. done. Qed.
Lemma pages_set_free_list (b : BPM.t) x : BPM.pages_ (BPM.set_free_list x b) = BPM.pages_ b.
Proof. done. Qed.
Lemma pages_set_next_page_id (b : BPM.t) x : BPM.pages_ (BPM.set_next_page_id x b) = BPM.pages_ b.
Proof. done. Qed.
Lemma pages_WritePage (b : BPM.t) p d : BPM.pages_ (BPM.WritePage p d b) = BPM.pages_ b.
Proof. done. Qed.

Ltac frame_len :=
  repeat first [rewrite length_upd_frame | rewrite length_ResetMemory | rewrite length_ReadPage
               | rewrite pages_set_page_table | rewrite pages_set_replacer
               | rewrite pages_set_free_list | rewrite pages_set_next_page_id
               | rewrite pages_WritePage];
  done.

Create Rewrite HintDb frames.
#[global] Hint Rewrite frame_set_page_table frame_set_replacer frame_set_free_list
  frame_set_next_page_id frame_set_disk_manager frame_emit frame_WritePage
  frame_DeallocatePage : frames.
#[global] Hint Rewrite frame_upd_frame_eq frame_ResetMemory_eq frame_ReadPage_eq
  using frame_len : frames.
#[global] Hint Rewrite frame_upd_frame_ne frame_ResetMemory_ne frame_ReadPage_ne
  using done : frames.
#[global] Hint Rewrite length_upd_frame length_ResetMemory length_ReadPage : frames.

(** C9.  [DeletePgImp] returns true and does nothing when the page is not
    resident; returns false and changes nothing when the page is resident
    and pinned; and otherwise removes the page-table entry, drops the
    frame's replacer state, clears the frame (zero memory, invalid page id,
    clean, unpinned), appends the frame to the free list, deallocates the
    id, leaves every other frame as it was and returns true. *)
Theorem DeletePgImp_cases (b : BPM.t) (page_id : Z) :
  (BPM.page_table_ b !! page_id = None → BPM.DeletePgImp page_id b = (true, b)) ∧
  (∀ f, BPM.page_table_ b !! page_id = Some f →
        0 < Page.pin_count_ (BPM.frame b f) →
        BPM.DeletePgImp page_id b = (false, b)) ∧
  (∀ f, BPM.page_table_ b !! page_id = Some f →
        Page.pin_count_ (BPM.frame b f) ≤ 0 →
        (f < length (BPM.pages_ b))%nat →
        (BPM.DeletePgImp page_id b).1 = true ∧
        BPM.page_table_ (BPM.DeletePgImp page_id b).2 = delete page_id (BPM.page_table_ b) ∧
        LRUKReplacer.node_store_ (BPM.replacer_ (BPM.DeletePgImp page_id b).2) !! f = None ∧
        BPM.frame (BPM.DeletePgImp page_id b).2 f = Page.fresh ∧
        (∀ f', f' ≠ f → BPM.frame (BPM.DeletePgImp page_id b).2 f' = BPM.frame b f') ∧
        BPM.free_list_ (BPM.DeletePgImp page_id b).2 = BPM.free_list_ b ++ [f] ∧
        BPM.trace_ (BPM.DeletePgImp page_id b).2 =
          BPM.trace_ b ++ [EvResetMemory f; EvDeallocatePage page_id] ∧
        BPM.next_page_id_ (BPM.DeletePgImp page_id b).2 = BPM.next_page_id_ b ∧
        BPM.disk_manager_ (BPM.DeletePgImp page_id b).2 = BPM.disk_manager_ b).
Proof.
  unfold BPM.DeletePgImp. split; [|split].
  - by intros ->.
  - intros f -> Hpin. by rewrite (proj2 (Z.ltb_lt _ _) Hpin).
  - intros f -> Hpin Hf.
    rewrite (proj2 (Z.ltb_ge _ _) Hpin).
    cbn [fst snd].
    split; [done|]. split; [done|]. split; [apply lookup_delete_eq|].
    split; [|split; [|split; [|split; [|done]]]].
    + by autorewrite with frames.
    + intros f' Hne. by autorewrite with frames.
    + done.
    + simpl. by rewrite <- app_assoc.
Qed.

Lemma DeletePgImp_cases_witness :
  (BPM.page_table_ pool_all_pinned !! 5 = None ∧
   BPM.DeletePgImp 5 pool_all_pinned = (true, pool_all_pinned)) ∧
  (BPM.page_table_ pool_all_pinned !! 0 = Some 0%nat ∧
   0 < Page.pin_count_ (BPM.frame pool_all_pinned 0) ∧
   BPM.DeletePgImp 0 pool_all_pinned = (false, pool_all_pinned)) ∧
  (BPM.page_table_ pool_dirty_unpinned !! 0 = Some 0%nat ∧
   Page.pin_count_ (BPM.frame pool_dirty_unpinned 0) ≤ 0 ∧
   (0 < length (BPM.pages_ pool_dirty_unpinned))%nat ∧
   BPM.frame (BPM.DeletePgImp 0 pool_dirty_unpinned).2 0 = Page.fresh ∧
   BPM.free_list_ (BPM.DeletePgImp 0 pool_dirty_unpinned).2 = [0%nat]).
Proof.
  assert (H1 : BPM.page_table_ pool_all_pinned !! 5 = None) by reflexivity.
  assert (H2 : BPM.page_table_ pool_all_pinned !! 0 = Some 0%nat) by reflexivity.
  assert (H3 : 0 < Page.pin_count_ (BPM.frame pool_all_pinned 0)) by reflexivity.
  assert (H4 : BPM.page_table_ pool_dirty_unpinned !! 0 = Some 0%nat) by reflexivity.
  assert (H5 : Page.pin_count_ (BPM.frame pool_dirty_unpinned 0) ≤ 0) by (vm_compute; discriminate).
  assert (H6 : (0 < length (BPM.pages_ pool_dirty_unpinned))%nat) by (vm_compute; lia).
  split; [|split].
  - split; [exact H1|]. exact (proj1 (DeletePgImp_cases pool_all_pinned 5) H1).
  - split; [exact H2|]. split; [exact H3|].
    exact (proj1 (proj2 (DeletePgImp_cases pool_all_pinned 0)) _ H2 H3).
  - split; [exact H4|]. split; [exact H5|]. split; [exact H6|].
    pose proof (proj2 (proj2 (DeletePgImp_cases pool_dirty_unpinned 0)) _ H4 H5 H6)
      as (_ & _ & _ & Hfr & _ & Hfl & _).
    split; [exact Hfr|exact Hfl].
Defined.

(** C8.  When [NewPgImp] or [FetchPgImp] has to evict and the victim frame
    holds a dirty page, the page's contents are written to the disk before
    the frame's memory is reset (and, for a fetch, before the requested
    block is read into it): the write is the first effect of the call, and
    the disk holds the victim's contents afterwards. *)
Theorem dirty_victim_written_before_reuse (b : BPM.t) (page_id : Z) f r :
  BPM.free_list_ b = [] →
  LRUKReplacer.Evict (BPM.replacer_ b) = (Some f, r) →
  Page.is_dirty_ (BPM.frame b f) = true →
  ((BPM.NewPgImp b).1.1 = Some f ∧
   BPM.trace_ (BPM.NewPgImp b).2 =
     BPM.trace_ b ++ [EvWritePage (Page.page_id_ (BPM.frame b f)) (Page.data_ (BPM.frame b f));
                      EvResetMemory f] ∧
   BPM.disk_manager_ (BPM.NewPgImp b).2 !! Page.page_id_ (BPM.frame b f) =
     Some (Page.data_ (BPM.frame b f))) ∧
  (BPM.page_table_ b !! page_id = None →
   (BPM.FetchPgImp page_id b).1 = Some f ∧
   BPM.trace_ (BPM.FetchPgImp page_id b).2 =
     BPM.trace_ b ++ [EvWritePage (Page.page_id_ (BPM.frame b f)) (Page.data_ (BPM.frame b f));
                      EvResetMemory f; EvReadPage page_id] ∧
   BPM.disk_manager_ (BPM.FetchPgImp page_id b).2 !! Page.page_id_ (BPM.frame b f) =
     Some (Page.data_ (BPM.frame b f))).
Proof.
  intros Hfree Hev Hdirty. split.
  - unfold BPM.NewPgImp, BPM.AllocatePage. simpl. rewrite Hfree. simpl. rewrite Hev.
    change (BPM.frame (BPM.set_replacer r (BPM.set_next_page_id
              (wrap_page_id (BPM.next_page_id_ b + 1)) b)) f)
      with (BPM.frame b f).
    rewrite Hdirty. simpl. split; [done|]. split.
    + by rewrite <- app_assoc.
    + apply lookup_insert_eq.
  - intros Hmiss. unfold BPM.FetchPgImp. rewrite Hmiss, Hfree. simpl. rewrite Hev.
    change (BPM.frame (BPM.set_replacer r b) f) with (BPM.frame b f).
    rewrite Hdirty. simpl. split; [done|]. split.
    + by rewrite <- !app_assoc.
    + apply lookup_insert_eq.
Qed.

Lemma dirty_victim_written_before_reuse_witness :
  BPM.free_list_ pool_dirty_unpinned = [] ∧
  Page.is_dirty_ (BPM.frame pool_dirty_unpinned 0) = true ∧
  (BPM.NewPgImp pool_dirty_unpinned).1.1 = Some 0%nat ∧
  BPM.trace_ (BPM.NewPgImp pool_dirty_unpinned).2 =
    [EvResetMemory 0; EvWritePage 0 (HeaderData [("idx"%string, 7)]); EvResetMemory 0] ∧
  BPM.trace_ (BPM.FetchPgImp 3 pool_dirty_unpinned).2 =
    [EvResetMemory 0; EvWritePage 0 (HeaderData [("idx"%string, 7)]); EvResetMemory 0;
     EvReadPage 3].
Proof.
  assert (H1 : BPM.free_list_ pool_dirty_unpinned = []) by reflexivity.
  assert (H2 : LRUKReplacer.Evict (BPM.replacer_ pool_dirty_unpinned) =
               (Some 0%nat, (LRUKReplacer.Evict (BPM.replacer_ pool_dirty_unpinned)).2))
    by reflexivity.
  assert (H3 : Page.is_dirty_ (BPM.frame pool_dirty_unpinned 0) = true) by reflexivity.
  assert (H4 : BPM.page_table_ pool_dirty_unpinned !! 3 = None) by reflexivity.
  destruct (dirty_victim_written_before_reuse pool_dirty_unpinned 3 _ _ H1 H2 H3)
    as [(Hn1 & Hn2 & _) Hf].
  destruct (Hf H4) as (_ & Hf2 & _).
  split; [exact H1|]. split; [exact H3|]. split; [exact Hn1|].
  split; [exact Hn2|exact Hf2].
Defined.

(** ** Remove on a root leaf *)

(** C6.  The tree [tree_single] has a root leaf holding exactly the key 20.
    [Remove(20)] deletes the entry and returns at the [IsRootPage] test:
    the root page id is left as it was, so [IsEmpty] still answers false
    although the root leaf has no entry left. *)
Theorem Remove_only_key_leaves_tree_nonempty :
  BPlusTreePage.IsLeafPage (node_of tree_single (BPlusTree.root_page_id_ tree_single)) = true ∧
  live (BPlusTreePage.size_ (node_of tree_single 1)) (BPlusTreePage.array_ (node_of tree_single 1))
    = [(20, 200)] ∧
  BPlusTree.value_of (BPlusTree.Remove 8 20 tree_single) = Some BPlusTree.Removed_FromRootLeaf ∧
  BPlusTree.IsEmpty (exec (BPlusTree.Remove 8 20) tree_single) = false ∧
  BPlusTree.root_page_id_ (exec (BPlusTree.Remove 8 20) tree_single) = 1 ∧
  BPlusTreePage.size_ (node_of (exec (BPlusTree.Remove 8 20) tree_single) 1) = 0.
Proof. vm_compute. repeat split. Qed.

(** C4.  [Remove] does not release the leaf that [FindLeafPage] pinned when
    it returns early: after [Remove] of an absent key, and after [Remove]
    of a key of the root leaf, the leaf's page keeps a pin count of 1,
    where it was 0 before the call.  [GetValue] on the same tree releases
    the leaf. *)
Theorem Remove_early_return_leaks_pin :
  pin_count_of (BPlusTree.buffer_pool_manager_ tree_single) 1 = 0 ∧
  BPlusTree.value_of (BPlusTree.Remove 8 99 tree_single) = Some BPlusTree.RemovedNothing_KeyAbsent ∧
  pin_count_of (BPlusTree.buffer_pool_manager_ (exec (BPlusTree.Remove 8 99) tree_single)) 1 = 1 ∧
  BPlusTree.value_of (BPlusTree.Remove 8 20 tree_single) = Some BPlusTree.Removed_FromRootLeaf ∧
  pin_count_of (BPlusTree.buffer_pool_manager_ (exec (BPlusTree.Remove 8 20) tree_single)) 1 = 1 ∧
  BPlusTree.value_of (BPlusTree.GetValue 8 99 [] tree_single) = Some (false, []) ∧
  pin_count_of (BPlusTree.buffer_pool_manager_ (exec (BPlusTree.GetValue 8 99 []) tree_single)) 1 = 0.
Proof. vm_compute. repeat split. Qed.

(** ** Rebalancing after Remove *)


(** ** Reasoning about runs of the tree's member functions *)

Import BPlusTree.

Lemma run_bind {A B} (c : M A) (f : A → M B) (tr : t) :
  (c ≫= f) tr =
  match c tr with
  | Done a tr' => f a tr'
  | NullDeref => NullDeref
  | OutOfFuel => OutOfFuel
  end.
Proof. reflexivity. Qed.

Lemma bind_Done {A B} (c : M A) (f : A → M B) (tr tr' : t) (b : B) :
  (c ≫= f) tr = Done b tr' ↔ ∃ a tr1, c tr = Done a tr1 ∧ f a tr1 = Done b tr'.
Proof.
  rewrite run_bind. split.
  - destruct (c tr) as [a tr1| |]; [|done|done]. intros H. by exists a, tr1.
  - intros (a & tr1 & -> & H). done.
Qed.


Lemma run_get (tr : t) : get tr = Done tr tr.
Proof. reflexivity. Qed.

Lemma run_load (p : nat) (tr : t) : load p tr = Done (node_at tr p) tr.
Proof. reflexivity. Qed.

Lemma run_store (p : nat) g (tr : t) : store p g tr = Done () (poke p g tr).
Proof. reflexivity. Qed.

(** Splits a hypothesis [(c ≫= f) tr = Done b tr'] into the run of [c] and
    the run of the continuation. *)
Ltac inv_bind H :=
  let a := fresh "a" in
  let tr1 := fresh "tr" in
  let H1 := fresh H in
  apply bind_Done in H; destruct H as (a & tr1 & H1 & H).





(** ** Search *)

Lemma comparator_1 (a b : Z) : comparator_ a b = 1 ↔ b < a.
Proof. unfold comparator_. destruct (Z.compare_spec a b); split; (lia || done). Qed.

Lemma comparator_0 (a b : Z) : comparator_ a b = 0 ↔ a = b.
Proof. unfold comparator_. destruct (Z.compare_spec a b); split; (lia || done). Qed.

Lemma comparator_m1 (a b : Z) : comparator_ a b = -1 ↔ a < b.
Proof. unfold comparator_. destruct (Z.compare_spec a b); split; (lia || done). Qed.

Lemma length_range (a b : Z) : length (range a b) = Z.to_nat (b - a).
Proof. unfold range. by rewrite length_map, length_seq. Qed.

Lemma lookup_range (a b : Z) (k : nat) (x : Z) :
  range a b !! k = Some x ↔ x = a + Z.of_nat k ∧ (k < Z.to_nat (b - a))%nat.
Proof.
  unfold range. rewrite list_lookup_fmap. split.
  - destruct (seq 0 (Z.to_nat (b - a)) !! k) as [y|] eqn:Hy; simpl; [|done].
    apply lookup_seq in Hy as [-> Hk]. intros [= <-]. split; [done|lia].
  - intros [-> Hk]. by rewrite lookup_seq_lt.
Qed.

Lemma elem_of_range (a b x : Z) : x ∈ range a b ↔ a ≤ x < b.
Proof.
  rewrite list_elem_of_lookup. split.
  - intros [k [-> Hk]%lookup_range]. lia.
  - intros Hx. exists (Z.to_nat (x - a)). apply lookup_range. lia.
Qed.

(** The child chosen by the lambda of [FindLeafPage] is the one the
    specification names. *)
Lemma next_page_id_of_largest_index_le (n : BPlusTreePage.t) (key : Z) :
  0 ≤ BPlusTreePage.size_ n → keys_sorted n →
  ∃ i, largest_index_le n key i ∧
       next_page_id_of n key = BPlusTreeInternalPage.ValueAt n i.
Proof.
  intros Hsz Hsorted. unfold next_page_id_of, BPlusTreePage.GetSize.
  destruct (list_find _ _) as [[k i]|] eqn:Hfind.
  - apply list_find_Some in Hfind as (Hk & Hgt & Hbefore).
    apply lookup_range in Hk as [-> Hk]. apply comparator_1 in Hgt.
    exists (1 + Z.of_nat k - 1). split; [|done].
    split; [lia|]. split.
    + destruct k as [|k]; [left; lia|right].
      assert (Hle : ¬ comparator_ (BPlusTreeInternalPage.KeyAt n (1 + Z.of_nat k)) key = 1).
      { apply (Hbefore k); [|lia]. apply lookup_range. lia. }
      rewrite comparator_1 in Hle.
      replace (1 + Z.of_nat (S k) - 1) with (1 + Z.of_nat k) by lia. lia.
    + intros j Hj1 Hj2.
      pose proof (Hsorted (1 + Z.of_nat k) j). lia.
  - apply list_find_None in Hfind. rewrite Forall_forall in Hfind.
    exists (BPlusTreePage.size_ n). split; [|done].
    split; [lia|]. split; [|lia].
    destruct (decide (BPlusTreePage.size_ n = 0)) as [|Hne]; [by left|right].
    assert (Hin : BPlusTreePage.size_ n ∈ range 1 (BPlusTreePage.size_ n + 1))
      by (apply elem_of_range; lia).
    apply Hfind in Hin. rewrite comparator_1 in Hin. lia.
Qed.



Lemma lookup_live (n : Z) (a : list (Z * Z)) (i : Z) :
  0 ≤ i < n → live n a !! Z.to_nat i = Some (slot a i).
Proof.
  intros Hi. unfold live. rewrite list_lookup_fmap.
  replace (range 0 n !! Z.to_nat i) with (Some i); [done|].
  symmetry. apply lookup_range. lia.
Qed.

Lemma elem_of_live (n : Z) (a : list (Z * Z)) (e : Z * Z) :
  e ∈ live n a ↔ ∃ i, 0 ≤ i < n ∧ e = slot a i.
Proof.
  unfold live. rewrite list_elem_of_fmap. split.
  - intros (i & -> & Hi%elem_of_range). by exists i.
  - intros (i & Hi & ->). exists i. split; [done|]. by apply elem_of_range.
Qed.

Lemma run_pool {A} (f : BPM.t → A * BPM.t) (tr : t) :
  pool f tr = Done (f (buffer_pool_manager_ tr)).1
                (set_buffer_pool_manager (f (buffer_pool_manager_ tr)).2 tr).
Proof. unfold pool. by destruct (f (buffer_pool_manager_ tr)). Qed.

Lemma run_UnpinPage (page_id : Z) (is_dirty : bool) (tr : t) :
  UnpinPage page_id is_dirty tr =
  Done () (set_buffer_pool_manager
             (BPM.UnpinPgImp page_id is_dirty (buffer_pool_manager_ tr)).2 tr).
Proof. unfold UnpinPage. by rewrite run_bind, run_pool. Qed.

Lemma exec_UnpinPage (page_id : Z) (is_dirty : bool) (tr : t) :
  UnpinPage page_id is_dirty tr = Done () (exec (UnpinPage page_id is_dirty) tr).
Proof. unfold exec. by rewrite run_UnpinPage. Qed.

(** What [GetValue] does once [FindLeafPage] has reached a leaf. *)
Lemma GetValue_at_leaf (fuel : nat) (key : Z) (result : list Z) (tr tr1 : t) (leaf : nat) :
  IsEmpty tr = false →
  FindLeafPage fuel key tr = Done leaf tr1 →
  ∃ r, GetValue fuel key result tr =
         Done r (exec (UnpinPage (BPlusTreePage.GetPageId (node_at tr1 leaf)) false) tr1) ∧
       ((∃ v, r = (true, result ++ [v]) ∧ (key, v) ∈ entries (node_at tr1 leaf)) ∨
        (r = (false, result) ∧ ∀ v, (key, v) ∉ entries (node_at tr1 leaf))).
Proof.
  intros Hne Hfind. unfold GetValue.
  rewrite run_bind, run_get, Hne, run_bind, Hfind, run_bind, run_load.
  set (n := node_at tr1 leaf).
  destruct (list_find _ _) as [[k i]|] eqn:Hf.
  - apply list_find_Some in Hf as (Hk & Heq & _).
    apply lookup_range in Hk as [-> Hk]. apply (proj1 (comparator_0 _ _)) in Heq.
    rewrite run_bind, exec_UnpinPage.
    eexists. split; [reflexivity|]. left. eexists. split; [reflexivity|].
    apply elem_of_live. exists (0 + Z.of_nat k).
    unfold BPlusTreePage.GetSize in Hk. split; [lia|].
    unfold BPlusTreeLeafPage.KeyAt, BPlusTreeLeafPage.ValueAt in *.
    destruct (slot (BPlusTreePage.array_ n) (0 + Z.of_nat k)) as [k0 v0]. simpl in *. by subst.
  - apply list_find_None in Hf. rewrite Forall_forall in Hf.
    rewrite run_bind, exec_UnpinPage.
    eexists. split; [reflexivity|]. right. split; [done|].
    intros v (i & Hi & Hs)%elem_of_live.
    apply (Hf i); [apply elem_of_range; done|].
    apply comparator_0. unfold BPlusTreeLeafPage.KeyAt. by rewrite <- Hs.
Qed.


(** ** The pool keeps its invariants *)

Lemma frame_eq_pages (b b' : BPM.t) f :
  BPM.pages_ b' = BPM.pages_ b → BPM.frame b' f = BPM.frame b f.
Proof. unfold BPM.frame. by intros ->. Qed.

Lemma frame_insert_eq (b b' : BPM.t) f pg :
  BPM.pages_ b' = <[f := pg]> (BPM.pages_ b) → (f < length (BPM.pages_ b))%nat →
  BPM.frame b' f = pg.
Proof. unfold BPM.frame. intros -> Hf. by rewrite list_lookup_insert_eq. Qed.

Lemma frame_insert_ne (b b' : BPM.t) f g pg :
  BPM.pages_ b' = <[f := pg]> (BPM.pages_ b) → f ≠ g →
  BPM.frame b' g = BPM.frame b g.
Proof. unfold BPM.frame. intros -> Hf. by rewrite list_lookup_insert_ne. Qed.

Lemma RecordAccess_lookup_ne (r : LRUKReplacer.t) f g :
  f ≠ g →
  LRUKReplacer.node_store_ (LRUKReplacer.RecordAccess f r) !! g = LRUKReplacer.node_store_ r !! g.
Proof. intros. unfold LRUKReplacer.RecordAccess. simpl. by rewrite lookup_insert_ne. Qed.

Lemma RecordAccess_lookup_eq (r : LRUKReplacer.t) f :
  ∃ h, LRUKReplacer.node_store_ (LRUKReplacer.RecordAccess f r) !! f =
       Some (LRUKReplacer.mk_entry h
               (LRUKReplacer.evictable_
                  (default (LRUKReplacer.mk_entry [] false) (LRUKReplacer.node_store_ r !! f)))).
Proof. eexists. unfold LRUKReplacer.RecordAccess. simpl. by rewrite lookup_insert_eq. Qed.

Lemma SetEvictable_lookup_ne (r : LRUKReplacer.t) f g v :
  f ≠ g →
  LRUKReplacer.node_store_ (LRUKReplacer.SetEvictable f v r) !! g = LRUKReplacer.node_store_ r !! g.
Proof.
  intros. unfold LRUKReplacer.SetEvictable.
  destruct (LRUKReplacer.node_store_ r !! f); [|done]. simpl. by rewrite lookup_insert_ne.
Qed.

Lemma SetEvictable_lookup_eq (r : LRUKReplacer.t) f v e :
  LRUKReplacer.node_store_ r !! f = Some e →
  LRUKReplacer.node_store_ (LRUKReplacer.SetEvictable f v r) !! f =
    Some (LRUKReplacer.mk_entry (LRUKReplacer.history_ e) v).
Proof.
  intros H. unfold LRUKReplacer.SetEvictable. rewrite H. simpl. by rewrite lookup_insert_eq.
Qed.

(** After a fetch the frame is tracked and not evictable. *)
Lemma touch_lookup_eq (r : LRUKReplacer.t) f :
  ∃ h, LRUKReplacer.node_store_
         (LRUKReplacer.SetEvictable f false (LRUKReplacer.RecordAccess f r)) !! f =
       Some (LRUKReplacer.mk_entry h false).
Proof.
  destruct (RecordAccess_lookup_eq r f) as [h Hh].
  exists h. by rewrite (SetEvictable_lookup_eq _ _ _ _ Hh).
Qed.

Lemma touch_lookup_ne (r : LRUKReplacer.t) f g :
  f ≠ g →
  LRUKReplacer.node_store_
    (LRUKReplacer.SetEvictable f false (LRUKReplacer.RecordAccess f r)) !! g =
  LRUKReplacer.node_store_ r !! g.
Proof. intros. by rewrite SetEvictable_lookup_ne, RecordAccess_lookup_ne. Qed.

Lemma table_frame_inj (spare : list nat) (b : BPM.t) pid pid' f :
  pool_wf' spare b →
  BPM.page_table_ b !! pid = Some f → BPM.page_table_ b !! pid' = Some f → pid = pid'.
Proof.
  intros Hwf H1 H2.
  destruct (wf_table _ _ Hwf _ _ H1) as (_ & <- & _).
  by destruct (wf_table _ _ Hwf _ _ H2) as (_ & <- & _).
Qed.

Lemma acquire_frame_spec (b b1 : BPM.t) (f : nat) :
  pool_wf b → acquire_frame b = Some (f, b1) →
  pool_wf' [f] b1 ∧
  BPM.pages_ b1 = BPM.pages_ b ∧
  BPM.next_page_id_ b1 = BPM.next_page_id_ b ∧
  (∀ pid, page_data b1 pid = page_data b pid) ∧
  (∀ pid, pin_count_of b1 pid = pin_count_of b pid) ∧
  pinned_stay b b1 ∧
  (∀ pid g, BPM.page_table_ b1 !! pid = Some g → BPM.page_table_ b !! pid = Some g).
Proof.
  intros Hwf. unfold acquire_frame.
  destruct (last (BPM.free_list_ b)) as [f0|] eqn:Hlast.
  - (* a free frame *)
    intros [= <- <-].
    apply last_Some in Hlast as [l' Hl'].
    assert (Hrm : removelast (BPM.free_list_ b) = l')
      by (rewrite Hl'; apply removelast_last).
    rewrite Hrm.
    pose proof (wf_free_nodup _ _ Hwf) as Hnd. rewrite Hl' in Hnd.
    apply NoDup_app in Hnd as (Hnd1 & Hnd2 & _).
    assert (Hf0 : f0 ∈ BPM.free_list_ b) by (rewrite Hl'; set_solver).
    destruct (wf_free _ _ Hwf _ Hf0) as (Hlen & _ & Hnot).
    split; [|repeat split; try done; by intros ? ? ? ?].
    constructor; simpl.
    + intros pid f Hpid. destruct (wf_table _ _ Hwf _ _ Hpid) as (? & ? & ? & ? & ? & ?).
      repeat split; try done.
      intros ->%list_elem_of_singleton. by eapply Hnot.
    + intros f Hf. assert (Hf' : f ∈ BPM.free_list_ b) by (rewrite Hl'; set_solver).
      destruct (wf_free _ _ Hwf _ Hf') as (? & _ & ?). repeat split; try done.
      intros ->%list_elem_of_singleton. apply (Hnd2 f0); [done|set_solver].
    + done.
    + apply (wf_replacer _ _ Hwf).
    + apply (wf_clean _ _ Hwf).
    + by intros f ->%list_elem_of_singleton.
  - (* a victim *)
    apply last_None in Hlast.
    destruct (LRUKReplacer.Evict (BPM.replacer_ b)) as [[f0|] r] eqn:Hev; [|done].
    apply Evict_Some in Hev as [(e & He & Hevict) ->].
    change (BPM.frame (BPM.set_replacer (LRUKReplacer.Remove f0 (BPM.replacer_ b)) b) f0)
      with (BPM.frame b f0).
    destruct (wf_replacer _ _ Hwf _ _ He) as [Hres Hpin0]. specialize (Hpin0 Hevict).
    destruct (wf_table _ _ Hwf _ _ Hres) as (Hlen & _ & _ & _ & _ & _).
    set (vp := Page.page_id_ (BPM.frame b f0)) in *.
    intros [= <- <-].
    set (b0 := if Page.is_dirty_ (BPM.frame b f0)
               then BPM.WritePage vp (Page.data_ (BPM.frame b f0))
                      (BPM.set_replacer (LRUKReplacer.Remove f0 (BPM.replacer_ b)) b)
               else BPM.set_replacer (LRUKReplacer.Remove f0 (BPM.replacer_ b)) b).
    assert (Hpages : BPM.pages_ b0 = BPM.pages_ b) by (unfold b0; by destruct (Page.is_dirty_ _)).
    assert (Htable : BPM.page_table_ b0 = BPM.page_table_ b)
      by (unfold b0; by destruct (Page.is_dirty_ _)).
    assert (Hnext : BPM.next_page_id_ b0 = BPM.next_page_id_ b)
      by (unfold b0; by destruct (Page.is_dirty_ _)).
    assert (Hfree : BPM.free_list_ b0 = BPM.free_list_ b)
      by (unfold b0; by destruct (Page.is_dirty_ _)).
    assert (Hrepl : BPM.replacer_ b0 = LRUKReplacer.Remove f0 (BPM.replacer_ b))
      by (unfold b0; by destruct (Page.is_dirty_ _)).
    assert (Hdisk : ∀ pid, pid ≠ vp → BPM.disk_manager_ b0 !! pid = BPM.disk_manager_ b !! pid).
    { intros pid Hne. unfold b0. destruct (Page.is_dirty_ _); [|done].
      simpl. by rewrite lookup_insert_ne. }
    assert (Hdiskvp : default zero_data (BPM.disk_manager_ b0 !! vp) = Page.data_ (BPM.frame b f0)).
    { unfold b0. destruct (Page.is_dirty_ (BPM.frame b f0)) eqn:Hd.
      - simpl. by rewrite lookup_insert_eq.
      - simpl. symmetry. by apply (wf_clean _ _ Hwf). }
    set (b1 := BPM.set_page_table (delete vp (BPM.page_table_ b0)) b0).
    assert (Hfr : ∀ g, BPM.frame b1 g = BPM.frame b g)
      by (intros g; by apply frame_eq_pages).
    assert (Hpages1 : BPM.pages_ b1 = BPM.pages_ b) by done.
    assert (Htable1 : BPM.page_table_ b1 = delete vp (BPM.page_table_ b))
      by (unfold b1; simpl; by rewrite Htable).
    assert (Hnext1 : BPM.next_page_id_ b1 = BPM.next_page_id_ b) by done.
    assert (Hfree1 : BPM.free_list_ b1 = []) by (unfold b1; simpl; congruence).
    assert (Hrepl1 : LRUKReplacer.node_store_ (BPM.replacer_ b1) =
                     delete f0 (LRUKReplacer.node_store_ (BPM.replacer_ b)))
      by (unfold b1; simpl; by rewrite Hrepl).
    assert (Hdisk1 : ∀ pid, pid ≠ vp → BPM.disk_manager_ b1 !! pid = BPM.disk_manager_ b !! pid)
      by done.
    assert (Hdiskvp1 : default zero_data (BPM.disk_manager_ b1 !! vp) = Page.data_ (BPM.frame b f0))
      by done.
    clearbody b1. clear b0 Hpages Htable Hnext Hfree Hrepl Hdisk Hdiskvp.
    assert (Htb : ∀ pid g, BPM.page_table_ b !! pid = Some g → pid ≠ vp → g ≠ f0).
    { intros pid g Hpid Hne ->. apply Hne. by eapply table_frame_inj. }
    split; [|split; [done|split; [done|split; [|split; [|split]]]]].
    + constructor.
      * intros pid f. rewrite Htable1, Hfr, Hpages1, Hnext1, Hrepl1.
        intros [Hne Hpid]%lookup_delete_Some.
        destruct (wf_table _ _ Hwf _ _ Hpid) as (? & ? & ? & ? & ? & e' & ? & ?).
        repeat split; try done.
        -- intros ->%list_elem_of_singleton. by eapply Htb.
        -- exists e'. rewrite lookup_delete_ne; [done|]. intros <-. by eapply Htb.
      * rewrite Hfree1. intros f Hf. by apply elem_of_nil in Hf.
      * rewrite Hfree1. constructor.
      * intros f e'. rewrite Hrepl1, Htable1, Hfr.
        intros [Hne He']%lookup_delete_Some.
        destruct (wf_replacer _ _ Hwf _ _ He') as [Hres' Hp']. split; [|done].
        rewrite lookup_delete_ne; [done|].
        intros Heq. rewrite <- Heq in Hres'. congruence.
      * intros pid f. rewrite Htable1, Hfr.
        intros [Hne Hpid]%lookup_delete_Some. rewrite Hdisk1 by done.
        by apply (wf_clean _ _ Hwf).
      * intros f ->%list_elem_of_singleton. by rewrite Hpages1.
    + intros pid. unfold page_data. rewrite Htable1.
      destruct (decide (pid = vp)) as [->|Hne].
      * by rewrite lookup_delete_eq, Hres.
      * rewrite lookup_delete_ne by done.
        destruct (BPM.page_table_ b !! pid) as [g|]; [by rewrite Hfr|by rewrite Hdisk1].
    + intros pid. unfold pin_count_of. rewrite Htable1.
      destruct (decide (pid = vp)) as [->|Hne].
      * by rewrite lookup_delete_eq, Hres.
      * rewrite lookup_delete_ne by done.
        destruct (BPM.page_table_ b !! pid) as [g|]; [by rewrite Hfr|done].
    + intros pid g Hpid Hpin. rewrite Htable1.
      rewrite lookup_delete_ne; [done|]. intros <-.
      rewrite Hres in Hpid. injection Hpid as <-. lia.
    + intros pid g. rewrite Htable1. by intros [_ ?]%lookup_delete_Some.
Qed.

(** Giving the spare frame [f] the page [pid], pinned once. *)
Lemma install_spec (b1 b2 : BPM.t) (f : nat) (pid : Z) (pg : Page.t) :
  pool_wf' [f] b1 →
  BPM.page_table_ b1 !! pid = None → pid < BPM.next_page_id_ b1 →
  Page.page_id_ pg = pid → Page.pin_count_ pg = 1 →
  length (BPM.pages_ b2) = length (BPM.pages_ b1) →
  BPM.frame b2 f = pg →
  (∀ g, f ≠ g → BPM.frame b2 g = BPM.frame b1 g) →
  BPM.page_table_ b2 = <[pid := f]> (BPM.page_table_ b1) →
  BPM.replacer_ b2 =
    LRUKReplacer.SetEvictable f false (LRUKReplacer.RecordAccess f (BPM.replacer_ b1)) →
  BPM.free_list_ b2 = BPM.free_list_ b1 →
  BPM.disk_manager_ b2 = BPM.disk_manager_ b1 →
  BPM.next_page_id_ b2 = BPM.next_page_id_ b1 →
  pool_wf b2 ∧
  (∀ q, page_data b2 q = if decide (q = pid) then Page.data_ pg else page_data b1 q) ∧
  (∀ q, pin_count_of b2 q = if decide (q = pid) then 1 else pin_count_of b1 q) ∧
  BPM.page_table_ b2 !! pid = Some f ∧
  (∀ q g, BPM.page_table_ b1 !! q = Some g → BPM.page_table_ b2 !! q = Some g).
Proof.
  intros Hwf Hnone Hlt Hpid Hpin Hpages Hff Hfg Htable Hrepl Hfree Hdisk Hnext.
  assert (Hlen : (f < length (BPM.pages_ b1))%nat)
    by (apply (wf_spare _ _ Hwf); by apply list_elem_of_singleton).
  assert (Hnf : ∀ q g, BPM.page_table_ b1 !! q = Some g → f ≠ g ∧ q ≠ pid).
  { intros q g Hq. destruct (wf_table _ _ Hwf _ _ Hq) as (_ & _ & Hsp & _).
    split; [|congruence]. intros ->. apply Hsp. by apply list_elem_of_singleton. }
  split; [|split; [|split; [|split]]].
  - constructor.
    + intros q g. rewrite Htable, Hpages, Hnext, Hrepl.
      intros [[<- <-]|[Hne Hq]]%lookup_insert_Some.
      * rewrite Hff. split_and!; try done; try lia.
        -- apply not_elem_of_nil.
        -- destruct (touch_lookup_eq (BPM.replacer_ b1) f) as [h Hh].
           eexists. split; [exact Hh|]. lia.
      * destruct (Hnf _ _ Hq) as [Hfg' _]. rewrite Hfg by done.
        destruct (wf_table _ _ Hwf _ _ Hq) as (? & ? & ? & ? & ? & e & ? & ?).
        split_and!; try done; [apply not_elem_of_nil|].
        exists e. by rewrite touch_lookup_ne.
    + intros g. rewrite Hfree, Hpages, Htable. intros Hg.
      destruct (wf_free _ _ Hwf _ Hg) as (? & Hsp & Hn).
      split_and!; try done; [apply not_elem_of_nil|].
      intros q [[_ <-]|[_ Hq]]%lookup_insert_Some.
      * apply Hsp. by apply list_elem_of_singleton.
      * by eapply Hn.
    + rewrite Hfree. apply (wf_free_nodup _ _ Hwf).
    + intros g e. rewrite Hrepl, Htable.
      destruct (decide (f = g)) as [<-|Hne].
      * rewrite Hff, Hpid, lookup_insert_eq.
        destruct (touch_lookup_eq (BPM.replacer_ b1) f) as [h ->].
        intros [= <-]. done.
      * rewrite touch_lookup_ne, Hfg by done. intros He.
        destruct (wf_replacer _ _ Hwf _ _ He) as [Hres Hp]. split; [|done].
        rewrite lookup_insert_ne; [done|]. intros Heq.
        destruct (Hnf _ _ Hres) as [_ Hq]. congruence.
    + intros q g. rewrite Htable, Hdisk.
      intros [[<- <-]|[Hne Hq]]%lookup_insert_Some.
      * rewrite Hff. lia.
      * destruct (Hnf _ _ Hq) as [Hfg' _]. rewrite Hfg by done.
        by apply (wf_clean _ _ Hwf).
    + intros g Hg. by apply elem_of_nil in Hg.
  - intros q. unfold page_data. rewrite Htable, Hdisk.
    destruct (decide (q = pid)) as [->|Hne].
    + by rewrite lookup_insert_eq, Hff.
    + rewrite lookup_insert_ne by done.
      destruct (BPM.page_table_ b1 !! q) as [g|] eqn:Hq; [|done].
      destruct (Hnf _ _ Hq) as [Hfg' _]. by rewrite Hfg.
  - intros q. unfold pin_count_of. rewrite Htable.
    destruct (decide (q = pid)) as [->|Hne].
    + by rewrite lookup_insert_eq, Hff.
    + rewrite lookup_insert_ne by done.
      destruct (BPM.page_table_ b1 !! q) as [g|] eqn:Hq; [|done].
      destruct (Hnf _ _ Hq) as [Hfg' _]. by rewrite Hfg.
  - rewrite Htable. apply lookup_insert_eq.
  - intros q g Hq. rewrite Htable. destruct (Hnf _ _ Hq). by rewrite lookup_insert_ne.
Qed.

Lemma pool_wf_set_next_page_id (b : BPM.t) (n : Z) :
  pool_wf b → BPM.next_page_id_ b ≤ n → pool_wf (BPM.set_next_page_id n b).
Proof.
  intros Hwf Hn. constructor; try apply Hwf.
  intros pid f Hpid. destruct (wf_table _ _ Hwf _ _ Hpid) as (? & ? & ? & ? & ? & ?).
  split_and!; try done. simpl. lia.
Qed.

Lemma NewPgImp_acquire (b : BPM.t) :
  BPM.NewPgImp b =
  match acquire_frame (BPM.set_next_page_id (wrap_page_id (BPM.next_page_id_ b + 1)) b) with
  | None => ((None, BPM.next_page_id_ b),
             BPM.set_next_page_id (wrap_page_id (BPM.next_page_id_ b + 1)) b)
  | Some (f, b1) =>
      ((Some f, BPM.next_page_id_ b),
       BPM.set_replacer
         (LRUKReplacer.SetEvictable f false (LRUKReplacer.RecordAccess f (BPM.replacer_ b1)))
         (BPM.set_page_table (<[BPM.next_page_id_ b := f]> (BPM.page_table_ b1))
            (BPM.ResetMemory f
               (BPM.upd_frame f (Page.set_pin_count 1)
                  (BPM.upd_frame f (Page.set_is_dirty false)
                     (BPM.upd_frame f (Page.set_page_id (BPM.next_page_id_ b)) b1))))))
  end.
Proof.
  unfold BPM.NewPgImp, BPM.AllocatePage, acquire_frame. cbn zeta.
  destruct (last _); [done|].
  destruct (LRUKReplacer.Evict _) as [[f|] r]; done.
Qed.

(** [NewPgImp] on a well-formed pool whose counter does not wrap: the new
    page is zero-filled, pinned once and resident in the returned frame; no
    other page changes. *)
Lemma NewPgImp_spec (b b' : BPM.t) (f : nat) (id : Z) :
  pool_wf b → can_allocate b → BPM.NewPgImp b = ((Some f, id), b') →
  id = BPM.next_page_id_ b ∧
  BPM.next_page_id_ b' = id + 1 ∧
  pool_wf b' ∧
  (∀ q, page_data b' q = if decide (q = id) then zero_data else page_data b q) ∧
  (∀ q, pin_count_of b' q = if decide (q = id) then 1 else pin_count_of b q) ∧
  BPM.page_table_ b' !! id = Some f ∧
  pinned_stay b b'.
Proof.
  intros Hwf Hcan. rewrite NewPgImp_acquire, (wrap_page_id_succ _ Hcan).
  set (b0 := BPM.set_next_page_id (BPM.next_page_id_ b + 1) b).
  assert (Hwf0 : pool_wf b0) by (apply pool_wf_set_next_page_id; [done|lia]).
  destruct (acquire_frame b0) as [[f0 b1]|] eqn:Hacq; [|done].
  intros [= <- <- <-].
  destruct (acquire_frame_spec _ _ _ Hwf0 Hacq)
    as (Hwf1 & Hpages & Hnext & Hdata & Hpins & Hstay & Hsub).
  assert (Hlen : (f0 < length (BPM.pages_ b1))%nat)
    by (apply (wf_spare _ _ Hwf1); by apply list_elem_of_singleton).
  assert (Hfresh : BPM.page_table_ b1 !! BPM.next_page_id_ b = None).
  { destruct (BPM.page_table_ b1 !! BPM.next_page_id_ b) as [g|] eqn:Hg; [|done].
    apply Hsub in Hg. destruct (wf_table _ _ Hwf _ _ Hg) as (_ & _ & _ & ? & _). lia. }
  match goal with |- context [pool_wf ?x] => set (b2 := x) end.
  assert (Hlt : BPM.next_page_id_ b < BPM.next_page_id_ b1) by (rewrite Hnext; simpl; lia).
  assert (Hlen2 : length (BPM.pages_ b2) = length (BPM.pages_ b1))
    by (unfold b2; simpl; by rewrite !length_insert).
  assert (Hff : BPM.frame b2 f0 = Page.mk zero_data (BPM.next_page_id_ b) 1 false)
    by (unfold b2; by autorewrite with frames).
  assert (Hfg : ∀ g, f0 ≠ g → BPM.frame b2 g = BPM.frame b1 g)
    by (intros g Hne; unfold b2; by autorewrite with frames).
  destruct (install_spec b1 b2 f0 (BPM.next_page_id_ b)
              (Page.mk zero_data (BPM.next_page_id_ b) 1 false) Hwf1 Hfresh Hlt eq_refl eq_refl
              Hlen2 Hff Hfg eq_refl eq_refl eq_refl eq_refl eq_refl)
    as (Hwf2 & Hdata2 & Hpins2 & Htab2 & Hsub2).
  split_and!; try done.
  - intros q. rewrite Hdata2. case_decide; [done|]. by rewrite Hdata.
  - intros q. rewrite Hpins2. case_decide; [done|]. by rewrite Hpins.
  - intros q g Hq Hpin. apply Hsub2. by apply Hstay.
Qed.

Lemma FetchPgImp_acquire (b : BPM.t) (pid : Z) :
  BPM.page_table_ b !! pid = None →
  BPM.FetchPgImp pid b =
  match acquire_frame b with
  | None => (None, b)
  | Some (f, b1) =>
      (Some f,
       BPM.set_replacer
         (LRUKReplacer.SetEvictable f false (LRUKReplacer.RecordAccess f (BPM.replacer_ b1)))
         (BPM.set_page_table (<[pid := f]> (BPM.page_table_ b1))
            (BPM.upd_frame f (Page.set_pin_count 1)
               (BPM.upd_frame f (Page.set_is_dirty false)
                  (BPM.upd_frame f (Page.set_page_id pid)
                     (BPM.ReadPage pid f (BPM.ResetMemory f b1)))))))
  end.
Proof.
  intros Hmiss. unfold BPM.FetchPgImp, acquire_frame. rewrite Hmiss. cbn zeta.
  destruct (last _); [done|].
  destruct (LRUKReplacer.Evict _) as [[f|] r]; done.
Qed.

(** [FetchPgImp] on a well-formed pool, for an allocated page id: the page
    is resident in the returned frame with one more pin; no page changes. *)
Lemma FetchPgImp_spec (b b' : BPM.t) (f : nat) (pid : Z) :
  pool_wf b → pid < BPM.next_page_id_ b →
  BPM.FetchPgImp pid b = (Some f, b') →
  pool_wf b' ∧
  BPM.next_page_id_ b' = BPM.next_page_id_ b ∧
  (∀ q, page_data b' q = page_data b q) ∧
  (∀ q, pin_count_of b' q = pin_count_of b q + if decide (q = pid) then 1 else 0) ∧
  BPM.page_table_ b' !! pid = Some f ∧
  pinned_stay b b' ∧
  unpin_safe b' pid.
Proof.
  intros Hwf Hlt.
  destruct (BPM.page_table_ b !! pid) as [f0|] eqn:Hpid.
  - (* hit *)
    unfold BPM.FetchPgImp. rewrite Hpid. intros [= <- <-].
    destruct (wf_table _ _ Hwf _ _ Hpid) as (Hlen & Hid & _ & _ & Hpin & e0 & He0 & Hev0).
    match goal with |- context [pool_wf ?x] => set (b2 := x) end.
    assert (Hff : BPM.frame b2 f0 =
                  Page.set_pin_count (Page.pin_count_ (BPM.frame b f0) + 1) (BPM.frame b f0))
      by (unfold b2; by autorewrite with frames).
    assert (Hfg : ∀ g, f0 ≠ g → BPM.frame b2 g = BPM.frame b g)
      by (intros g Hne; unfold b2; by autorewrite with frames).
    assert (Hlen2 : length (BPM.pages_ b2) = length (BPM.pages_ b))
      by (unfold b2; simpl; by rewrite length_insert).
    assert (Htab : BPM.page_table_ b2 = BPM.page_table_ b) by done.
    assert (Hrep : BPM.replacer_ b2 =
                   LRUKReplacer.SetEvictable f0 false
                     (LRUKReplacer.RecordAccess f0 (BPM.replacer_ b))) by done.
    assert (Hfree : BPM.free_list_ b2 = BPM.free_list_ b) by done.
    assert (Hdisk : BPM.disk_manager_ b2 = BPM.disk_manager_ b) by done.
    assert (Hnext : BPM.next_page_id_ b2 = BPM.next_page_id_ b) by done.
    clearbody b2.
    split_and!; try done.
    + constructor.
      * intros q g. rewrite Htab, Hlen2, Hnext, Hrep. intros Hq.
        destruct (wf_table _ _ Hwf _ _ Hq) as (? & ? & ? & ? & ? & e & ? & ?).
        destruct (decide (f0 = g)) as [<-|Hne].
        -- rewrite Hff. simpl. split_and!; try done; try lia.
           destruct (touch_lookup_eq (BPM.replacer_ b) f0) as [h Hh].
           eexists. split; [exact Hh|]. lia.
        -- rewrite Hfg by done. split_and!; try done.
           exists e. by rewrite touch_lookup_ne.
      * intros g. rewrite Hfree, Hlen2, Htab. apply (wf_free _ _ Hwf).
      * rewrite Hfree. apply (wf_free_nodup _ _ Hwf).
      * intros g e. rewrite Hrep, Htab.
        destruct (decide (f0 = g)) as [<-|Hne].
        -- rewrite Hff. simpl. rewrite Hid, Hpid.
           destruct (touch_lookup_eq (BPM.replacer_ b) f0) as [h ->].
           intros [= <-]. done.
        -- rewrite touch_lookup_ne, Hfg by done. apply (wf_replacer _ _ Hwf).
      * intros q g. rewrite Htab, Hdisk. intros Hq.
        destruct (decide (f0 = g)) as [<-|Hne].
        -- rewrite Hff. simpl. lia.
        -- rewrite Hfg by done. by apply (wf_clean _ _ Hwf).
      * intros g Hg. by apply elem_of_nil in Hg.
    + intros q. unfold page_data. rewrite Htab, Hdisk.
      destruct (BPM.page_table_ b !! q) as [g|] eqn:Hq; [|done].
      destruct (decide (f0 = g)) as [<-|Hne]; [by rewrite Hff|by rewrite Hfg].
    + intros q. unfold pin_count_of. rewrite Htab.
      destruct (decide (q = pid)) as [->|Hne].
      * rewrite Hpid, Hff. done.
      * destruct (BPM.page_table_ b !! q) as [g|] eqn:Hq; [|done].
        rewrite Hfg; [lia|]. intros <-. apply Hne. by eapply table_frame_inj.
    + by rewrite Htab.
    + intros q g Hq _. by rewrite Htab.
    + intros g. rewrite Htab, Hpid, Hdisk. intros [= <-]. rewrite Hff. simpl.
      intros Hp. destruct (Page.is_dirty_ (BPM.frame b f0)) eqn:Hd; [by left|right].
      apply (wf_clean _ _ Hwf); [done|done|lia].
  - (* miss *)
    rewrite (FetchPgImp_acquire _ _ Hpid).
    destruct (acquire_frame b) as [[f0 b1]|] eqn:Hacq; [|done].
    intros [= <- <-].
    destruct (acquire_frame_spec _ _ _ Hwf Hacq)
      as (Hwf1 & Hpages & Hnext & Hdata & Hpins & Hstay & Hsub).
    assert (Hlen : (f0 < length (BPM.pages_ b1))%nat)
      by (apply (wf_spare _ _ Hwf1); by apply list_elem_of_singleton).
    assert (Hfresh : BPM.page_table_ b1 !! pid = None).
    { destruct (BPM.page_table_ b1 !! pid) as [g|] eqn:Hg; [|done].
      apply Hsub in Hg. congruence. }
    match goal with |- context [pool_wf ?x] => set (b2 := x) end.
    set (pg := Page.mk (default zero_data (BPM.disk_manager_ b1 !! pid)) pid 1 false).
    assert (Hlt1 : pid < BPM.next_page_id_ b1) by (by rewrite Hnext).
    assert (Hlen2 : length (BPM.pages_ b2) = length (BPM.pages_ b1))
      by (unfold b2; simpl; by rewrite !length_insert).
    assert (Hff : BPM.frame b2 f0 = pg)
      by (unfold b2; by autorewrite with frames).
    assert (Hfg : ∀ g, f0 ≠ g → BPM.frame b2 g = BPM.frame b1 g)
      by (intros g Hne; unfold b2; by autorewrite with frames).
    destruct (install_spec b1 b2 f0 pid pg Hwf1 Hfresh Hlt1 eq_refl eq_refl
                Hlen2 Hff Hfg eq_refl eq_refl eq_refl eq_refl eq_refl)
      as (Hwf2 & Hdata2 & Hpins2 & Htab2 & Hsub2).
    split_and!; try done.
    + intros q. rewrite Hdata2. case_decide as Hq; [|by rewrite Hdata].
      subst q. rewrite <- Hdata. unfold page_data. by rewrite Hfresh.
    + intros q. rewrite Hpins2. case_decide as Hq; [|rewrite Hpins; lia].
      subst q. unfold pin_count_of. by rewrite Hpid.
    + intros q g Hq Hpin. apply Hsub2. by apply Hstay.
    + intros g. rewrite Htab2. intros [= <-]. rewrite Hff. intros _. by right.
Qed.

Lemma pin_count_of_resident (b : BPM.t) pid f :
  BPM.page_table_ b !! pid = Some f → pin_count_of b pid = Page.pin_count_ (BPM.frame b f).
Proof. unfold pin_count_of. by intros ->. Qed.

Lemma page_data_resident (b : BPM.t) pid f :
  BPM.page_table_ b !! pid = Some f → page_data b pid = Page.data_ (BPM.frame b f).
Proof. unfold page_data. by intros ->. Qed.

(** [UnpinPgImp] on a well-formed pool: a pinned page loses one pin; no
    page changes.  Without the dirty flag the caller must not have changed
    the page ([unpin_safe]). *)
Lemma UnpinPgImp_spec (b : BPM.t) (pid : Z) (is_dirty : bool) :
  pool_wf b → (is_dirty = false → unpin_safe b pid) →
  pool_wf (BPM.UnpinPgImp pid is_dirty b).2 ∧
  BPM.next_page_id_ (BPM.UnpinPgImp pid is_dirty b).2 = BPM.next_page_id_ b ∧
  BPM.page_table_ (BPM.UnpinPgImp pid is_dirty b).2 = BPM.page_table_ b ∧
  (∀ q, page_data (BPM.UnpinPgImp pid is_dirty b).2 q = page_data b q) ∧
  (∀ q, pin_count_of (BPM.UnpinPgImp pid is_dirty b).2 q =
        pin_count_of b q - if decide (q = pid ∧ 0 < pin_count_of b pid) then 1 else 0).
Proof.
  intros Hwf Hsafe. unfold BPM.UnpinPgImp.
  assert (Hsame : pin_count_of b pid ≤ 0 →
                  pool_wf b ∧ BPM.next_page_id_ b = BPM.next_page_id_ b ∧
                  BPM.page_table_ b = BPM.page_table_ b ∧
                  (∀ q, page_data b q = page_data b q) ∧
                  (∀ q, pin_count_of b q =
                        pin_count_of b q - if decide (q = pid ∧ 0 < pin_count_of b pid)
                                           then 1 else 0)).
  { intros Hno. split_and!; try done.
    intros q. case_decide as Hq; lia. }
  destruct (BPM.page_table_ b !! pid) as [f|] eqn:Hpid; cbn [snd].
  2:{ apply Hsame. unfold pin_count_of. by rewrite Hpid. }
  destruct (wf_table _ _ Hwf _ _ Hpid) as (Hlen & Hid & _ & _ & Hpin & e0 & He0 & Hev0).
  destruct (Z.leb_spec (Page.pin_count_ (BPM.frame b f)) 0) as [Hle|Hgt]; cbn [snd].
  { apply Hsame. by rewrite (pin_count_of_resident _ _ _ Hpid). }
  clear Hsame.
  set (c := Page.pin_count_ (BPM.frame b f)) in *.
  set (b1 := BPM.upd_frame f (λ p, Page.set_pin_count (Page.pin_count_ p - 1) p) b).
  assert (Hc1 : Page.pin_count_ (BPM.frame b1 f) = c - 1)
    by (unfold b1; by autorewrite with frames).
  rewrite Hc1.
  set (r2 := if c - 1 <=? 0
             then LRUKReplacer.SetEvictable f true (BPM.replacer_ b) else BPM.replacer_ b).
  match goal with |- context [pool_wf ?x] => set (b2 := x) end.
  assert (Hrep : BPM.replacer_ b2 = r2)
    by (unfold b2, r2; by destruct (c - 1 <=? 0)).
  assert (Hff : BPM.frame b2 f =
                Page.mk (Page.data_ (BPM.frame b f)) pid (c - 1)
                  (is_dirty || Page.is_dirty_ (BPM.frame b f))).
  { unfold b2. destruct (c - 1 <=? 0); autorewrite with frames;
      unfold b1; autorewrite with frames; unfold c; by rewrite <- Hid. }
  assert (Hfg : ∀ g, f ≠ g → BPM.frame b2 g = BPM.frame b g).
  { intros g Hne. unfold b2. destruct (c - 1 <=? 0); autorewrite with frames;
      unfold b1; by autorewrite with frames. }
  assert (Hlen2 : length (BPM.pages_ b2) = length (BPM.pages_ b)).
  { unfold b2. destruct (c - 1 <=? 0); simpl; by rewrite !length_insert. }
  assert (Htab : BPM.page_table_ b2 = BPM.page_table_ b)
    by (unfold b2; by destruct (c - 1 <=? 0)).
  assert (Hfree : BPM.free_list_ b2 = BPM.free_list_ b)
    by (unfold b2; by destruct (c - 1 <=? 0)).
  assert (Hdisk : BPM.disk_manager_ b2 = BPM.disk_manager_ b)
    by (unfold b2; by destruct (c - 1 <=? 0)).
  assert (Hnext : BPM.next_page_id_ b2 = BPM.next_page_id_ b)
    by (unfold b2; by destruct (c - 1 <=? 0)).
  assert (Hr2f : ∃ e, LRUKReplacer.node_store_ r2 !! f = Some e ∧
                      (c - 1 = 0 → LRUKReplacer.evictable_ e = true) ∧
                      (LRUKReplacer.evictable_ e = true → c - 1 = 0)).
  { unfold r2. destruct (Z.leb_spec (c - 1) 0).
    - rewrite (SetEvictable_lookup_eq _ _ _ _ He0). eexists. split; [done|]. simpl. split; [done|lia].
    - exists e0. split; [done|]. split; [lia|].
      intros He. destruct (wf_replacer _ _ Hwf _ _ He0) as [_ Hz]. specialize (Hz He).
      fold c in Hz. lia. }
  assert (Hr2g : ∀ g, f ≠ g → LRUKReplacer.node_store_ r2 !! g =
                               LRUKReplacer.node_store_ (BPM.replacer_ b) !! g).
  { intros g Hne. unfold r2. destruct (c - 1 <=? 0); [|done]. by apply SetEvictable_lookup_ne. }
  clearbody b2 r2. clear b1 Hc1.
  split_and!; try done.
  - constructor.
    + intros q g. rewrite Htab, Hlen2, Hnext, Hrep. intros Hq.
      destruct (wf_table _ _ Hwf _ _ Hq) as (? & ? & ? & ? & ? & e & ? & ?).
      destruct (decide (f = g)) as [<-|Hne].
      * rewrite Hff. simpl. split_and!; try done; try lia.
        destruct Hr2f as (e2 & ? & ? & ?). by exists e2.
      * rewrite Hfg by done. split_and!; try done.
        exists e. by rewrite Hr2g.
    + intros g. rewrite Hfree, Hlen2, Htab. apply (wf_free _ _ Hwf).
    + rewrite Hfree. apply (wf_free_nodup _ _ Hwf).
    + intros g e. rewrite Hrep, Htab.
      destruct (decide (f = g)) as [<-|Hne].
      * rewrite Hff. simpl. destruct Hr2f as (e2 & -> & ? & ?). by intros [= <-].
      * rewrite Hr2g, Hfg by done. apply (wf_replacer _ _ Hwf).
    + intros q g. rewrite Htab, Hdisk. intros Hq.
      destruct (decide (f = g)) as [<-|Hne].
      * rewrite Hff. simpl. intros [-> Hd]%orb_false_elim Hc.
        assert (q = pid) as -> by by eapply table_frame_inj.
        destruct (Hsafe eq_refl _ Hpid) as [Hdd|Hdd]; [fold c; lia|congruence|done].
      * rewrite Hfg by done. by apply (wf_clean _ _ Hwf).
    + intros g Hg. by apply elem_of_nil in Hg.
  - intros q. unfold page_data. rewrite Htab, Hdisk.
    destruct (BPM.page_table_ b !! q) as [g|] eqn:Hq; [|done].
    destruct (decide (f = g)) as [<-|Hne]; [by rewrite Hff|by rewrite Hfg].
  - intros q. unfold pin_count_of at 1 2. rewrite Htab.
    rewrite (pin_count_of_resident _ _ _ Hpid). fold c.
    destruct (decide (q = pid)) as [->|Hne].
    + rewrite Hpid, Hff. simpl. fold c. rewrite decide_True by (split; [done|lia]). done.
    + rewrite decide_False by (intros [? _]; done).
      destruct (BPM.page_table_ b !! q) as [g|] eqn:Hq; [|done].
      rewrite Hfg; [lia|]. intros <-. apply Hne. by eapply table_frame_inj.
Qed.


(** Changing the contents of a resident page that is pinned or dirty. *)
Lemma set_data_spec (b : BPM.t) (pid : Z) (f : nat) (F : PageData → PageData) :
  pool_wf b → BPM.page_table_ b !! pid = Some f →
  (0 < Page.pin_count_ (BPM.frame b f) ∨ Page.is_dirty_ (BPM.frame b f) = true) →
  pool_wf (BPM.upd_frame f (λ pg, Page.set_data (F (Page.data_ pg)) pg) b) ∧
  (∀ q, page_data (BPM.upd_frame f (λ pg, Page.set_data (F (Page.data_ pg)) pg) b) q =
        if decide (q = pid) then F (page_data b pid) else page_data b q) ∧
  (∀ q, pin_count_of (BPM.upd_frame f (λ pg, Page.set_data (F (Page.data_ pg)) pg) b) q =
        pin_count_of b q).
Proof.
  intros Hwf Hpid Hpd.
  destruct (wf_table _ _ Hwf _ _ Hpid) as (Hlen & Hid & _ & _ & Hpin & e0 & He0 & Hev0).
  set (b2 := BPM.upd_frame f _ b).
  assert (Hff : BPM.frame b2 f =
                Page.set_data (F (Page.data_ (BPM.frame b f))) (BPM.frame b f))
    by (unfold b2; by autorewrite with frames).
  assert (Hfg : ∀ g, f ≠ g → BPM.frame b2 g = BPM.frame b g)
    by (intros g Hne; unfold b2; by autorewrite with frames).
  assert (Hlen2 : length (BPM.pages_ b2) = length (BPM.pages_ b))
    by (unfold b2; simpl; by rewrite length_insert).
  assert (Htab : BPM.page_table_ b2 = BPM.page_table_ b) by done.
  assert (Hrep : BPM.replacer_ b2 = BPM.replacer_ b) by done.
  assert (Hfree : BPM.free_list_ b2 = BPM.free_list_ b) by done.
  assert (Hdisk : BPM.disk_manager_ b2 = BPM.disk_manager_ b) by done.
  assert (Hnext : BPM.next_page_id_ b2 = BPM.next_page_id_ b) by done.
  clearbody b2.
  split_and!.
  - constructor.
    + intros q g. rewrite Htab, Hlen2, Hnext, Hrep. intros Hq.
      destruct (wf_table _ _ Hwf _ _ Hq) as (? & ? & ? & ? & ? & e & ? & ?).
      destruct (decide (f = g)) as [<-|Hne].
      * rewrite Hff. simpl. split_and!; try done. by exists e.
      * rewrite Hfg by done. split_and!; try done. by exists e.
    + intros g. rewrite Hfree, Hlen2, Htab. apply (wf_free _ _ Hwf).
    + rewrite Hfree. apply (wf_free_nodup _ _ Hwf).
    + intros g e. rewrite Hrep, Htab.
      destruct (decide (f = g)) as [<-|Hne].
      * rewrite Hff. simpl. apply (wf_replacer _ _ Hwf).
      * rewrite Hfg by done. apply (wf_replacer _ _ Hwf).
    + intros q g. rewrite Htab, Hdisk. intros Hq.
      destruct (decide (f = g)) as [<-|Hne].
      * rewrite Hff. simpl. intros Hd Hp. destruct Hpd; [lia|congruence].
      * rewrite Hfg by done. by apply (wf_clean _ _ Hwf).
    + intros g Hg. by apply elem_of_nil in Hg.
  - intros q. unfold page_data. rewrite Htab, Hdisk.
    destruct (decide (q = pid)) as [->|Hne].
    + by rewrite Hpid, Hff.
    + destruct (BPM.page_table_ b !! q) as [g|] eqn:Hq; [|done].
      rewrite Hfg; [done|]. intros <-. apply Hne. by eapply table_frame_inj.
  - intros q. unfold pin_count_of. rewrite Htab.
    destruct (BPM.page_table_ b !! q) as [g|] eqn:Hq; [|done].
    destruct (decide (f = g)) as [<-|Hne]; [by rewrite Hff|by rewrite Hfg].
Qed.

(** ** The pool as the tree uses it *)

Lemma holds_node_at (tr : t) p pid : holds tr p pid → node_at tr p = node_of tr pid.
Proof.
  intros [Hp _]. unfold node_at, node_of. by rewrite (page_data_resident _ _ _ Hp).
Qed.

Lemma keeps_refl (tr : t) : keeps tr tr.
Proof. by intros p pid. Qed.

Lemma keeps_trans (tr1 tr2 tr3 : t) : keeps tr1 tr2 → keeps tr2 tr3 → keeps tr1 tr3.
Proof. intros H1 H2 p pid H. by apply H2, H1. Qed.

Lemma holds_inj (tr : t) p pid pid' :
  tree_pool_wf tr → holds tr p pid → holds tr p pid' → pid = pid'.
Proof. intros Hwf [H1 _] [H2 _]. by eapply table_frame_inj. Qed.

Lemma pin_count_of_nonneg (b : BPM.t) (pid : Z) : pool_wf b → 0 ≤ pin_count_of b pid.
Proof.
  intros Hwf. unfold pin_count_of.
  destruct (BPM.page_table_ b !! pid) as [g|] eqn:Hg; [|done].
  by destruct (wf_table _ _ Hwf _ _ Hg) as (_ & _ & _ & _ & ? & _).
Qed.

Lemma GetPage_spec (tr tr' : t) (pid : Z) (p : nat) :
  tree_pool_wf tr → pid < next_id tr → GetPage pid tr = Done p tr' →
  tree_pool_wf tr' ∧ cfg tr' = cfg tr ∧ next_id tr' = next_id tr ∧
  (∀ q, node_of tr' q = node_of tr q) ∧
  (∀ q, pins tr' q = pins tr q + if decide (q = pid) then 1 else 0) ∧
  holds tr' p pid ∧ keeps tr tr' ∧
  unpin_safe (buffer_pool_manager_ tr') pid.
Proof.
  intros Hwf Hlt. unfold GetPage. rewrite run_bind, run_pool.
  destruct (BPM.FetchPgImp pid (buffer_pool_manager_ tr)) as [[p0|] b'] eqn:Hf; [|done].
  simpl. intros [= <- <-].
  destruct (FetchPgImp_spec _ _ _ _ Hwf Hlt Hf)
    as (Hwf' & Hnext & Hdata & Hpins & Htab & Hstay & Hsafe).
  split_and!; try done.
  - intros q. unfold node_of. simpl. by rewrite Hdata.
  - split; [done|]. unfold pins in *. simpl. rewrite Hpins, decide_True by done.
    pose proof (pin_count_of_nonneg _ pid Hwf). lia.
  - intros x X [Hx Hpx]. split.
    + apply Hstay; [done|]. by rewrite <- (pin_count_of_resident _ _ _ Hx).
    + simpl. rewrite Hpins. case_decide; lia.
Qed.

Lemma UnpinPage_spec (tr tr' : t) (pid : Z) (is_dirty : bool) :
  tree_pool_wf tr →
  (is_dirty = false → unpin_safe (buffer_pool_manager_ tr) pid) →
  UnpinPage pid is_dirty tr = Done () tr' →
  tree_pool_wf tr' ∧ cfg tr' = cfg tr ∧ next_id tr' = next_id tr ∧
  (∀ q, node_of tr' q = node_of tr q) ∧
  (∀ q, pins tr' q = pins tr q - if decide (q = pid ∧ 0 < pins tr pid) then 1 else 0) ∧
  (∀ p q, holds tr p q → q ≠ pid ∨ 1 < pins tr pid → holds tr' p q).
Proof.
  intros Hwf Hsafe. rewrite run_UnpinPage. intros [= <-].
  destruct (UnpinPgImp_spec _ pid is_dirty Hwf Hsafe) as (Hwf' & Hnext & Htab & Hdata & Hpins).
  split_and!; try done.
  - intros q. unfold node_of. simpl. by rewrite Hdata.
  - intros p q [Hp Hq] Hor. unfold holds, pins in *.
    cbn [buffer_pool_manager_ set_buffer_pool_manager]. rewrite Htab, Hpins.
    split; [done|]. destruct (decide _) as [[-> _]|_]; [|lia].
    destruct Hor; [done|lia].
Qed.

Lemma store_spec (tr tr' : t) (p : nat) (pid : Z) (g : BPlusTreePage.t → BPlusTreePage.t) :
  tree_pool_wf tr → holds tr p pid → store p g tr = Done () tr' →
  tree_pool_wf tr' ∧ cfg tr' = cfg tr ∧ next_id tr' = next_id tr ∧
  (∀ q, node_of tr' q = if decide (q = pid) then g (node_of tr pid) else node_of tr q) ∧
  (∀ q, pins tr' q = pins tr q) ∧
  keeps tr tr'.
Proof.
  intros Hwf [Hp Hpin]. rewrite run_store. intros [= <-].
  destruct (set_data_spec _ pid p (λ d, NodeData (g (as_node d))) Hwf Hp)
    as (Hwf' & Hdata & Hpins).
  { left. by rewrite <- (pin_count_of_resident _ _ _ Hp). }
  split_and!; try done.
  - intros q. unfold node_of, poke. simpl. rewrite Hdata. by case_decide.
  - intros x X [Hx HX]. split; [done|]. unfold poke. simpl. by rewrite Hpins.
Qed.

Lemma NewPage_spec (tr tr' : t) (p : nat) (id : Z) :
  tree_pool_wf tr → can_allocate (buffer_pool_manager_ tr) →
  NewPage tr = Done (Some p, id) tr' →
  id = next_id tr ∧ next_id tr' = id + 1 ∧
  tree_pool_wf tr' ∧ cfg tr' = cfg tr ∧
  (∀ q, node_of tr' q = if decide (q = id) then BPlusTreePage.zero else node_of tr q) ∧
  (∀ q, pins tr' q = if decide (q = id) then 1 else pins tr q) ∧
  holds tr' p id ∧ keeps tr tr'.
Proof.
  intros Hwf Hcan. unfold NewPage. rewrite run_pool.
  destruct (BPM.NewPgImp (buffer_pool_manager_ tr)) as [[p0 id0] b'] eqn:Hn.
  simpl. intros [= -> -> <-].
  destruct (NewPgImp_spec _ _ _ _ Hwf Hcan Hn) as (Hid & Hnext & Hwf' & Hdata & Hpins & Htab & Hstay).
  split_and!; try done.
  - intros q. unfold node_of. simpl. rewrite Hdata. by case_decide.
  - split; [done|]. simpl. by rewrite Hpins, decide_True.
  - intros x X [Hx HX]. split.
    + apply Hstay; [done|]. by rewrite <- (pin_count_of_resident _ _ _ Hx).
    + simpl. rewrite Hpins. case_decide as Hd; [lia|done].
Qed.

Lemma NewPage_next (tr tr' : t) (r : option nat * Z) :
  can_allocate (buffer_pool_manager_ tr) →
  NewPage tr = Done r tr' → r.2 = next_id tr ∧ next_id tr' = next_id tr + 1.
Proof.
  intros Hcan. unfold NewPage. rewrite run_pool. intros [= <- <-]. split.
  - apply NewPgImp_out.
  - unfold next_id. simpl. rewrite NewPgImp_next. by apply wrap_page_id_succ.
Qed.

Lemma as_node_UpdateRecord name root d : as_node (UpdateRecord name root d) = as_node d.
Proof. by destruct d. Qed.

Lemma as_node_InsertRecord name root d : as_node (InsertRecord name root d) = as_node d.
Proof. destruct d; simpl; [done|]. by case_bool_decide. Qed.

(** [UpdateRootPageId] touches the header page only: no tree page changes
    and no pin is left behind. *)
Lemma UpdateRootPageId_spec (tr tr' : t) (insert_record : Z) :
  tree_pool_wf tr → HEADER_PAGE_ID < next_id tr →
  UpdateRootPageId insert_record tr = Done () tr' →
  tree_pool_wf tr' ∧ cfg tr' = cfg tr ∧ next_id tr' = next_id tr ∧
  (∀ q, node_of tr' q = node_of tr q) ∧
  (∀ q, pins tr' q = pins tr q) ∧
  keeps tr tr'.
Proof.
  intros Hwf Hlt. unfold UpdateRootPageId. intros H.
  apply bind_Done in H as (hp0 & tr1 & H1 & H).
  apply bind_Done in H as (hp & tr2 & H2 & H).
  assert (Hget : GetPage HEADER_PAGE_ID tr = Done hp tr2).
  { unfold GetPage. rewrite run_bind, H1. exact H2. }
  clear H1 H2.
  destruct (GetPage_spec _ _ _ _ Hwf Hlt Hget)
    as (Hwf2 & Hcfg2 & Hnext2 & Hnodes2 & Hpins2 & Hholds2 & Hkeeps2 & _).
  rewrite run_bind, run_get, run_bind, run_pool in H. cbn [fst snd] in H.
  set (F := (if bool_decide (insert_record ≠ 0) then InsertRecord else UpdateRecord)
              (index_name_ tr2) (root_page_id_ tr2)) in H.
  destruct Hholds2 as [Htab2 Hpin2].
  destruct (set_data_spec _ HEADER_PAGE_ID hp F Hwf2 Htab2) as (Hwf3 & Hdata3 & Hpins3).
  { left. by rewrite <- (pin_count_of_resident _ _ _ Htab2). }
  set (tr3 := set_buffer_pool_manager _ tr2) in H.
  assert (Hnodes3 : ∀ q, node_of tr3 q = node_of tr2 q).
  { intros q. unfold node_of, tr3. cbn [buffer_pool_manager_ set_buffer_pool_manager].
    rewrite Hdata3. case_decide as Hq; [|done]. subst q. unfold F.
    destruct (bool_decide _); [apply as_node_InsertRecord|apply as_node_UpdateRecord]. }
  assert (Hwf3' : tree_pool_wf tr3) by exact Hwf3.
  assert (Hpins3' : ∀ q, pins tr3 q = pins tr2 q) by (intros q; apply Hpins3).
  assert (Hunpin : UnpinPage HEADER_PAGE_ID true tr3 = Done () tr').
  { unfold UnpinPage. rewrite run_bind.
    rewrite run_bind in H. destruct (pool _ tr3) as [a tr4| |]; [|done|done].
    done. }
  assert (Hs : true = false → unpin_safe (buffer_pool_manager_ tr3) HEADER_PAGE_ID) by done.
  destruct (UnpinPage_spec _ _ _ _ Hwf3' Hs Hunpin)
    as (Hwf4 & Hcfg4 & Hnext4 & Hnodes4 & Hpins4 & Hholds4).
  split_and!; try done.
  - by rewrite Hcfg4, <- Hcfg2.
  - by rewrite Hnext4, <- Hnext2.
  - intros q. by rewrite Hnodes4, Hnodes3, Hnodes2.
  - intros q. rewrite Hpins4.
    assert (Hp3 : pins tr3 HEADER_PAGE_ID = pins tr HEADER_PAGE_ID + 1)
      by (by rewrite Hpins3', Hpins2, decide_True).
    pose proof (pin_count_of_nonneg _ HEADER_PAGE_ID Hwf) as Hnn.
    destruct (decide (q = HEADER_PAGE_ID)) as [->|Hne].
    + rewrite decide_True by (split; [done|unfold pins in *; lia]). unfold pins in *; lia.
    + rewrite decide_False by (intros [? _]; done).
      rewrite Hpins3', Hpins2, decide_False by done. lia.
  - intros x X HX0. pose proof (Hkeeps2 _ _ HX0) as HX.
    apply Hholds4.
    + destruct HX as [HX1 HX2]. split; [exact HX1|]. change (0 < pins tr3 X).
      by rewrite Hpins3'.
    + destruct (decide (X = HEADER_PAGE_ID)) as [->|Hne]; [right|by left].
      rewrite Hpins3', Hpins2, decide_True by done.
      destruct HX0 as [_ HX0]. unfold pins in *. lia.
Qed.

(** ** Symbolic states *)

Lemma upd_eq {B} (x : Z) (y : B) (f : Z → B) : upd x y f x = y.
Proof. unfold upd. by rewrite decide_True. Qed.

Lemma upd_ne {B} (x q : Z) (y : B) (f : Z → B) : q ≠ x → upd x y f q = f q.
Proof. intros. unfold upd. by rewrite decide_False. Qed.

(** Case analysis on every [decide] of the goal, then arithmetic. *)
Ltac solve_upd :=
  unfold upd;
  repeat (match goal with |- context [decide ?P] => destruct (decide P) end);
  subst; try done; try lia; try congruence.

Lemma St_initial (tr : t) :
  tree_pool_wf tr → St tr (node_of tr) (pins tr) (cfg tr) (next_id tr) [].
Proof. intros Hwf. constructor; try done. intros p pid Hin. by apply elem_of_nil in Hin. Qed.

Lemma St_ext (tr : t) σ σ' π π' c n H H' :
  St tr σ π c n H →
  (∀ q, σ q = σ' q) → (∀ q, π q = π' q) → H' ⊆ H →
  St tr σ' π' c n H'.
Proof.
  intros [Hwf Hn Hp Hc Hx Hh] Hs Hpi Hsub. constructor; try done.
  - intros q. by rewrite Hn.
  - intros q. by rewrite Hp.
  - intros p pid Hin. apply Hh. by apply Hsub.
Qed.

Lemma St_load (tr : t) σ π c n H p pid :
  St tr σ π c n H → (p, pid) ∈ H → node_at tr p = σ pid.
Proof.
  intros HSt Hin. rewrite <- (st_nodes _ _ _ _ _ _ HSt).
  apply holds_node_at. by apply (st_holds _ _ _ _ _ _ HSt).
Qed.

Lemma St_pins_pos (tr : t) σ π c n H p pid :
  St tr σ π c n H → (p, pid) ∈ H → 0 < π pid.
Proof.
  intros HSt Hin. rewrite <- (st_pins _ _ _ _ _ _ HSt).
  by destruct (st_holds _ _ _ _ _ _ HSt _ _ Hin).
Qed.

Lemma St_GetPage (tr tr' : t) σ π c n H pid p :
  St tr σ π c n H → pid < n → GetPage pid tr = Done p tr' →
  St tr' σ (upd pid (π pid + 1) π) c n ((p, pid) :: H) ∧
  unpin_safe (buffer_pool_manager_ tr') pid.
Proof.
  intros [Hwf Hn Hp Hc Hx Hh] Hlt Hget. rewrite <- Hx in Hlt.
  destruct (GetPage_spec _ _ _ _ Hwf Hlt Hget)
    as (Hwf' & Hcfg & Hnext & Hnodes & Hpins & Hholds & Hkeeps & Hsafe).
  split; [|done]. constructor; [done| | |congruence|congruence|].
  - intros q. by rewrite Hnodes.
  - intros q. rewrite Hpins. unfold upd. case_decide; [subst; by rewrite Hp|rewrite Hp; lia].
  - intros x X [[= -> ->]|Hin]%elem_of_cons; [done|]. by apply Hkeeps, Hh.
Qed.

Lemma St_store (tr tr' : t) σ π c n H p pid g :
  St tr σ π c n H → (p, pid) ∈ H → store p g tr = Done () tr' →
  St tr' (upd pid (g (σ pid)) σ) π c n H.
Proof.
  intros [Hwf Hn Hp Hc Hx Hh] Hin Hst.
  destruct (store_spec _ _ _ _ g Hwf (Hh _ _ Hin) Hst)
    as (Hwf' & Hcfg & Hnext & Hnodes & Hpins & Hkeeps).
  constructor; [done| | |congruence|congruence|].
  - intros q. rewrite Hnodes. unfold upd. case_decide; [by rewrite Hn|done].
  - intros q. by rewrite Hpins.
  - intros x X HX. by apply Hkeeps, Hh.
Qed.

(** Unpinning a page the tree holds: the pointers of [H'] stay valid when
    they point to other pages, or when the page has further pins. *)
Lemma St_UnpinPage (tr tr' : t) σ π c n H H' p pid is_dirty :
  St tr σ π c n H → (p, pid) ∈ H →
  (is_dirty = false → unpin_safe (buffer_pool_manager_ tr) pid) →
  (∀ x X, (x, X) ∈ H' → (x, X) ∈ H ∧ (X ≠ pid ∨ 1 < π pid)) →
  UnpinPage pid is_dirty tr = Done () tr' →
  St tr' σ (upd pid (π pid - 1) π) c n H'.
Proof.
  intros HSt Hin Hsafe HH' Hun.
  pose proof (St_pins_pos _ _ _ _ _ _ _ _ HSt Hin) as Hpos.
  destruct HSt as [Hwf Hn Hp Hc Hx Hh].
  destruct (UnpinPage_spec _ _ _ _ Hwf Hsafe Hun)
    as (Hwf' & Hcfg & Hnext & Hnodes & Hpins & Hholds).
  constructor; [done| | |congruence|congruence|].
  - intros q. by rewrite Hnodes.
  - intros q. rewrite Hpins, !Hp. unfold upd.
    destruct (decide (q = pid)) as [->|Hne].
    + by rewrite decide_True.
    + rewrite decide_False by (intros [? _]; done). lia.
  - intros x X HX. destruct (HH' _ _ HX) as [HX1 HX2].
    apply Hholds; [by apply Hh|]. by rewrite Hp.
Qed.

Lemma St_NewPage (tr tr' : t) σ π c n H p id :
  St tr σ π c n H → MIN_PAGE_ID ≤ n < MAX_PAGE_ID →
  NewPage tr = Done (Some p, id) tr' →
  id = n ∧
  St tr' (upd n BPlusTreePage.zero σ) (upd n 1 π) c (n + 1) ((p, n) :: H).
Proof.
  intros [Hwf Hn Hp Hc Hx Hh] Hcan Hnew.
  assert (Hcan' : can_allocate (buffer_pool_manager_ tr))
    by (unfold can_allocate; unfold next_id in Hx; by rewrite Hx).
  destruct (NewPage_spec _ _ _ _ Hwf Hcan' Hnew)
    as (Hid & Hnext & Hwf' & Hcfg & Hnodes & Hpins & Hholds & Hkeeps).
  assert (id = n) as -> by congruence.
  split; [done|]. constructor; [done| | |congruence|congruence|].
  - intros q. rewrite Hnodes. unfold upd. case_decide; [done|by rewrite Hn].
  - intros q. rewrite Hpins. unfold upd. case_decide; [done|by rewrite Hp].
  - intros x X [[= -> ->]|Hin]%elem_of_cons; [done|]. by apply Hkeeps, Hh.
Qed.

Lemma St_set_root (tr tr' : t) σ π name root lmax imax n H r :
  St tr σ π (name, root, lmax, imax) n H → set_root r tr = Done () tr' →
  St tr' σ π (name, r, lmax, imax) n H.
Proof.
  intros [Hwf Hn Hp Hc Hx Hh]. unfold set_root. intros [= <-].
  constructor; try done.
  unfold cfg in *. simpl. congruence.
Qed.

Lemma St_UpdateRootPageId (tr tr' : t) σ π c n H insert_record :
  St tr σ π c n H → HEADER_PAGE_ID < n →
  UpdateRootPageId insert_record tr = Done () tr' →
  St tr' σ π c n H.
Proof.
  intros [Hwf Hn Hp Hc Hx Hh] Hlt Hup. rewrite <- Hx in Hlt.
  destruct (UpdateRootPageId_spec _ _ _ Hwf Hlt Hup)
    as (Hwf' & Hcfg & Hnext & Hnodes & Hpins & Hkeeps).
  constructor; [done| | |congruence|congruence|].
  - intros q. by rewrite Hnodes.
  - intros q. by rewrite Hpins.
  - intros x X HX. by apply Hkeeps, Hh.
Qed.

Lemma St_UpdateParentId (tr tr' : t) σ π c n H pid pp :
  St tr σ π c n H → pid < n → UpdateParentId pid pp tr = Done () tr' →
  St tr' (upd pid (BPlusTreePage.SetParentPageId pp (σ pid)) σ) π c n H.
Proof.
  intros HSt Hlt. unfold UpdateParentId. intros Hrun.
  inv_bind Hrun. rename a into target_page.
  destruct (St_GetPage _ _ _ _ _ _ _ _ _ HSt Hlt Hrun0) as [HSt1 _].
  inv_bind Hrun. destruct a.
  pose proof (St_store _ _ _ _ _ _ _ _ _ _ HSt1 ltac:(left) Hrun1) as HSt2.
  eapply (St_UnpinPage _ _ _ _ _ _ _ H) in Hrun; [|exact HSt2|left|done|].
  - eapply St_ext; [exact Hrun|done| |done].
    intros q. unfold upd.
    destruct (decide (q = pid)) as [->|?]; [rewrite decide_True by done; lia|done].
  - intros x X HX. split; [by right|].
    destruct (decide (X = pid)) as [->|Hne]; [right|by left].
    pose proof (St_pins_pos _ _ _ _ _ _ _ _ HSt HX). rewrite upd_eq. lia.
Qed.

(** ** The descent of FindLeafPage *)

Lemma root_of_cfg (tr : t) name root lmax imax :
  cfg tr = (name, root, lmax, imax) → root_page_id_ tr = root.
Proof. unfold cfg. by intros [= _ -> _ _]. Qed.

Lemma St_FindLeafPage_loop (key : Z) (fuel : nat) :
  ∀ (tr tr' : t) σ π c n H0 curr pid leaf,
  St tr σ π c n ((curr, pid) :: H0) →
  (∀ x X, (x, X) ∈ H0 → X ≠ pid ∨ 1 < π pid) →
  unpin_safe (buffer_pool_manager_ tr) pid →
  path_ok σ n fuel key pid →
  FindLeafPage_loop fuel key curr tr = Done leaf tr' →
  ∃ L π', find_leaf σ fuel key pid = Some L ∧
          St tr' σ π' c n ((leaf, L) :: H0) ∧
          (∀ q, π' q = π q - (if decide (q = pid) then 1 else 0)
                           + (if decide (q = L) then 1 else 0)) ∧
          unpin_safe (buffer_pool_manager_ tr') L.
Proof.
  induction fuel as [|fuel IH]; intros tr tr' σ π c n H0 curr pid leaf HSt HH0 Hsafe Hpath Hrun;
    [done|].
  destruct Hpath as (_ & Hlt & Hid & Hcase).
  assert (Hnode : node_at tr curr = σ pid) by (apply (St_load _ _ _ _ _ _ _ _ HSt); left).
  cbn [FindLeafPage_loop find_leaf] in *.
  rewrite run_bind, run_load, Hnode in Hrun.
  destruct Hcase as [Hleaf|[Hleaf Hpath]]; rewrite Hleaf in *.
  - injection Hrun as <- <-. exists pid, π. split_and!; try done.
    intros q. destruct (decide (q = pid)); lia.
  - inv_bind Hrun. destruct a. unfold BPlusTreePage.GetPageId in Hrun0. rewrite Hid in Hrun0.
    eapply (St_UnpinPage _ _ _ _ _ _ _ H0) in Hrun0;
      [|exact HSt|left|by intros _|intros x X HX; split; [by right|by apply (HH0 x)]].
    inv_bind Hrun. rename a into child.
    set (cid := next_page_id_of (σ pid) key) in *.
    assert (Hclt : cid < n) by (destruct fuel; [done|by destruct Hpath as (_ & ? & _)]).
    clearbody cid.
    destruct (St_GetPage _ _ _ _ _ _ _ _ _ Hrun0 Hclt Hrun1) as [HSt2 Hsafe2].
    eapply IH in Hrun; [|exact HSt2| |exact Hsafe2|exact Hpath].
    + destruct Hrun as (L & π' & Hfind & HSt' & Hπ' & Hsafe').
      exists L, π'. split_and!; try done.
      intros q. rewrite Hπ'. solve_upd.
    + intros x X HX. destruct (decide (X = cid)) as [->|?]; [right|by left].
      pose proof (St_pins_pos _ _ _ _ _ _ _ _ Hrun0 HX). rewrite upd_eq. lia.
Qed.

Lemma St_FindLeafPage (key : Z) (fuel : nat) (tr tr' : t) σ π name root lmax imax n H leaf :
  St tr σ π (name, root, lmax, imax) n H →
  path_ok σ n fuel key root →
  FindLeafPage fuel key tr = Done leaf tr' →
  ∃ L, find_leaf σ fuel key root = Some L ∧
       St tr' σ (upd L (π L + 1) π) (name, root, lmax, imax) n ((leaf, L) :: H) ∧
       unpin_safe (buffer_pool_manager_ tr') L.
Proof.
  intros HSt Hpath. unfold FindLeafPage. rewrite run_bind, run_get.
  rewrite (root_of_cfg _ _ _ _ _ (st_cfg _ _ _ _ _ _ HSt)). intros Hrun.
  inv_bind Hrun. rename a into curr.
  assert (Hlt : root < n) by (destruct fuel; [done|by destruct Hpath as (_ & ? & _)]).
  destruct (St_GetPage _ _ _ _ _ _ _ _ _ HSt Hlt Hrun0) as [HSt1 Hsafe1].
  eapply St_FindLeafPage_loop in Hrun; [|exact HSt1| |exact Hsafe1|exact Hpath].
  - destruct Hrun as (L & π' & Hfind & HSt' & Hπ' & Hsafe').
    exists L. split_and!; try done.
    eapply St_ext; [exact HSt'|done| |done].
    intros q. rewrite Hπ'. solve_upd.
  - intros x X HX. destruct (decide (X = root)) as [->|?]; [right|by left].
    pose proof (St_pins_pos _ _ _ _ _ _ _ _ HSt HX). rewrite upd_eq. lia.
Qed.

(** ** Well-formed trees and search paths *)

Lemma largest_index_le_unique (n : BPlusTreePage.t) (key i j : Z) :
  largest_index_le n key i → largest_index_le n key j → i = j.
Proof.
  intros (Hi & Hi1 & Hi2) (Hj & Hj1 & Hj2).
  destruct (Z.lt_trichotomy i j) as [Hlt|[Heq|Hgt]]; [|done|].
  - specialize (Hi2 j). destruct Hj1; lia.
  - specialize (Hj2 i). destruct Hi1; lia.
Qed.

Lemma keys_increasing_sorted (n : BPlusTreePage.t) : keys_increasing n → keys_sorted n.
Proof.
  intros Hinc i j Hi Hij Hj. destruct (decide (i = j)) as [->|]; [lia|].
  specialize (Hinc i j). lia.
Qed.

Lemma between_in_window lo hi x : between lo hi x → in_window lo hi x.
Proof. intros [Hlo Hhi]. split; [|done]. intros l Hl. specialize (Hlo l Hl). lia. Qed.

Ltac destruct_internal H :=
  let Hh := fresh "Hhdr" in let Hb := fresh "Hbnd" in let Hty := fresh "Hty" in
  let Hid := fresh "Hid" in let Hpar := fresh "Hpar" in let Hsz := fresh "Hsz" in
  let Hinc := fresh "Hinc" in let Hwin := fresh "Hwin" in let Hch := fresh "Hch" in
  let Hinj := fresh "Hinj" in
  destruct H as (Hh & Hb & Hty & Hid & Hpar & Hsz & Hinc & Hwin & Hch & Hinj).

Ltac destruct_leaf H :=
  let Hh := fresh "Hhdr" in let Hb := fresh "Hbnd" in let Hty := fresh "Hty" in
  let Hid := fresh "Hid" in let Hpar := fresh "Hpar" in let Hmax := fresh "Hmax" in
  let Hsz := fresh "Hsz" in let Hso := fresh "Hsorted" in let Hwin := fresh "Hwin" in
  let Hnx := fresh "Hnext" in
  destruct H as (Hh & Hb & Hty & Hid & Hpar & Hmax & Hsz & Hso & Hwin & Hnx).

Lemma internal_not_leaf σ bound parent lo hi pid :
  internal_ok σ bound parent lo hi pid → BPlusTreePage.IsLeafPage (σ pid) = false.
Proof.
  intros (_ & _ & Hty & _). unfold BPlusTreePage.IsLeafPage. rewrite Hty.
  by apply bool_decide_eq_false.
Qed.

Lemma leaf_is_leaf σ bound parent lo hi pid :
  leaf_ok σ bound parent lo hi pid → BPlusTreePage.IsLeafPage (σ pid) = true.
Proof.
  intros (_ & _ & Hty & _). unfold BPlusTreePage.IsLeafPage. rewrite Hty.
  by apply bool_decide_eq_true.
Qed.

(** The child that the search follows at a well-formed internal page. *)
Lemma internal_next σ bound parent lo hi pid key j :
  internal_ok σ bound parent lo hi pid → largest_index_le (σ pid) key j →
  next_page_id_of (σ pid) key = BPlusTreeInternalPage.ValueAt (σ pid) j.
Proof.
  intros Hok Hj. destruct_internal Hok. apply keys_increasing_sorted in Hinc.
  destruct (next_page_id_of_largest_index_le _ key Hsz Hinc) as (i & Hi & ->).
  by rewrite (largest_index_le_unique _ _ _ _ Hi Hj).
Qed.

Lemma internal_index σ bound parent lo hi pid key :
  internal_ok σ bound parent lo hi pid → ∃ j, largest_index_le (σ pid) key j.
Proof.
  intros Hok. destruct_internal Hok. apply keys_increasing_sorted in Hinc.
  destruct (next_page_id_of_largest_index_le _ key Hsz Hinc) as (i & Hi & _). by exists i.
Qed.

Lemma child_window (n : BPlusTreePage.t) lo hi key j :
  in_window lo hi key → largest_index_le n key j →
  in_window (child_lo n lo j) (child_hi n hi j) key.
Proof.
  intros [Hlo Hhi] (Hj & Hj1 & Hj2). unfold child_lo, child_hi. split.
  - destruct (decide (j = 0)); [done|]. intros l [= <-]. destruct Hj1; [done|lia].
  - destruct (decide (j = BPlusTreePage.size_ n)); [done|]. intros h [= <-]. apply Hj2; lia.
Qed.

Lemma btree_height_unique σ bound h1 :
  ∀ h2 parent1 parent2 lo1 hi1 lo2 hi2 pid,
  btree σ bound h1 parent1 lo1 hi1 pid → btree σ bound h2 parent2 lo2 hi2 pid → h1 = h2.
Proof.
  induction h1 as [|h1 IH]; intros h2 parent1 parent2 lo1 hi1 lo2 hi2 pid H1 H2.
  - inversion H1 as [? ? ? ? Hl|]; subst. inversion H2 as [|? ? ? ? ? Hi]; subst; [done|].
    apply leaf_is_leaf in Hl. apply internal_not_leaf in Hi. congruence.
  - inversion H1 as [|? ? ? ? ? Hi1 Hc1]; subst.
    inversion H2 as [? ? ? ? Hl|? ? ? ? ? Hi2 Hc2]; subst.
    + apply leaf_is_leaf in Hl. apply internal_not_leaf in Hi1. congruence.
    + f_equal. destruct_internal Hi1.
      eapply IH; [apply (Hc1 0)|apply (Hc2 0)]; lia.
Qed.

Lemma internal_ok_mono σ σ' bound bound' parent lo hi pid :
  internal_ok σ bound parent lo hi pid → σ' pid = σ pid → bound ≤ bound' →
  internal_ok σ' bound' parent lo hi pid.
Proof.
  unfold internal_ok. intros Hok -> Hb. destruct_internal Hok.
  split_and!; try done; [lia|]. intros i ? ?. specialize (Hch i). lia.
Qed.

Lemma leaf_ok_mono σ σ' bound bound' parent lo hi pid :
  leaf_ok σ bound parent lo hi pid → σ' pid = σ pid → bound ≤ bound' →
  leaf_ok σ' bound' parent lo hi pid.
Proof.
  unfold leaf_ok. intros Hok -> Hb. destruct_leaf Hok.
  split_and!; try done; [lia|]. destruct Hnext; [by left|right; lia].
Qed.

(** The ancestors of a page are not affected by changes to other pages. *)
Lemma above_upd σ σ' bound bound' key anc c lo hi :
  above σ bound key anc c lo hi →
  (∀ X, X ∈ anc → σ' X = σ X) → bound ≤ bound' →
  above σ' bound' key anc c lo hi.
Proof.
  intros Hab. induction Hab as [c|A anc c loA hiA j Hab IH Hok Hw Hj Hc Hch Hup];
    intros Hsame Hb.
  - constructor.
  - assert (HA' : σ' A = σ A) by (apply Hsame; left).
    rewrite <- HA'. econstructor; rewrite ?HA'; try done.
    + apply IH; [|done]. intros X HX. apply Hsame. by right.
    + by eapply internal_ok_mono.
    + intros X i HX. rewrite Hsame by (by right). by apply Hup.
Qed.

Lemma above_notin σ bound key anc c lo hi : above σ bound key anc c lo hi → c ∉ anc.
Proof.
  intros Hab. destruct Hab as [c|A anc c loA hiA j Hab Hok Hw Hj Hc Hch Hup].
  - apply not_elem_of_nil.
  - subst c. apply Hch; apply Hj.
Qed.

Lemma top_cons (c A : Z) (anc : list Z) : top c (A :: anc) = top A anc.
Proof.
  unfold top. revert c A. induction anc as [|B anc IH]; intros c A; [done|].
  change (List.last (A :: B :: anc) c) with (List.last (B :: anc) c).
  by rewrite !IH.
Qed.

Lemma path_ok_mono σ bound key (f : nat) :
  ∀ (f' : nat) pid, path_ok σ bound f key pid → (f ≤ f')%nat → path_ok σ bound f' key pid.
Proof.
  induction f as [|f IH]; intros f' pid Hp Hle; [done|].
  destruct f' as [|f']; [lia|]. cbn [path_ok] in *.
  destruct Hp as (? & ? & ? & [Hl|[Hl Hp]]); split_and!; try done; [by left|right].
  split; [done|]. apply IH; [done|lia].
Qed.

Lemma find_leaf_mono σ key (f : nat) :
  ∀ (f' : nat) pid L, find_leaf σ f key pid = Some L → (f ≤ f')%nat →
                      find_leaf σ f' key pid = Some L.
Proof.
  induction f as [|f IH]; intros f' pid L Hp Hle; [done|].
  destruct f' as [|f']; [lia|]. cbn [find_leaf] in *.
  destruct (BPlusTreePage.IsLeafPage (σ pid)); [done|]. apply IH; [done|lia].
Qed.

(** The search from the root follows the ancestors down to [c]. *)
Lemma above_path σ bound key anc c lo hi :
  above σ bound key anc c lo hi →
  ∀ fuel L, path_ok σ bound fuel key c → find_leaf σ fuel key c = Some L →
  path_ok σ bound (fuel + length anc) key (top c anc) ∧
  find_leaf σ (fuel + length anc) key (top c anc) = Some L.
Proof.
  intros Hab. induction Hab as [c|A anc c loA hiA j Hab IH Hok Hw Hj Hc Hch Hup];
    intros fuel L Hpath Hfind.
  - simpl. by rewrite Nat.add_0_r.
  - rewrite top_cons. simpl. replace (fuel + S (length anc))%nat with (S fuel + length anc)%nat by lia.
    apply IH.
    + cbn [path_ok]. pose proof Hok as Hok'. destruct_internal Hok'.
      split_and!; try done. right. split; [by eapply internal_not_leaf|].
      by rewrite (internal_next _ _ _ _ _ _ _ _ Hok Hj), Hc.
    + cbn [find_leaf]. rewrite (internal_not_leaf _ _ _ _ _ _ Hok).
      by rewrite (internal_next _ _ _ _ _ _ _ _ Hok Hj), Hc.
Qed.

(** The search path ends at its leaf within as many steps as it has
    pages. *)
Lemma search_path_find σ bound key chain L lo hi (fuel : nat) :
  search_path σ bound key chain L lo hi → (length chain < fuel)%nat →
  path_ok σ bound fuel key (top L chain) ∧ find_leaf σ fuel key (top L chain) = Some L.
Proof.
  intros (Hab & Hleaf & Hw) Hlen.
  pose proof (leaf_is_leaf _ _ _ _ _ _ Hleaf) as Hl.
  destruct (above_path _ _ _ _ _ _ _ Hab 1 L) as [Hp Hf].
  - cbn [path_ok]. destruct_leaf Hleaf. split_and!; try done. by left.
  - cbn [find_leaf]. by rewrite Hl.
  - split; [eapply path_ok_mono|eapply find_leaf_mono]; try done; lia.
Qed.

(** In a well-formed tree the search for a key follows a search path. *)
Lemma btree_descend σ bound key (h : nat) :
  ∀ anc pid lo hi,
  btree σ bound h (hd INVALID_PAGE_ID anc) lo hi pid → in_window lo hi key →
  above σ bound key anc pid lo hi →
  (∀ X, X ∈ anc → ∃ (hX : nat) pX loX hiX, (h < hX)%nat ∧ btree σ bound hX pX loX hiX X) →
  ∃ chain L lo' hi',
    search_path σ bound key chain L lo' hi' ∧ top L chain = top pid anc ∧
    length chain = (h + length anc)%nat.
Proof.
  induction h as [|h IH]; intros anc pid lo hi Hbt Hw Hab Hanc.
  - inversion Hbt as [? ? ? ? Hl|]; subst. exists anc, pid, lo, hi. by split_and!.
  - inversion Hbt as [|? ? ? ? ? Hok Hchild]; subst.
    destruct (internal_index _ _ _ _ _ _ key Hok) as [j Hj].
    pose proof Hj as ([Hj0 Hj1] & _).
    set (c := BPlusTreeInternalPage.ValueAt (σ pid) j).
    assert (Hhc : ∀ i, 0 ≤ i → i ≤ BPlusTreePage.size_ (σ pid) →
              ∀ X (hX : nat) pX loX hiX, (h < hX)%nat → btree σ bound hX pX loX hiX X →
              BPlusTreeInternalPage.ValueAt (σ pid) i ≠ X).
    { intros i Hi0 Hi1 X hX pX loX hiX HhX HX Heq. subst X.
      pose proof (btree_height_unique _ _ _ _ _ _ _ _ _ _ _ (Hchild i Hi0 Hi1) HX). lia. }
    destruct (IH (pid :: anc) c (child_lo (σ pid) lo j) (child_hi (σ pid) hi j))
      as (chain & L & lo' & hi' & Hsp & Htop & Hlen).
    + by apply Hchild.
    + by apply child_window.
    + econstructor; try done.
      * intros i Hi0 Hi1 [Heq|HX]%elem_of_cons.
        -- apply (Hhc i Hi0 Hi1 pid (S h) _ _ _ ltac:(lia) Hbt Heq).
        -- destruct (Hanc _ HX) as (hX & pX & loX & hiX & HhX & HbX).
           apply (Hhc i Hi0 Hi1 _ hX _ _ _ ltac:(lia) HbX eq_refl).
      * intros X i HX Hi0 Hi1 Heq.
        destruct (Hanc _ HX) as (hX & pX & loX & hiX & HhX & HbX).
        destruct hX as [|hX]; [lia|].
        inversion HbX as [|? ? ? ? ? HokX HchildX]; subst.
        pose proof (HchildX i Hi0 Hi1) as H1. rewrite Heq in H1.
        pose proof (btree_height_unique _ _ _ _ _ _ _ _ _ _ _ H1 (Hchild j Hj0 Hj1)).
        lia.
    + intros X [->|HX]%elem_of_cons.
      * exists (S h), (hd INVALID_PAGE_ID anc), lo, hi. split; [lia|done].
      * destruct (Hanc _ HX) as (hX & pX & loX & hiX & HhX & HbX).
        exists hX, pX, loX, hiX. split; [lia|done].
    + exists chain, L, lo', hi'. split_and!; [done|by rewrite Htop, top_cons|].
      rewrite Hlen. simpl. lia.
Qed.

(** ** Slot arrays *)

Lemma slot_neg (a : list (Z * Z)) (i : Z) : i < 0 → slot a i = (0, 0).
Proof. intros Hi. unfold slot. by rewrite (proj2 (Z.ltb_lt _ _) Hi). Qed.

Lemma slot_nth (a : list (Z * Z)) (i : Z) : 0 ≤ i → slot a i = nth (Z.to_nat i) a (0, 0).
Proof. intros Hi. unfold slot. by rewrite (proj2 (Z.ltb_ge _ _) Hi). Qed.

Lemma slot_nil (i : Z) : slot [] i = (0, 0).
Proof. unfold slot. destruct (i <? 0); [done|]. by destruct (Z.to_nat i). Qed.

Lemma length_live (n : Z) (a : list (Z * Z)) : length (live n a) = Z.to_nat n.
Proof. unfold live. rewrite length_map, length_range. f_equal. lia. Qed.

Lemma slot_lookup (a : list (Z * Z)) (i : Z) (x : Z * Z) :
  0 ≤ i → a !! Z.to_nat i = Some x → slot a i = x.
Proof. intros Hi Hx. rewrite slot_nth by done. by apply nth_lookup_Some with (d := (0, 0)) in Hx. Qed.

Lemma slot_live (n : Z) (a : list (Z * Z)) (i : Z) : 0 ≤ i → i < n → slot (live n a) i = slot a i.
Proof. intros Hi Hn. apply slot_lookup; [done|]. by apply lookup_live. Qed.

Lemma slot_app_l (a b : list (Z * Z)) (i : Z) :
  i < Z.of_nat (length a) → slot (a ++ b) i = slot a i.
Proof.
  intros Hi. destruct (decide (i < 0)); [by rewrite !slot_neg|].
  rewrite !slot_nth by lia. apply app_nth1. lia.
Qed.

Lemma slot_app_r (a b : list (Z * Z)) (i : Z) :
  Z.of_nat (length a) ≤ i → slot (a ++ b) i = slot b (i - Z.of_nat (length a)).
Proof.
  intros Hi. rewrite !slot_nth by lia. rewrite app_nth2 by lia. f_equal. lia.
Qed.

Lemma slot_cons_0 (x : Z * Z) (a : list (Z * Z)) : slot (x :: a) 0 = x.
Proof. done. Qed.

Lemma slot_cons_S (x : Z * Z) (a : list (Z * Z)) (i : Z) : 0 < i → slot (x :: a) i = slot a (i - 1).
Proof.
  intros Hi. rewrite !slot_nth by lia.
  replace (Z.to_nat i) with (S (Z.to_nat (i - 1))) by lia. done.
Qed.

Lemma slot_take (a : list (Z * Z)) (n : nat) (i : Z) :
  i < Z.of_nat n → slot (take n a) i = slot a i.
Proof.
  intros Hi. destruct (decide (i < 0)); [by rewrite !slot_neg|].
  rewrite !slot_nth by lia.
  destruct (decide (Z.to_nat i < length a)%nat) as [Hlt|Hge].
  - destruct (lookup_lt_is_Some_2 a (Z.to_nat i) Hlt) as [x Hx].
    rewrite (nth_lookup_Some _ _ _ _ Hx).
    apply nth_lookup_Some. rewrite lookup_take_lt by lia. done.
  - rewrite !nth_overflow; [done|lia|]. rewrite length_take. lia.
Qed.

Lemma slot_drop (a : list (Z * Z)) (n : nat) (i : Z) :
  0 ≤ i → slot (drop n a) i = slot a (i + Z.of_nat n).
Proof.
  intros Hi. rewrite !slot_nth by lia.
  replace (Z.to_nat (i + Z.of_nat n)) with (n + Z.to_nat i)%nat by lia.
  destruct (decide (n + Z.to_nat i < length a)%nat) as [Hlt|Hge].
  - destruct (lookup_lt_is_Some_2 a _ Hlt) as [x Hx].
    rewrite (nth_lookup_Some _ _ _ _ Hx).
    apply nth_lookup_Some. by rewrite lookup_drop.
  - rewrite !nth_overflow; [done|lia|]. rewrite length_drop. lia.
Qed.

(** The slots of a list with [x] put in at position [pos]. *)
Lemma slot_insert_at (a : list (Z * Z)) (pos : nat) (x : Z * Z) (i : Z) :
  (pos ≤ length a)%nat →
  slot (take pos a ++ x :: drop pos a) i =
    if decide (i < Z.of_nat pos) then slot a i
    else if decide (i = Z.of_nat pos) then x
    else slot a (i - 1).
Proof.
  intros Hpos. destruct (decide (i < Z.of_nat pos)) as [Hlt|Hge].
  - rewrite slot_app_l by (rewrite length_take; lia). apply slot_take. lia.
  - rewrite slot_app_r by (rewrite length_take; lia). rewrite length_take.
    replace (pos `min` length a)%nat with pos by lia.
    destruct (decide (i = Z.of_nat pos)) as [->|Hne].
    + by rewrite Z.sub_diag.
    + rewrite slot_cons_S by lia. rewrite slot_drop by lia. f_equal. lia.
Qed.

Lemma slot_delete (a : list (Z * Z)) (pos : nat) (i : Z) :
  slot (delete pos a) i = if decide (i < Z.of_nat pos) then slot a i else slot a (i + 1).
Proof.
  destruct (decide (i < 0)) as [Hneg|Hnn].
  { rewrite slot_neg by done. destruct (decide _); [by rewrite slot_neg|lia]. }
  rewrite delete_take_drop. destruct (decide (i < Z.of_nat pos)) as [Hlt|Hge].
  - destruct (decide (pos ≤ length a)%nat).
    + rewrite slot_app_l by (rewrite length_take; lia). apply slot_take. lia.
    + rewrite drop_ge, app_nil_r by lia. by rewrite take_ge by lia.
  - destruct (decide (pos ≤ length a)%nat).
    + rewrite slot_app_r by (rewrite length_take; lia). rewrite length_take.
      replace (pos `min` length a)%nat with pos by lia.
      rewrite slot_drop by lia. f_equal. lia.
    + rewrite drop_ge, app_nil_r by lia. rewrite take_ge by lia.
      rewrite !slot_nth by lia. rewrite !nth_overflow; [done|lia|lia].
Qed.

Lemma slot_set_slot (a : list (Z * Z)) (i j : Z) (x : Z * Z) :
  0 ≤ i → slot (set_slot i x a) j = if decide (j = i) then x else slot a j.
Proof.
  intros Hi. unfold set_slot. rewrite (proj2 (Z.ltb_ge _ _) Hi).
  set (a' := a ++ replicate (S (Z.to_nat i) - length a) (0, 0)).
  assert (Hlen : (Z.to_nat i < length a')%nat).
  { unfold a'. rewrite length_app, length_replicate. lia. }
  assert (Ha' : ∀ j, slot a' j = slot a j).
  { intros j'. destruct (decide (j' < 0)); [by rewrite !slot_neg|].
    unfold a'. destruct (decide (j' < Z.of_nat (length a))).
    - by apply slot_app_l.
    - rewrite slot_app_r by lia. rewrite (slot_nth a) by lia.
      rewrite (nth_overflow a) by lia. rewrite slot_nth by lia.
      destruct (decide (Z.to_nat (j' - Z.of_nat (length a)) <
                        S (Z.to_nat i) - length a)%nat).
      + apply nth_lookup_Some. by apply lookup_replicate_2.
      + apply nth_overflow. rewrite length_replicate. lia. }
  destruct (decide (j = i)) as [->|Hne].
  - apply slot_lookup; [done|]. by apply list_lookup_insert_eq.
  - rewrite <- Ha'. destruct (decide (j < 0)); [by rewrite !slot_neg|].
    rewrite !slot_nth by lia.
    destruct (decide (Z.to_nat j < length a')%nat) as [Hlt|Hge].
    + destruct (lookup_lt_is_Some_2 a' _ Hlt) as [y Hy].
      rewrite (nth_lookup_Some _ _ _ _ Hy). apply nth_lookup_Some.
      rewrite list_lookup_insert_ne by lia. done.
    + rewrite !nth_overflow; [done|lia|]. rewrite length_insert. lia.
Qed.

Lemma slot_std_copy (src dst : list (Z * Z)) (from to : Z) (j : Z) :
  0 ≤ from →
  slot (std_copy src from to dst) j =
    if decide (0 ≤ j ∧ j < to - from) then slot src (j + from) else slot dst j.
Proof.
  intros Hfrom. unfold std_copy.
  assert (Hgen : ∀ (l : list Z) d,
    (∀ i, i ∈ l → from ≤ i) → NoDup l →
    slot (foldl (λ d i, set_slot (i - from) (slot src i) d) d l) j =
      if decide (j + from ∈ l) then slot src (j + from) else slot d j).
  { induction l as [|i l IH]; intros d Hl Hnd; simpl.
    - done.
    - apply NoDup_cons in Hnd as [Hi Hnd].
      rewrite IH; [|intros i' Hi'; apply Hl; by right|done].
      destruct (decide (j + from ∈ l)) as [Hin|Hnin].
      + rewrite decide_True; [done|by right].
      + rewrite slot_set_slot by (specialize (Hl i ltac:(left)); lia).
        destruct (decide (j = i - from)) as [->|Hne].
        * rewrite decide_True; [f_equal; lia|]. replace (i - from + from) with i by lia. by left.
        * rewrite decide_False; [done|]. intros [Heq|Hin]%elem_of_cons; [lia|done]. }
  rewrite Hgen.
  - destruct (decide (j + from ∈ range from to)) as [Hin%elem_of_range|Hnin];
      destruct (decide (0 ≤ j ∧ j < to - from)) as [Hj|Hj]; try done; try lia.
    exfalso. apply Hnin. apply elem_of_range. lia.
  - intros i Hi%elem_of_range. lia.
  - unfold range. apply NoDup_fmap_2; [intros x y; lia|apply NoDup_seq].
Qed.

(** ** Insertion into a leaf page *)

Lemma Leaf_Search_absent (n : BPlusTreePage.t) (key : Z) :
  BPlusTreeLeafPage.Search key n = -1 ↔
  ∀ i, 0 ≤ i → i < BPlusTreePage.size_ n → BPlusTreeLeafPage.KeyAt n i ≠ key.
Proof.
  unfold BPlusTreeLeafPage.Search.
  destruct (list_find _ _) as [[k i]|] eqn:Hf.
  - apply list_find_Some in Hf as (Hk & Heq & _).
    apply lookup_range in Hk as [-> Hk]. apply (proj1 (comparator_0 _ _)) in Heq.
    split; [lia|]. intros Habs. exfalso. apply (Habs (0 + Z.of_nat k)); [lia|lia|done].
  - apply list_find_None in Hf. rewrite Forall_forall in Hf.
    split; [|done]. intros _ i Hi0 Hi1 Heq.
    apply (Hf i); [apply elem_of_range; lia|]. by apply comparator_0.
Qed.

(** A key that the leaf holds is not inserted again. *)
Lemma Leaf_Insert_dup (n : BPlusTreePage.t) (key value i : Z) :
  0 ≤ i → i < BPlusTreePage.size_ n → BPlusTreeLeafPage.KeyAt n i = key →
  BPlusTreeLeafPage.Insert key value n = (false, n).
Proof.
  intros Hi0 Hi1 Heq. unfold BPlusTreeLeafPage.Insert.
  rewrite bool_decide_eq_false_2; [done|].
  rewrite Leaf_Search_absent. intros Habs. by apply (Habs i).
Qed.

(** A new key goes to its place in the order of the keys. *)
Lemma Leaf_Insert_new (n n' : BPlusTreePage.t) (key value : Z) :
  0 ≤ BPlusTreePage.size_ n → leaf_sorted n →
  BPlusTreeLeafPage.Insert key value n = (true, n') →
  ∃ pos, 0 ≤ pos ∧ pos ≤ BPlusTreePage.size_ n ∧
    n' = BPlusTreePage.IncreaseSize 1 (BPlusTreePage.SetArray (BPlusTreePage.array_ n') n) ∧
    (∀ i, 0 ≤ i → i < pos → BPlusTreeLeafPage.KeyAt n i < key) ∧
    (∀ i, pos ≤ i → i < BPlusTreePage.size_ n → key < BPlusTreeLeafPage.KeyAt n i) ∧
    (∀ i, 0 ≤ i → i ≤ BPlusTreePage.size_ n →
          slot (BPlusTreePage.array_ n') i =
            if decide (i < pos) then slot (BPlusTreePage.array_ n) i
            else if decide (i = pos) then (key, value)
            else slot (BPlusTreePage.array_ n) (i - 1)).
Proof.
  intros Hsz Hsorted. unfold BPlusTreeLeafPage.Insert.
  destruct (bool_decide _) eqn:Hs; [|done].
  apply bool_decide_eq_true in Hs. rewrite Leaf_Search_absent in Hs.
  set (es := live (BPlusTreePage.size_ n) (BPlusTreePage.array_ n)).
  assert (Hlen : length es = Z.to_nat (BPlusTreePage.size_ n)) by apply length_live.
  assert (Hes : ∀ i, 0 ≤ i → i < BPlusTreePage.size_ n →
                     slot es i = slot (BPlusTreePage.array_ n) i) by (intros; by apply slot_live).
  destruct (list_find _ es) as [[p e]|] eqn:Hf; intros [= <-].
  - apply list_find_Some in Hf as (Hp & Hgt & Hbefore).
    apply comparator_1 in Hgt.
    assert (Hplt : (p < length es)%nat) by (by eapply lookup_lt_Some).
    assert (Hpe : slot (BPlusTreePage.array_ n) (Z.of_nat p) = e).
    { rewrite <- Hes by lia. apply slot_lookup; [lia|]. by rewrite Nat2Z.id. }
    exists (Z.of_nat p). split_and!; [lia|lia|done| | |].
    + intros i Hi0 Hi1.
      assert (Hl : es !! Z.to_nat i = Some (slot (BPlusTreePage.array_ n) i))
        by (apply lookup_live; lia).
      specialize (Hbefore _ _ Hl ltac:(lia)). rewrite comparator_1 in Hbefore.
      specialize (Hs i Hi0 ltac:(lia)).
      unfold BPlusTreeLeafPage.KeyAt in *. lia.
    + intros i Hi0 Hi1. destruct (decide (i = Z.of_nat p)) as [->|Hne].
      * unfold BPlusTreeLeafPage.KeyAt. rewrite Hpe. lia.
      * specialize (Hsorted (Z.of_nat p) i ltac:(lia) ltac:(lia) Hi1).
        unfold BPlusTreeLeafPage.KeyAt in *. rewrite Hpe in Hsorted. lia.
    + intros i Hi0 Hi1. simpl. rewrite slot_insert_at by lia.
      repeat destruct (decide _); try done; try lia; apply Hes; lia.
  - apply list_find_None in Hf. rewrite Forall_forall in Hf.
    exists (BPlusTreePage.size_ n). split_and!; [lia|lia|done| |lia|].
    + intros i Hi0 Hi1.
      assert (Hin : slot (BPlusTreePage.array_ n) i ∈ es)
        by (apply elem_of_live; exists i; split; [lia|done]).
      apply Hf in Hin. rewrite comparator_1 in Hin.
      specialize (Hs i Hi0 Hi1). unfold BPlusTreeLeafPage.KeyAt in *. lia.
    + intros i Hi0 Hi1. simpl. rewrite slot_insert_at by lia. rewrite Hlen.
      repeat destruct (decide _); try done; try lia. apply Hes; lia.
Qed.

(** After the insertion the leaf is well formed and holds the key. *)
Lemma Leaf_Insert_ok σ bound parent lo hi L key value n' :
  leaf_ok σ bound parent lo hi L → in_window lo hi key →
  BPlusTreeLeafPage.Insert key value (σ L) = (true, n') →
  leaf_ok (upd L n' σ) bound parent lo hi L ∧ leaf_has n' key value ∧
  BPlusTreePage.size_ n' = BPlusTreePage.size_ (σ L) + 1 ∧
  BPlusTreePage.max_size_ n' = BPlusTreePage.max_size_ (σ L) ∧
  BPlusTreePage.next_page_id_ n' = BPlusTreePage.next_page_id_ (σ L).
Proof.
  intros Hok Hw Hins. destruct_leaf Hok.
  destruct (Leaf_Insert_new _ _ _ _ Hsz Hsorted Hins)
    as (pos & Hp0 & Hp1 & Hn' & Hlt & Hgt & Hslots).
  assert (Hkey : ∀ i, 0 ≤ i → i ≤ BPlusTreePage.size_ (σ L) →
            BPlusTreeLeafPage.KeyAt n' i =
              if decide (i < pos) then BPlusTreeLeafPage.KeyAt (σ L) i
              else if decide (i = pos) then key
              else BPlusTreeLeafPage.KeyAt (σ L) (i - 1)).
  { intros i Hi0 Hi1. unfold BPlusTreeLeafPage.KeyAt. rewrite Hslots by done.
    by repeat destruct (decide _). }
  assert (Hsize : BPlusTreePage.size_ n' = BPlusTreePage.size_ (σ L) + 1) by (by rewrite Hn').
  split_and!; [| |done|by rewrite Hn'|by rewrite Hn'].
  2:{ exists pos. split_and!; [lia|lia|]. rewrite Hslots by lia.
      rewrite decide_False by lia. by rewrite decide_True. }
  unfold leaf_ok. rewrite upd_eq.
  split_and!; try done; try (by rewrite Hn'); [lia| |].
  - intros i j Hi Hij Hj. rewrite !Hkey by lia.
    repeat destruct (decide _); try lia.
    + apply Hsorted; lia.
    + apply Hlt; lia.
    + specialize (Hlt i ltac:(lia) ltac:(lia)). specialize (Hgt (j - 1) ltac:(lia) ltac:(lia)). lia.
    + apply Hgt; lia.
    + apply Hsorted; lia.
  - intros i Hi0 Hi1. rewrite Hkey by lia.
    repeat destruct (decide _); try done; apply Hwin; lia.
Qed.

(** ** Insertion into an internal page *)

(** The new separator goes right behind the slot that the search for it
    follows. *)
Lemma Internal_Insert_slots (n : BPlusTreePage.t) (key pid j : Z) :
  0 ≤ BPlusTreePage.size_ n → keys_sorted n → largest_index_le n key j →
  let n' := BPlusTreeInternalPage.Insert key pid n in
  n' = BPlusTreePage.IncreaseSize 1 (BPlusTreePage.SetArray (BPlusTreePage.array_ n') n) ∧
  ∀ i, 0 ≤ i → i ≤ BPlusTreePage.size_ n + 1 →
       slot (BPlusTreePage.array_ n') i =
         if decide (i ≤ j) then slot (BPlusTreePage.array_ n) i
         else if decide (i = j + 1) then (key, pid)
         else slot (BPlusTreePage.array_ n) (i - 1).
Proof.
  intros Hsz Hsorted ([Hj0 Hj1] & Hle & Hgt) n'. subst n'.
  unfold BPlusTreeInternalPage.Insert.
  set (sl := BPlusTreeInternalPage.slots n).
  assert (Hlen : length sl = Z.to_nat (BPlusTreePage.size_ n + 1)) by apply length_live.
  assert (Hsl : ∀ i, 0 ≤ i → i < BPlusTreePage.size_ n + 1 →
                     slot sl i = slot (BPlusTreePage.array_ n) i) by (intros; by apply slot_live).
  set (pos := match list_find _ _ with Some (_, i) => Z.to_nat i | None => length sl end).
  assert (Hpos : pos = Z.to_nat (j + 1)).
  { unfold pos. destruct (list_find _ _) as [[p i]|] eqn:Hf.
    - apply list_find_Some in Hf as (Hp & Hi & Hbefore).
      apply lookup_range in Hp as [-> Hp]. apply comparator_1 in Hi.
      f_equal. destruct (Z.lt_trichotomy (1 + Z.of_nat p) (j + 1)) as [Hlt|[Heq|Hgt']]; [|done|].
      + exfalso. specialize (Hsorted (1 + Z.of_nat p) j). destruct Hle; lia.
      + exfalso. assert (Hl : range 1 (BPlusTreePage.size_ n + 1) !! Z.to_nat j = Some (j + 1)).
        { apply lookup_range. lia. }
        specialize (Hbefore _ _ Hl ltac:(lia)). rewrite comparator_1 in Hbefore.
        specialize (Hgt (j + 1)). lia.
    - apply list_find_None in Hf. rewrite Forall_forall in Hf. rewrite Hlen. f_equal.
      destruct (decide (j = BPlusTreePage.size_ n)) as [->|Hne]; [done|].
      exfalso. assert (Hin : j + 1 ∈ range 1 (BPlusTreePage.size_ n + 1))
        by (apply elem_of_range; lia).
      apply Hf in Hin. rewrite comparator_1 in Hin. specialize (Hgt (j + 1)). lia. }
  split; [done|]. intros i Hi0 Hi1. simpl. rewrite slot_insert_at by lia. rewrite Hpos.
  repeat destruct (decide _); try done; try lia; apply Hsl; lia.
Qed.

Lemma Internal_Insert_keys (n : BPlusTreePage.t) (key pid j i : Z) :
  0 ≤ BPlusTreePage.size_ n → keys_sorted n → largest_index_le n key j →
  0 ≤ i → i ≤ BPlusTreePage.size_ n + 1 →
  BPlusTreeInternalPage.KeyAt (BPlusTreeInternalPage.Insert key pid n) i =
    if decide (i ≤ j) then BPlusTreeInternalPage.KeyAt n i
    else if decide (i = j + 1) then key
    else BPlusTreeInternalPage.KeyAt n (i - 1).
Proof.
  intros Hsz Hsorted Hj Hi0 Hi1. unfold BPlusTreeInternalPage.KeyAt.
  rewrite (proj2 (Internal_Insert_slots n key pid j Hsz Hsorted Hj)) by done.
  by repeat destruct (decide _).
Qed.

Lemma Internal_Insert_values (n : BPlusTreePage.t) (key pid j i : Z) :
  0 ≤ BPlusTreePage.size_ n → keys_sorted n → largest_index_le n key j →
  0 ≤ i → i ≤ BPlusTreePage.size_ n + 1 →
  BPlusTreeInternalPage.ValueAt (BPlusTreeInternalPage.Insert key pid n) i =
    if decide (i ≤ j) then BPlusTreeInternalPage.ValueAt n i
    else if decide (i = j + 1) then pid
    else BPlusTreeInternalPage.ValueAt n (i - 1).
Proof.
  intros Hsz Hsorted Hj Hi0 Hi1. unfold BPlusTreeInternalPage.ValueAt.
  rewrite (proj2 (Internal_Insert_slots n key pid j Hsz Hsorted Hj)) by done.
  by repeat destruct (decide _).
Qed.

Lemma Internal_Insert_header (n : BPlusTreePage.t) (key pid : Z) :
  let n' := BPlusTreeInternalPage.Insert key pid n in
  BPlusTreePage.size_ n' = BPlusTreePage.size_ n + 1 ∧
  BPlusTreePage.page_type_ n' = BPlusTreePage.page_type_ n ∧
  BPlusTreePage.page_id_ n' = BPlusTreePage.page_id_ n ∧
  BPlusTreePage.parent_page_id_ n' = BPlusTreePage.parent_page_id_ n ∧
  BPlusTreePage.max_size_ n' = BPlusTreePage.max_size_ n.
Proof. done. Qed.

(** A page that takes a new separator strictly between its neighbours, with
    a new child, stays well formed. *)
Lemma Internal_Insert_ok σ bound bound' parent lo hi A key pid j :
  internal_ok σ bound parent lo hi A →
  largest_index_le (σ A) key j →
  (j = 0 ∨ BPlusTreeInternalPage.KeyAt (σ A) j < key) →
  between lo hi key → bound ≤ pid → pid < bound' →
  internal_ok (upd A (BPlusTreeInternalPage.Insert key pid (σ A)) σ) bound' parent lo hi A.
Proof.
  intros Hok Hj Hstrict Hbt Hpid Hpid'. destruct_internal Hok.
  pose proof (keys_increasing_sorted _ Hinc) as Hsorted.
  pose proof Hj as ([Hj0 Hj1] & Hle & Hgt).
  pose proof (Internal_Insert_header (σ A) key pid) as (Hs' & Hty' & Hid' & Hpar' & _).
  unfold internal_ok. rewrite upd_eq. rewrite Hs', Hty', Hid', Hpar'.
  split_and!; try done; try lia.
  - intros i i' Hi Hii' Hi'. unfold keys_increasing in Hinc. rewrite Hs' in Hi'.
    rewrite !(Internal_Insert_keys _ _ _ j) by (done || lia).
    repeat destruct (decide _); try lia.
    + apply Hinc; lia.
    + specialize (Hsorted i j). lia.
    + specialize (Hgt (i' - 1)). specialize (Hsorted i j). lia.
    + apply Hgt; lia.
    + apply Hinc; lia.
  - intros i Hi0 Hi1. rewrite (Internal_Insert_keys _ _ _ j) by (done || lia).
    repeat destruct (decide _); try done; apply Hwin; lia.
  - intros i Hi0 Hi1. rewrite (Internal_Insert_values _ _ _ j) by (done || lia).
    repeat destruct (decide _); try lia.
    + specialize (Hch i). lia.
    + specialize (Hch (i - 1)). lia.
  - intros i i' Hi0 Hi1 Hi0' Hi1'. rewrite !(Internal_Insert_values _ _ _ j) by (done || lia).
    repeat destruct (decide _); try lia; intros Heq.
    + apply Hinj; (done || lia).
    + specialize (Hch i). lia.
    + specialize (Hinj i (i' - 1)). lia.
    + specialize (Hch i'). lia.
    + specialize (Hch (i' - 1)). lia.
    + specialize (Hinj (i - 1) i'). lia.
    + specialize (Hch (i - 1)). lia.
    + specialize (Hinj (i - 1) (i' - 1)). lia.
Qed.

(** Where the search for [k] goes after the page took the separator [key]
    behind the slot [j] that both keys followed. *)
Lemma Internal_Insert_index (n : BPlusTreePage.t) (key pid j k : Z) :
  0 ≤ BPlusTreePage.size_ n → keys_sorted n →
  largest_index_le n key j → largest_index_le n k j →
  largest_index_le (BPlusTreeInternalPage.Insert key pid n) k (if decide (k < key) then j else j + 1).
Proof.
  intros Hsz Hsorted Hj Hk.
  pose proof Hj as ([Hj0 Hj1] & Hle & Hgt). pose proof Hk as (_ & Hkle & Hkgt).
  pose proof (Internal_Insert_header n key pid) as (Hs' & _).
  unfold largest_index_le. rewrite Hs'.
  destruct (decide (k < key)) as [Hlt|Hge].
  - split_and!; [lia|lia| |].
    + destruct Hkle as [->|Hkle]; [by left|right].
      rewrite (Internal_Insert_keys _ _ _ j) by (done || lia). by rewrite decide_True by lia.
    + intros i Hi0 Hi1. rewrite (Internal_Insert_keys _ _ _ j) by (done || lia).
      repeat destruct (decide _); try lia. apply Hkgt; lia.
  - split_and!; [lia|lia| |].
    + right. rewrite (Internal_Insert_keys _ _ _ j) by (done || lia).
      rewrite decide_False by lia. rewrite decide_True by lia. lia.
    + intros i Hi0 Hi1. rewrite (Internal_Insert_keys _ _ _ j) by (done || lia).
      repeat destruct (decide _); try lia. apply Hkgt; lia.
Qed.

(** ** Fetching pages from an idle pool *)

Lemma acquire_frame_room (b : BPM.t) : pool_wf b → has_room b → is_Some (acquire_frame b).
Proof.
  intros Hwf Hroom. unfold acquire_frame.
  destruct (last (BPM.free_list_ b)) as [f|] eqn:Hlast; [done|].
  apply last_None_nil in Hlast.
  destruct Hroom as [Hfree|(pid & f & Hpid & Hpin)]; [done|].
  destruct (wf_table _ _ Hwf _ _ Hpid) as (_ & _ & _ & _ & _ & e & He & Hev).
  destruct (LRUKReplacer.Evict (BPM.replacer_ b)) as [[g|] r] eqn:HE; [done|].
  exfalso. assert (Hnone : (LRUKReplacer.Evict (BPM.replacer_ b)).1 = None) by (by rewrite HE).
  apply Evict_None in Hnone. apply Hnone. exists f, e. split; [done|]. by apply Hev.
Qed.

Lemma FetchPgImp_room (b : BPM.t) (pid : Z) :
  pool_wf b → has_room b → is_Some (BPM.FetchPgImp pid b).1.
Proof.
  intros Hwf Hroom. destruct (BPM.page_table_ b !! pid) as [f|] eqn:Hpid.
  - unfold BPM.FetchPgImp. by rewrite Hpid.
  - rewrite FetchPgImp_acquire by done.
    destruct (acquire_frame_room b Hwf Hroom) as [[f b1] ->]. done.
Qed.

Lemma GetPage_room (tr : t) (pid : Z) :
  tree_pool_wf tr → has_room (buffer_pool_manager_ tr) →
  ∃ p tr', GetPage pid tr = Done p tr'.
Proof.
  intros Hwf Hroom. unfold GetPage. rewrite run_bind, run_pool.
  destruct (FetchPgImp_room _ pid Hwf Hroom) as [f Hf]. rewrite Hf. simpl. eauto.
Qed.

(** Unpinning the last pin of a page leaves a frame that can be handed
    out. *)
Lemma UnpinPage_room (tr tr' : t) (p : nat) (pid : Z) (is_dirty : bool) :
  tree_pool_wf tr → holds tr p pid → pins tr pid = 1 →
  (is_dirty = false → unpin_safe (buffer_pool_manager_ tr) pid) →
  UnpinPage pid is_dirty tr = Done () tr' →
  has_room (buffer_pool_manager_ tr').
Proof.
  intros Hwf [Hp Hpos] Hpin Hsafe. rewrite run_UnpinPage. intros [= <-]. simpl.
  destruct (UnpinPgImp_spec _ pid is_dirty Hwf Hsafe) as (_ & _ & Htab & _ & Hpins).
  right. exists pid, p. rewrite Htab. split; [done|].
  rewrite <- (pin_count_of_resident _ pid) by (by rewrite Htab).
  rewrite Hpins. unfold pins in Hpin. rewrite Hpin. rewrite decide_True; [lia|]. split; [done|lia].
Qed.

Lemma FindLeafPage_loop_progress (key : Z) (fuel : nat) :
  ∀ (tr : t) σ π c n curr pid,
  St tr σ π c n [(curr, pid)] →
  unpin_safe (buffer_pool_manager_ tr) pid →
  path_ok σ n fuel key pid →
  π pid = 1 → (∀ q, HEADER_PAGE_ID < q → q ≠ pid → π q = 0) →
  ∃ leaf tr', FindLeafPage_loop fuel key curr tr = Done leaf tr'.
Proof.
  induction fuel as [|fuel IH]; intros tr σ π c n curr pid HSt Hsafe Hpath Hpin Hidle; [done|].
  destruct Hpath as (Hhdr & Hlt & Hid & Hcase).
  assert (Hnode : node_at tr curr = σ pid) by (apply (St_load _ _ _ _ _ _ _ _ HSt); left).
  cbn [FindLeafPage_loop]. rewrite run_bind, run_load, Hnode.
  destruct Hcase as [Hleaf|[Hleaf Hpath]]; rewrite Hleaf; [by eauto|].
  unfold BPlusTreePage.GetPageId. rewrite Hid, run_bind.
  destruct (UnpinPage pid false tr) as [[] tr1| |] eqn:Hun;
    [|by rewrite run_UnpinPage in Hun..].
  assert (Hroom : has_room (buffer_pool_manager_ tr1)).
  { eapply (UnpinPage_room tr tr1 curr pid false); try done.
    - apply HSt.
    - apply (st_holds _ _ _ _ _ _ HSt). left.
    - by rewrite (st_pins _ _ _ _ _ _ HSt). }
  eapply (St_UnpinPage _ _ _ _ _ _ _ []) in Hun;
    [|exact HSt|left|by intros _|by intros x X HX%elem_of_nil].
  assert (Hc : HEADER_PAGE_ID < next_page_id_of (σ pid) key ∧ next_page_id_of (σ pid) key < n)
    by (destruct fuel; [done|by destruct Hpath as (? & ? & _)]).
  set (cid := next_page_id_of (σ pid) key) in *.
  destruct (GetPage_room tr1 cid (st_wf _ _ _ _ _ _ Hun) Hroom) as (child & tr2 & Hget).
  rewrite run_bind, Hget.
  destruct (St_GetPage _ _ _ _ _ _ _ _ _ Hun (proj2 Hc) Hget) as [HSt2 Hsafe2].
  eapply IH; [exact HSt2|exact Hsafe2|exact Hpath| |].
  - clearbody cid. rewrite upd_eq. unfold upd. destruct (decide (cid = pid)); [lia|].
    rewrite Hidle by (done || lia). lia.
  - intros q Hq Hne. clearbody cid. rewrite upd_ne by done. unfold upd.
    destruct (decide (q = pid)); [lia|]. by apply Hidle.
Qed.

(** From an idle pool, [FindLeafPage] returns the leaf of the search rule,
    pinned once. *)
Lemma FindLeafPage_idle (key : Z) (fuel : nat) (tr : t) :
  pool_idle tr → path_ok (node_of tr) (next_id tr) fuel key (root_page_id_ tr) →
  ∃ leaf tr' L,
    FindLeafPage fuel key tr = Done leaf tr' ∧
    find_leaf (node_of tr) fuel key (root_page_id_ tr) = Some L ∧
    St tr' (node_of tr) (upd L 1 (pins tr)) (cfg tr) (next_id tr) [(leaf, L)] ∧
    unpin_safe (buffer_pool_manager_ tr') L.
Proof.
  intros (Hwf & Hroom & Hhdr & Hidle) Hpath.
  pose proof (St_initial tr Hwf) as HSt.
  assert (Hroot : HEADER_PAGE_ID < root_page_id_ tr ∧ root_page_id_ tr < next_id tr)
    by (destruct fuel; [done|by destruct Hpath as (? & ? & _)]).
  destruct (GetPage_room tr (root_page_id_ tr) Hwf Hroom) as (curr & tr1 & Hget).
  destruct (St_GetPage _ _ _ _ _ _ _ _ _ HSt (proj2 Hroot) Hget) as [HSt1 Hsafe1].
  assert (Hr0 : pins tr (root_page_id_ tr) = 0) by (apply Hidle; unfold HEADER_PAGE_ID in *; lia).
  destruct (FindLeafPage_loop_progress key fuel _ _ _ _ _ _ _ HSt1 Hsafe1 Hpath)
    as (leaf & tr' & Hloop).
  { rewrite upd_eq. lia. }
  { intros q Hq Hne. rewrite upd_ne by done. apply Hidle. unfold HEADER_PAGE_ID in *. lia. }
  assert (Hrun : FindLeafPage fuel key tr = Done leaf tr').
  { unfold FindLeafPage. by rewrite run_bind, run_get, run_bind, Hget. }
  exists leaf, tr'. unfold cfg in HSt.
  destruct (St_FindLeafPage key fuel tr tr' _ _ _ _ _ _ _ _ leaf HSt Hpath Hrun)
    as (L & Hfind & HSt' & Hsafe').
  exists L. split_and!; try done.
  eapply St_ext; [exact HSt'|done| |done].
  intros q. assert (HL : HEADER_PAGE_ID < L → pins tr L = 0)
    by (intros; apply Hidle; unfold HEADER_PAGE_ID in *; lia).
  destruct (decide (q = L)) as [->|Hne]; [|by rewrite !upd_ne].
  rewrite !upd_eq.
  assert (HEADER_PAGE_ID < L); [|lia].
  clear -Hpath Hfind. revert Hpath Hfind. generalize (root_page_id_ tr) as pid.
  induction fuel as [|fuel IH]; intros pid Hpath Hfind; [done|].
  cbn [path_ok find_leaf] in *. destruct Hpath as (Hh & _ & _ & [Hl|[Hl Hp]]); rewrite Hl in Hfind.
  - by injection Hfind as <-.
  - by eapply IH.
Qed.

Lemma find_leaf_path σ bound key (fuel : nat) :
  ∀ pid L, path_ok σ bound fuel key pid → find_leaf σ fuel key pid = Some L →
  BPlusTreePage.IsLeafPage (σ L) = true ∧ BPlusTreePage.page_id_ (σ L) = L ∧
  HEADER_PAGE_ID < L ∧ L < bound.
Proof.
  induction fuel as [|fuel IH]; intros pid L Hpath Hfind; [done|].
  cbn [path_ok find_leaf] in *.
  destruct Hpath as (Hh & Hb & Hid & [Hl|[Hl Hp]]); rewrite Hl in Hfind.
  - by injection Hfind as <-.
  - by eapply IH.
Qed.

(** Writing back what a tree page holds changes nothing. *)
Lemma poke_same (tr : t) (p : nat) (pid : Z) :
  tree_pool_wf tr → holds tr p pid →
  BPlusTreePage.page_type_ (node_at tr p) ≠ INVALID_INDEX_PAGE →
  poke p (λ _, node_at tr p) tr = tr.
Proof.
  intros Hwf [Hp _] Hty. unfold poke, node_at in *.
  destruct (wf_table _ _ Hwf _ _ Hp) as (Hlen & _).
  destruct tr as [name root b lmax imax]. simpl in *. unfold set_buffer_pool_manager. simpl.
  f_equal. unfold BPM.upd_frame, BPM.frame in *.
  destruct (lookup_lt_is_Some_2 _ _ Hlen) as [pg Hpg]. rewrite Hpg in *. simpl in *.
  destruct pg as [[n|recs] id pc d]; simpl in *; [|done].
  unfold Page.set_data. simpl. rewrite list_insert_id by done. by destruct b.
Qed.

(** The leaf of a search holds at most one value for a key. *)
Lemma leaf_has_unique (n : BPlusTreePage.t) (key v v' : Z) :
  leaf_sorted n → leaf_has n key v → (key, v') ∈ entries n → v' = v.
Proof.
  intros Hsorted (i & Hi0 & Hi1 & Hi) (j & Hj & Hj')%elem_of_live.
  destruct (Z.lt_trichotomy i j) as [Hlt|[->|Hgt]].
  - specialize (Hsorted i j ltac:(lia) Hlt ltac:(lia)).
    unfold BPlusTreeLeafPage.KeyAt in Hsorted. rewrite Hi, <- Hj' in Hsorted. simpl in *. lia.
  - congruence.
  - specialize (Hsorted j i ltac:(lia) Hgt ltac:(lia)).
    unfold BPlusTreeLeafPage.KeyAt in Hsorted. rewrite Hi, <- Hj' in Hsorted. simpl in *. lia.
Qed.

Lemma leaf_has_entries (n : BPlusTreePage.t) (key v : Z) : leaf_has n key v → (key, v) ∈ entries n.
Proof. intros (i & Hi0 & Hi1 & Hi). apply elem_of_live. exists i. by split; [lia|]. Qed.

(** Releasing the leaf of a search gives back an idle pool over the same
    pages. *)
Lemma release_leaf (fuel : nat) (key value : Z) (tr tr1 tr2 : t) (leaf : nat) (L : Z)
    (is_dirty : bool) :
  found fuel key value tr →
  St tr1 (node_of tr) (upd L 1 (pins tr)) (cfg tr) (next_id tr) [(leaf, L)] →
  (is_dirty = false → unpin_safe (buffer_pool_manager_ tr1) L) →
  UnpinPage L is_dirty tr1 = Done () tr2 →
  found fuel key value tr2.
Proof.
  intros ((Hwf & Hroom & Hhdr & Hidle) & Hroot & Hpath & L' & Hfind & Hsorted & Hhas)
    HSt Hsafe Hun.
  assert (Hroom2 : has_room (buffer_pool_manager_ tr2)).
  { eapply (UnpinPage_room tr1 tr2 leaf L is_dirty); try done.
    - apply HSt.
    - apply (st_holds _ _ _ _ _ _ HSt). left.
    - by rewrite (st_pins _ _ _ _ _ _ HSt), upd_eq. }
  eapply (St_UnpinPage _ _ _ _ _ _ _ []) in Hun;
    [|exact HSt|left|done|by intros x X HX%elem_of_nil].
  destruct Hun as [Hwf2 Hnodes2 Hpins2 Hcfg2 Hnext2 _].
  assert (Hroot2 : root_page_id_ tr2 = root_page_id_ tr).
  { unfold cfg in Hcfg2. congruence. }
  assert (Hσ : ∀ q, node_of tr2 q = node_of tr q) by done.
  split_and!.
  - split_and!; [done|done|by rewrite Hnext2|].
    intros q Hq. rewrite Hpins2. destruct (decide (q = L)) as [->|].
    + rewrite !upd_eq. lia.
    + rewrite !upd_ne by done. by apply Hidle.
  - by rewrite Hroot2.
  - rewrite Hroot2, Hnext2. clear -Hpath Hσ. revert Hpath. generalize (root_page_id_ tr).
    induction fuel as [|fuel IH]; intros pid Hpath; [done|]. cbn [path_ok] in *.
    rewrite !Hσ. destruct Hpath as (? & ? & ? & [?|[? ?]]); split_and!; try done; [by left|right].
    split; [done|]. by apply IH.
  - exists L'. rewrite Hroot2, !Hσ. split_and!; try done.
    rewrite <- Hfind. clear -Hσ. generalize (root_page_id_ tr).
    induction fuel as [|fuel IH]; intros pid; [done|]. cbn [find_leaf]. by rewrite Hσ, IH.
Qed.

(** [GetValue] finds the value that the tree holds under a key. *)
Lemma GetValue_found (fuel : nat) (key value : Z) (result : list Z) (tr : t) :
  found fuel key value tr →
  ∃ tr', GetValue fuel key result tr = Done (true, result ++ [value]) tr' ∧
         found fuel key value tr'.
Proof.
  intros Hfound. pose proof Hfound as (Hidle & Hroot & Hpath & L' & Hfind' & Hsorted & Hhas).
  destruct (FindLeafPage_idle key fuel tr Hidle Hpath) as (leaf & tr1 & L & Hrun & Hfind & HSt & Hsafe).
  assert (L' = L) by congruence. subst L'.
  destruct (find_leaf_path _ _ _ _ _ _ Hpath Hfind) as (Hleaf & Hid & _).
  assert (Hnode : node_at tr1 leaf = node_of tr L) by (apply (St_load _ _ _ _ _ _ _ _ HSt); left).
  assert (Hne : IsEmpty tr = false).
  { unfold IsEmpty. apply Z.eqb_neq. done. }
  destruct (GetValue_at_leaf fuel key result tr tr1 leaf Hne Hrun) as (r & Hget & Hr).
  rewrite Hnode in Hget, Hr. unfold BPlusTreePage.GetPageId in Hget. rewrite Hid in Hget.
  exists (exec (UnpinPage L false) tr1). split.
  - rewrite Hget. f_equal. destruct Hr as [(v' & -> & Hv')|[_ Hnone]].
    + by rewrite (leaf_has_unique _ _ _ _ Hsorted Hhas Hv').
    + exfalso. apply (Hnone value). by apply leaf_has_entries.
  - eapply (release_leaf fuel key value tr tr1 _ leaf L false); try done.
    apply exec_UnpinPage.
Qed.

(** Inserting a key that the tree holds is refused and changes nothing. *)
Lemma Insert_found (fuel : nat) (key value value' : Z) (tr : t) :
  found fuel key value tr →
  ∃ tr', Insert fuel key value' tr = Done false tr' ∧ found fuel key value tr'.
Proof.
  intros Hfound. pose proof Hfound as (Hidle & Hroot & Hpath & L' & Hfind' & Hsorted & Hhas).
  destruct (FindLeafPage_idle key fuel tr Hidle Hpath) as (leaf & tr1 & L & Hrun & Hfind & HSt & Hsafe).
  assert (L' = L) by congruence. subst L'.
  destruct (find_leaf_path _ _ _ _ _ _ Hpath Hfind) as (Hleaf & Hid & _).
  assert (Hnode : node_at tr1 leaf = node_of tr L) by (apply (St_load _ _ _ _ _ _ _ _ HSt); left).
  assert (Hne : IsEmpty tr = false).
  { unfold IsEmpty. apply Z.eqb_neq. done. }
  assert (Hdup : BPlusTreeLeafPage.Insert key value' (node_of tr L) = (false, node_of tr L)).
  { destruct Hhas as (i & Hi0 & Hi1 & Hi). apply (Leaf_Insert_dup _ _ _ i); try done.
    unfold BPlusTreeLeafPage.KeyAt. by rewrite Hi. }
  exists (exec (UnpinPage L false) tr1). split.
  - unfold Insert. rewrite run_bind, run_get, Hne, run_bind, Hrun, run_bind, run_load.
    rewrite Hnode, Hdup. rewrite run_bind, run_store.
    assert (Hsame : poke leaf (λ _, node_of tr L) tr1 = tr1).
    { rewrite <- Hnode. apply (poke_same tr1 leaf L).
      - apply HSt.
      - apply (st_holds _ _ _ _ _ _ HSt). left.
      - rewrite Hnode. unfold BPlusTreePage.IsLeafPage in Hleaf.
        apply bool_decide_eq_true in Hleaf. by rewrite Hleaf. }
    rewrite Hsame. simpl. unfold BPlusTreePage.GetPageId.
    rewrite Hid, run_bind, exec_UnpinPage. done.
  - eapply (release_leaf fuel key value tr tr1 _ leaf L false); try done.
    apply exec_UnpinPage.
Qed.

(** ** Pages up to the link to the previous leaf *)

Lemma eq_mod_prev_refl (n : BPlusTreePage.t) : eq_mod_prev n n.
Proof. done. Qed.

Lemma eq_mod_prev_sym (n n' : BPlusTreePage.t) : eq_mod_prev n n' → eq_mod_prev n' n.
Proof. unfold eq_mod_prev. congruence. Qed.

Lemma eq_mod_prev_trans (n1 n2 n3 : BPlusTreePage.t) :
  eq_mod_prev n1 n2 → eq_mod_prev n2 n3 → eq_mod_prev n1 n3.
Proof. unfold eq_mod_prev. congruence. Qed.

Lemma eq_mod_prev_SetPrev (n : BPlusTreePage.t) (p : Z) :
  eq_mod_prev (BPlusTreePage.SetPrevPageId p n) n.
Proof. done. Qed.

Lemma eq_mod_prev_fields (n n' : BPlusTreePage.t) :
  eq_mod_prev n n' →
  BPlusTreePage.page_type_ n = BPlusTreePage.page_type_ n' ∧
  BPlusTreePage.size_ n = BPlusTreePage.size_ n' ∧
  BPlusTreePage.max_size_ n = BPlusTreePage.max_size_ n' ∧
  BPlusTreePage.parent_page_id_ n = BPlusTreePage.parent_page_id_ n' ∧
  BPlusTreePage.page_id_ n = BPlusTreePage.page_id_ n' ∧
  BPlusTreePage.next_page_id_ n = BPlusTreePage.next_page_id_ n' ∧
  BPlusTreePage.array_ n = BPlusTreePage.array_ n'.
Proof. destruct n, n'. unfold eq_mod_prev. simpl. intros [= -> -> -> -> -> -> ->]. done. Qed.

(** A statement about a page that does not mention the link to the
    previous leaf holds of the pages that differ in that link only. *)
Lemma eq_mod_prev_ind (P : BPlusTreePage.t → Prop) (n n' : BPlusTreePage.t) :
  (∀ m, P m → P (BPlusTreePage.SetPrevPageId 0 m)) →
  (∀ m, P (BPlusTreePage.SetPrevPageId 0 m) → P m) →
  eq_mod_prev n n' → P n → P n'.
Proof. intros H1 H2 Heq Hn. apply H2. rewrite <- Heq. by apply H1. Qed.

Lemma internal_ok_ext σ σ' bound bound' parent lo hi pid :
  internal_ok σ bound parent lo hi pid → eq_mod_prev (σ' pid) (σ pid) → bound ≤ bound' →
  internal_ok σ' bound' parent lo hi pid.
Proof.
  unfold internal_ok, keys_increasing, BPlusTreeInternalPage.KeyAt,
    BPlusTreeInternalPage.ValueAt.
  intros Hok Heq Hb.
  destruct (eq_mod_prev_fields _ _ Heq) as (-> & -> & _ & -> & -> & _ & ->).
  destruct_internal Hok.
  split_and!; try done; [lia|]. intros i ? ?. specialize (Hch i). lia.
Qed.

Lemma leaf_ok_ext σ σ' bound bound' parent lo hi pid :
  leaf_ok σ bound parent lo hi pid → eq_mod_prev (σ' pid) (σ pid) → bound ≤ bound' →
  leaf_ok σ' bound' parent lo hi pid.
Proof.
  unfold leaf_ok, leaf_sorted, BPlusTreeLeafPage.KeyAt.
  intros Hok Heq Hb.
  destruct (eq_mod_prev_fields _ _ Heq) as (-> & -> & -> & -> & -> & -> & ->).
  destruct_leaf Hok.
  split_and!; try done; [lia|]. destruct Hnext; [by left|right; lia].
Qed.

Lemma largest_index_le_ext (n n' : BPlusTreePage.t) key j :
  eq_mod_prev n' n → largest_index_le n key j → largest_index_le n' key j.
Proof.
  unfold largest_index_le, BPlusTreeInternalPage.KeyAt. intros Heq.
  by destruct (eq_mod_prev_fields _ _ Heq) as (_ & -> & _ & _ & _ & _ & ->).
Qed.

Lemma child_lo_ext (n n' : BPlusTreePage.t) lo j :
  eq_mod_prev n' n → child_lo n' lo j = child_lo n lo j.
Proof.
  unfold child_lo, BPlusTreeInternalPage.KeyAt. intros Heq.
  by destruct (eq_mod_prev_fields _ _ Heq) as (_ & _ & _ & _ & _ & _ & ->).
Qed.

Lemma child_hi_ext (n n' : BPlusTreePage.t) hi j :
  eq_mod_prev n' n → child_hi n' hi j = child_hi n hi j.
Proof.
  unfold child_hi, BPlusTreeInternalPage.KeyAt. intros Heq.
  by destruct (eq_mod_prev_fields _ _ Heq) as (_ & -> & _ & _ & _ & _ & ->).
Qed.

Lemma above_ext σ σ' bound bound' key anc c lo hi :
  above σ bound key anc c lo hi →
  (∀ X, X ∈ anc → eq_mod_prev (σ' X) (σ X)) → bound ≤ bound' →
  above σ' bound' key anc c lo hi.
Proof.
  intros Hab. induction Hab as [c|A anc c loA hiA j Hab IH Hok Hw Hj Hc Hch Hup];
    intros Hsame Hb.
  - constructor.
  - assert (HA' : eq_mod_prev (σ' A) (σ A)) by (apply Hsame; left).
    rewrite <- (child_lo_ext _ _ _ _ HA'), <- (child_hi_ext _ _ _ _ HA').
    pose proof (eq_mod_prev_fields _ _ HA') as (_ & Hs & _ & _ & _ & _ & Ha).
    econstructor; try done.
    + apply IH; [|done]. intros X HX. apply Hsame. by right.
    + by eapply internal_ok_ext.
    + by eapply largest_index_le_ext.
    + unfold BPlusTreeInternalPage.ValueAt in *. by rewrite Ha.
    + intros i. unfold BPlusTreeInternalPage.ValueAt in *. rewrite Ha, Hs. apply Hch.
    + intros X i HX.
      pose proof (eq_mod_prev_fields _ _ (Hsame X ltac:(by right))) as (_ & HsX & _ & _ & _ & _ & HaX).
      unfold BPlusTreeInternalPage.ValueAt in *. rewrite HaX, HsX. by apply Hup.
Qed.

Lemma search_path_ext σ σ' bound bound' key chain L lo hi :
  search_path σ bound key chain L lo hi →
  (∀ q, eq_mod_prev (σ' q) (σ q)) → bound ≤ bound' →
  search_path σ' bound' key chain L lo hi.
Proof.
  intros (Hab & Hleaf & Hw) Heq Hb. split_and!; [|by eapply leaf_ok_ext|done].
  eapply above_ext; [done| |done]. intros X _. apply Heq.
Qed.

Lemma leaf_has_ext (n n' : BPlusTreePage.t) key value :
  eq_mod_prev n' n → leaf_has n key value → leaf_has n' key value.
Proof.
  unfold leaf_has. intros Heq.
  by destruct (eq_mod_prev_fields _ _ Heq) as (_ & -> & _ & _ & _ & _ & ->).
Qed.

Lemma leaf_sorted_ext (n n' : BPlusTreePage.t) :
  eq_mod_prev n' n → leaf_sorted n → leaf_sorted n'.
Proof.
  unfold leaf_sorted, BPlusTreeLeafPage.KeyAt. intros Heq.
  by destruct (eq_mod_prev_fields _ _ Heq) as (_ & -> & _ & _ & _ & _ & ->).
Qed.

(** The pages of a search path are allocated pages other than the header
    page. *)
Lemma above_bounds σ bound key anc c lo hi :
  above σ bound key anc c lo hi → ∀ X, X ∈ anc → HEADER_PAGE_ID < X ∧ X < bound.
Proof.
  intros Hab. induction Hab as [c|A anc c loA hiA j Hab IH Hok Hw Hj Hc Hch Hup].
  - by intros X HX%elem_of_nil.
  - intros X [->|HX]%elem_of_cons; [|by apply IH]. by destruct_internal Hok.
Qed.

(** A key in the window of the child of slot [j] follows slot [j]. *)
Lemma window_index (n : BPlusTreePage.t) lo hi j x :
  keys_sorted n → 0 ≤ j → j ≤ BPlusTreePage.size_ n →
  in_window (child_lo n lo j) (child_hi n hi j) x →
  largest_index_le n x j.
Proof.
  intros Hsorted Hj0 Hj1 [Hlo Hhi]. unfold child_lo, child_hi in *.
  split_and!; [lia|lia| |].
  - destruct (decide (j = 0)); [by left|right]. by apply Hlo.
  - intros j' Hj' Hj'1. destruct (decide (j = BPlusTreePage.size_ n)); [lia|].
    specialize (Hhi _ eq_refl). specialize (Hsorted (j + 1) j'). lia.
Qed.

(** A key strictly inside the window of a child is strictly inside the
    window of the page. *)
Lemma child_window_between (n : BPlusTreePage.t) lo hi j x :
  0 ≤ j → j ≤ BPlusTreePage.size_ n →
  (∀ i, 1 ≤ i → i ≤ BPlusTreePage.size_ n → between lo hi (BPlusTreeInternalPage.KeyAt n i)) →
  between (child_lo n lo j) (child_hi n hi j) x → between lo hi x.
Proof.
  intros Hj0 Hj1 Hwin [Hlo Hhi]. unfold child_lo, child_hi in *. split.
  - intros l Hl. destruct (decide (j = 0)); [by apply Hlo|].
    specialize (Hlo _ eq_refl). destruct (Hwin j ltac:(lia) Hj1) as [Hl' _].
    specialize (Hl' _ Hl). lia.
  - intros h Hh. destruct (decide (j = BPlusTreePage.size_ n)); [by apply Hhi|].
    specialize (Hhi _ eq_refl). destruct (Hwin (j + 1) ltac:(lia) ltac:(lia)) as [_ Hh'].
    specialize (Hh' _ Hh). lia.
Qed.

(** ** The two halves of a split leaf *)

(** Case analysis on the decisions that occur in the goal. *)
Ltac goal_decide :=
  repeat match goal with |- context [decide ?P] => destruct (decide P) end.

Lemma quot2 (m : Z) : 0 ≤ m → 2 * (m ÷ 2) ≤ m ∧ m < 2 * (m ÷ 2) + 2.
Proof. intros. rewrite Z.quot_div_nonneg by lia. Z.to_euclidean_division_equations. lia. Qed.

Lemma SetParentPageId_same (o : BPlusTreePage.t) :
  BPlusTreePage.SetParentPageId (BPlusTreePage.parent_page_id_ o) o = o.
Proof. by destruct o. Qed.

(** The left half is a leaf below the separator. *)
Lemma split_leaf_left_ok σ σ1 bound bound' parent parent' lo hi L N :
  leaf_ok σ bound parent lo hi L →
  BPlusTreePage.size_ (σ L) = BPlusTreePage.max_size_ (σ L) →
  σ1 L = split_leaf_left (BPlusTreePage.SetParentPageId parent' (σ L)) N →
  bound ≤ bound' → N < bound' →
  leaf_ok σ1 bound' parent' lo
    (Some (BPlusTreeLeafPage.KeyAt (σ L) (BPlusTreePage.max_size_ (σ L) ÷ 2))) L.
Proof.
  intros Hok Hfull HL Hb HN. destruct_leaf Hok.
  pose proof (quot2 (BPlusTreePage.max_size_ (σ L)) ltac:(lia)) as Hq.
  unfold leaf_ok, leaf_sorted, BPlusTreeLeafPage.KeyAt in *. rewrite HL. simpl.
  split_and!; try done; try lia.
  - intros i j Hi Hij Hj. apply Hsorted; lia.
  - intros i Hi0 Hi1. split.
    + apply Hwin; lia.
    + intros h [= <-]. apply Hsorted; lia.
Qed.

(** The right half is a leaf from the separator on. *)
Lemma split_leaf_right_ok σ σ1 bound bound' parent parent' lo hi L N lmax :
  leaf_ok σ bound parent lo hi L →
  BPlusTreePage.size_ (σ L) = BPlusTreePage.max_size_ (σ L) →
  σ1 N = split_leaf_right (σ L) N parent' lmax →
  2 ≤ lmax → HEADER_PAGE_ID < N → bound ≤ bound' → N < bound' →
  leaf_ok σ1 bound' parent'
    (Some (BPlusTreeLeafPage.KeyAt (σ L) (BPlusTreePage.max_size_ (σ L) ÷ 2))) hi N.
Proof.
  intros Hok Hfull HN Hlmax HhN Hb HNb. destruct_leaf Hok.
  pose proof (quot2 (BPlusTreePage.max_size_ (σ L)) ltac:(lia)) as Hq.
  assert (Hslot : ∀ i, 0 ≤ i → i < BPlusTreePage.size_ (σ L) - BPlusTreePage.max_size_ (σ L) ÷ 2 →
            slot (BPlusTreePage.array_ (σ1 N)) i =
            slot (BPlusTreePage.array_ (σ L)) (i + BPlusTreePage.max_size_ (σ L) ÷ 2)).
  { intros i Hi0 Hi1. rewrite HN. simpl. rewrite slot_std_copy by lia.
    rewrite decide_True by lia. done. }
  unfold leaf_ok, leaf_sorted, BPlusTreeLeafPage.KeyAt in *.
  assert (Hsize : BPlusTreePage.size_ (σ1 N) =
            BPlusTreePage.size_ (σ L) - BPlusTreePage.max_size_ (σ L) ÷ 2) by (by rewrite HN).
  rewrite Hsize.
  split_and!; try done; try (by rewrite HN); try lia.
  - intros i j Hi Hij Hj. rewrite !Hslot by lia. apply Hsorted; lia.
  - intros i Hi0 Hi1. rewrite Hslot by lia. split.
    + intros l [= <-].
      destruct (decide (i = 0)) as [->|]; [rewrite Z.add_0_l; lia|].
      specialize (Hsorted (BPlusTreePage.max_size_ (σ L) ÷ 2)
                    (i + BPlusTreePage.max_size_ (σ L) ÷ 2)). lia.
    + apply Hwin; lia.
  - rewrite HN. simpl. destruct Hnext; [by left|right; lia].
Qed.

(** A key of the full leaf is in the half on its side of the separator. *)
Lemma split_leaf_has (σ : Z → BPlusTreePage.t) (L : Z) parent' N lmax key value nl nr :
  leaf_sorted (σ L) →
  BPlusTreePage.size_ (σ L) = BPlusTreePage.max_size_ (σ L) → 2 ≤ BPlusTreePage.max_size_ (σ L) →
  leaf_has (σ L) key value →
  nl = split_leaf_left (BPlusTreePage.SetParentPageId parent' (σ L)) N →
  nr = split_leaf_right (σ L) N parent' lmax →
  if decide (key < BPlusTreeLeafPage.KeyAt (σ L) (BPlusTreePage.max_size_ (σ L) ÷ 2))
  then leaf_has nl key value else leaf_has nr key value.
Proof.
  intros Hsorted Hfull Hmax (i & Hi0 & Hi1 & Hi) -> ->.
  pose proof (quot2 (BPlusTreePage.max_size_ (σ L)) ltac:(lia)) as Hq.
  unfold leaf_sorted, BPlusTreeLeafPage.KeyAt in *.
  assert (Hk : (slot (BPlusTreePage.array_ (σ L)) i).1 = key) by (by rewrite Hi).
  destruct (decide _) as [Hlt|Hge].
  - exists i. simpl. split_and!; [done| |done].
    destruct (decide (i < BPlusTreePage.max_size_ (σ L) ÷ 2)); [lia|].
    destruct (decide (i = BPlusTreePage.max_size_ (σ L) ÷ 2)) as [->|]; [lia|].
    specialize (Hsorted (BPlusTreePage.max_size_ (σ L) ÷ 2) i). lia.
  - exists (i - BPlusTreePage.max_size_ (σ L) ÷ 2).
    assert (BPlusTreePage.max_size_ (σ L) ÷ 2 ≤ i).
    { destruct (decide (BPlusTreePage.max_size_ (σ L) ÷ 2 ≤ i)); [done|].
      specialize (Hsorted i (BPlusTreePage.max_size_ (σ L) ÷ 2)). lia. }
    simpl. split_and!; [lia|lia|].
    rewrite slot_std_copy by lia. rewrite decide_True by lia. rewrite <- Hi. f_equal. lia.
Qed.

Lemma Internal_Insert_window_left (n : BPlusTreePage.t) (key pid j : Z) lo hi :
  0 ≤ BPlusTreePage.size_ n → keys_sorted n → largest_index_le n key j →
  child_lo (BPlusTreeInternalPage.Insert key pid n) lo j = child_lo n lo j ∧
  child_hi (BPlusTreeInternalPage.Insert key pid n) hi j = Some key.
Proof.
  intros Hsz Hsorted Hj. pose proof Hj as ([Hj0 Hj1] & _).
  pose proof (Internal_Insert_header n key pid) as (Hs' & _).
  unfold child_lo, child_hi. rewrite Hs'.
  rewrite !(Internal_Insert_keys _ _ _ j) by (done || lia).
  split; repeat destruct (decide _); try lia; done.
Qed.

Lemma Internal_Insert_window_right (n : BPlusTreePage.t) (key pid j : Z) lo hi :
  0 ≤ BPlusTreePage.size_ n → keys_sorted n → largest_index_le n key j →
  child_lo (BPlusTreeInternalPage.Insert key pid n) lo (j + 1) = Some key ∧
  child_hi (BPlusTreeInternalPage.Insert key pid n) hi (j + 1) = child_hi n hi j.
Proof.
  intros Hsz Hsorted Hj. pose proof Hj as ([Hj0 Hj1] & _).
  pose proof (Internal_Insert_header n key pid) as (Hs' & _).
  unfold child_lo, child_hi. rewrite Hs'. split.
  - rewrite (Internal_Insert_keys _ _ _ j) by (done || lia).
    repeat destruct (decide _); try lia; done.
  - destruct (decide (j = BPlusTreePage.size_ n)) as [->|Hne].
    + by rewrite decide_True by lia.
    + rewrite (Internal_Insert_keys _ _ _ j) by (done || lia).
      repeat destruct (decide _); try lia. do 2 f_equal. lia.
Qed.

(** The search path after a leaf below an internal page has been split:
    the parent takes the separator and the new leaf, and the search for
    the key ends in the half on its side of the separator. *)
Lemma leaf_split_path_inner σ n key value A upper L lo hi lmax :
  search_path σ n key (A :: upper) L lo hi →
  leaf_has (σ L) key value →
  BPlusTreePage.size_ (σ L) = BPlusTreePage.max_size_ (σ L) →
  2 ≤ lmax → HEADER_PAGE_ID < n →
  let mid_key := BPlusTreeLeafPage.KeyAt (σ L) (BPlusTreePage.max_size_ (σ L) ÷ 2) in
  let σc := upd n (split_leaf_right (σ L) n A lmax)
              (upd L (split_leaf_left (σ L) n)
                 (upd A (BPlusTreeInternalPage.Insert mid_key n (σ A)) σ)) in
  ∃ L' lo' hi', search_path σc (n + 1) key (A :: upper) L' lo' hi' ∧
                leaf_has (σc L') key value.
Proof.
  intros (Hab & Hleaf & Hw) Hhas Hfull Hlmax Hhdr mid_key σc.
  pose proof (above_notin _ _ _ _ _ _ _ Hab) as HLnotin.
  pose proof (above_bounds _ _ _ _ _ _ _ Hab) as Hbounds.
  inversion Hab as [|A' anc' c loA hiA j HabA Hok HwA Hj Hc Hch Hup]; subst.
  pose proof (above_notin _ _ _ _ _ _ _ HabA) as HAnotin.
  set (L := BPlusTreeInternalPage.ValueAt (σ A) j) in *.
  pose proof Hleaf as Hleaf'. destruct_leaf Hleaf'. simpl in Hpar.
  pose proof Hok as Hok'. destruct_internal Hok'.
  pose proof (keys_increasing_sorted _ Hinc) as Hsorted'.
  pose proof Hj as ([Hj0 Hj1] & _).
  pose proof (quot2 (BPlusTreePage.max_size_ (σ L)) ltac:(lia)) as Hq.
  assert (HLA : L ≠ A) by (intros ->; apply HLnotin; left).
  assert (HLn : L ≠ n) by lia. assert (HAn : A ≠ n) by lia.
  assert (HσN : σc n = split_leaf_right (σ L) n A lmax) by (unfold σc; by rewrite upd_eq).
  assert (HσL : σc L = split_leaf_left (BPlusTreePage.SetParentPageId A (σ L)) n).
  { unfold σc. rewrite upd_ne, upd_eq by done. by rewrite <- Hpar, SetParentPageId_same. }
  assert (HσA : σc A = BPlusTreeInternalPage.Insert mid_key n (σ A)).
  { unfold σc. by rewrite !upd_ne, upd_eq by done. }
  assert (Hσup : ∀ X, X ∈ upper → σc X = σ X).
  { intros X HX. destruct (Hbounds X ltac:(by right)).
    unfold σc. rewrite !upd_ne; [done| | |lia].
    - intros ->. done.
    - intros ->. apply HLnotin. by right. }
  (* the separator in the window of the leaf *)
  assert (Hmk : in_window (child_lo (σ A) loA j) (child_hi (σ A) hiA j) mid_key)
    by (apply Hwin; lia).
  assert (Hmk_lo : ∀ l, child_lo (σ A) loA j = Some l → l < mid_key).
  { intros l Hl. destruct (Hwin 0 ltac:(lia) ltac:(lia)) as [Hlo _]. specialize (Hlo l Hl).
    specialize (Hsorted 0 (BPlusTreePage.max_size_ (σ L) ÷ 2)). unfold mid_key. lia. }
  assert (Hmkj : largest_index_le (σ A) mid_key j) by (by apply (window_index _ loA hiA)).
  assert (Hkj : largest_index_le (σ A) key j) by done.
  assert (HokA : internal_ok σc (n + 1) (hd INVALID_PAGE_ID upper) loA hiA A).
  { assert (Hok1 : internal_ok (upd A (BPlusTreeInternalPage.Insert mid_key n (σ A)) σ)
                       (n + 1) (hd INVALID_PAGE_ID upper) loA hiA A).
    { eapply (Internal_Insert_ok _ n); try done; try lia.
      - destruct (decide (j = 0)); [by left|right]. apply Hmk_lo. unfold child_lo.
        by rewrite decide_False.
      - apply (child_window_between (σ A) loA hiA j); try done.
        split; [done|apply Hmk]. }
    eapply internal_ok_mono; [exact Hok1|by rewrite upd_eq|lia]. }
  pose proof (Internal_Insert_index (σ A) mid_key n j key Hsz0 Hsorted' Hmkj Hkj) as Hidx.
  pose proof (Internal_Insert_window_left (σ A) mid_key n j loA hiA Hsz0 Hsorted' Hmkj)
    as [Hwl1 Hwl2].
  pose proof (Internal_Insert_window_right (σ A) mid_key n j loA hiA Hsz0 Hsorted' Hmkj)
    as [Hwr1 Hwr2].
  pose proof (Internal_Insert_header (σ A) mid_key n) as (Hs' & _).
  pose proof (split_leaf_has σ L A n lmax key value _ _ Hsorted Hfull Hmax Hhas eq_refl eq_refl)
    as Hside.
  rewrite <- HσA in Hidx, Hwl1, Hwl2, Hwr1, Hwr2, Hs'.
  assert (Hvals : ∀ i, 0 ≤ i → i ≤ BPlusTreePage.size_ (σ A) + 1 →
            BPlusTreeInternalPage.ValueAt (σc A) i =
              if decide (i ≤ j) then BPlusTreeInternalPage.ValueAt (σ A) i
              else if decide (i = j + 1) then n
              else BPlusTreeInternalPage.ValueAt (σ A) (i - 1)).
  { intros i Hi0 Hi1. rewrite HσA. by apply Internal_Insert_values. }
  assert (HabA' : above σc (n + 1) key upper A loA hiA).
  { eapply above_upd; [exact HabA|done|lia]. }
  assert (Hch' : ∀ i, 0 ≤ i → i ≤ BPlusTreePage.size_ (σc A) →
            BPlusTreeInternalPage.ValueAt (σc A) i ∉ A :: upper).
  { intros i Hi0 Hi1. rewrite Hvals by lia.
    goal_decide; try (apply Hch; lia).
    intros Hin. destruct (Hbounds _ Hin). lia. }
  assert (Hupn : ∀ X i, X ∈ upper → 0 ≤ i → i ≤ BPlusTreePage.size_ (σc X) →
            BPlusTreeInternalPage.ValueAt (σc X) i ≠ n).
  { intros X i HX Hi0 Hi1. rewrite Hσup in * by done.
    clear -HabA HX Hi0 Hi1. induction HabA as [|B anc c loB hiB jB HabB IH HokB]; [by apply elem_of_nil in HX|].
    apply elem_of_cons in HX as [->|HX]; [|by apply IH].
    destruct_internal HokB. specialize (Hch i). lia. }
  destruct (decide (key < mid_key)) as [Hlt|Hge].
  - rewrite decide_True in Hside by exact Hlt.
    exists L, (child_lo (σc A) loA j), (child_hi (σc A) hiA j). split.
    + split_and!.
      * eapply above_step; try done.
        -- rewrite Hvals by lia. by rewrite decide_True by lia.
        -- intros X i HX Hi0 Hi1. rewrite Hσup in * by done. by apply Hup.
      * rewrite Hwl1, Hwl2. simpl.
        eapply (split_leaf_left_ok σ σc n (n + 1) A A); try done; lia.
      * rewrite Hwl1, Hwl2. split; [apply Hw|]. by intros h [= <-].
    + by rewrite HσL.
  - rewrite decide_False in Hside by exact Hge.
    exists n, (child_lo (σc A) loA (j + 1)), (child_hi (σc A) hiA (j + 1)). split.
    + split_and!.
      * eapply above_step; try done.
        rewrite Hvals by lia. rewrite decide_False by lia. by rewrite decide_True by lia.
      * rewrite Hwr1, Hwr2. simpl.
        eapply (split_leaf_right_ok σ σc n (n + 1) A A); try done; lia.
      * rewrite Hwr1, Hwr2. split; [|apply Hw]. intros l [= <-]. lia.
    + by rewrite HσN.
Qed.

(** The new root that a split creates above its two halves. *)
Lemma new_root_node (key left_id right_id root_id imax : Z) :
  BPlusTreeInternalPage.Insert key right_id
    (BPlusTreeInternalPage.SetFirstPoint left_id
       (BPlusTreeInternalPage.Init root_id INVALID_PAGE_ID imax BPlusTreePage.zero)) =
  BPlusTreePage.mk INTERNAL_PAGE 1 imax INVALID_PAGE_ID root_id 0 0
    [(0, left_id); (key, right_id)].
Proof. reflexivity. Qed.

Lemma new_root_ok (σ : Z → BPlusTreePage.t) (key left_id right_id root_id imax bound : Z) :
  σ root_id = BPlusTreePage.mk INTERNAL_PAGE 1 imax INVALID_PAGE_ID root_id 0 0
                [(0, left_id); (key, right_id)] →
  HEADER_PAGE_ID < root_id → root_id < bound → left_id < bound → right_id < bound →
  left_id ≠ right_id →
  internal_ok σ bound INVALID_PAGE_ID None None root_id.
Proof.
  intros Hr Hh Hb Hl Hrt Hne.
  assert (Hidx : ∀ i, 0 ≤ i → i ≤ 1 → i = 0 ∨ i = 1) by lia.
  unfold internal_ok, keys_increasing, BPlusTreeInternalPage.KeyAt,
    BPlusTreeInternalPage.ValueAt. rewrite Hr. simpl.
  split_and!; try done.
  - intros i j Hi Hij Hj. lia.
  - intros i Hi0 Hi1. destruct (Hidx i Hi0 Hi1) as [->| ->]; simpl; lia.
  - intros i i' Hi0 Hi1 Hi0' Hi1'.
    destruct (Hidx i Hi0 Hi1) as [->| ->], (Hidx i' Hi0' Hi1') as [->| ->]; simpl; congruence.
Qed.

(** The search path after the root leaf has been split. *)
Lemma leaf_split_path_root σ n key value L lo hi lmax imax :
  search_path σ n key [] L lo hi →
  leaf_has (σ L) key value →
  BPlusTreePage.size_ (σ L) = BPlusTreePage.max_size_ (σ L) →
  2 ≤ lmax → HEADER_PAGE_ID < n →
  let mid_key := BPlusTreeLeafPage.KeyAt (σ L) (BPlusTreePage.max_size_ (σ L) ÷ 2) in
  let σc := upd n (split_leaf_right (σ L) n (n + 1) lmax)
              (upd L (split_leaf_left (BPlusTreePage.SetParentPageId (n + 1) (σ L)) n)
                 (upd (n + 1)
                    (BPlusTreeInternalPage.Insert mid_key n
                       (BPlusTreeInternalPage.SetFirstPoint L
                          (BPlusTreeInternalPage.Init (n + 1) INVALID_PAGE_ID imax
                             BPlusTreePage.zero))) σ)) in
  ∃ L' lo' hi', search_path σc (n + 2) key [n + 1] L' lo' hi' ∧
                leaf_has (σc L') key value.
Proof.
  intros (Hab & Hleaf & Hw) Hhas Hfull Hlmax Hhdr mid_key σc.
  inversion Hab; subst.
  pose proof Hleaf as Hleaf'. destruct_leaf Hleaf'. simpl in Hpar.
  pose proof (quot2 (BPlusTreePage.max_size_ (σ L)) ltac:(lia)) as Hq.
  assert (HσN : σc n = split_leaf_right (σ L) n (n + 1) lmax) by (unfold σc; by rewrite upd_eq).
  assert (HσL : σc L = split_leaf_left (BPlusTreePage.SetParentPageId (n + 1) (σ L)) n).
  { unfold σc. rewrite upd_ne, upd_eq by lia. done. }
  assert (HσR : σc (n + 1) = BPlusTreePage.mk INTERNAL_PAGE 1 imax INVALID_PAGE_ID (n + 1) 0 0
                               [(0, L); (mid_key, n)]).
  { unfold σc. rewrite !upd_ne, upd_eq by lia. apply new_root_node. }
  pose proof (split_leaf_has σ L (n + 1) n lmax key value _ _ Hsorted Hfull Hmax Hhas
                eq_refl eq_refl) as Hside.
  assert (HokR : internal_ok σc (n + 2) INVALID_PAGE_ID None None (n + 1)).
  { eapply new_root_ok; [exact HσR|lia..]. }
  assert (Habove : ∀ j, j = 0 ∨ j = 1 →
            (j = 0 → key < mid_key) → (j = 1 → mid_key ≤ key) →
            above σc (n + 2) key [n + 1] (BPlusTreeInternalPage.ValueAt (σc (n + 1)) j)
              (child_lo (σc (n + 1)) None j) (child_hi (σc (n + 1)) None j)).
  { intros j Hj Hj0 Hj1. eapply above_step; try done.
    - constructor.
    - unfold largest_index_le, BPlusTreeInternalPage.KeyAt. rewrite HσR. simpl.
      split_and!; [lia|lia| |].
      + destruct Hj as [->| ->]; [by left|right; simpl; lia].
      + intros j' Hj' Hj'1. assert (j = 0 ∧ j' = 1) as [-> ->] by lia. simpl. lia.
    - intros i Hi0 Hi1. unfold BPlusTreeInternalPage.ValueAt. rewrite HσR in *. simpl in *.
      assert (i = 0 ∨ i = 1) as [->| ->] by lia; simpl; intros Hin%list_elem_of_singleton; lia.
    - intros X i HX. by apply elem_of_nil in HX. }
  destruct (decide (key < mid_key)) as [Hlt|Hge].
  - rewrite decide_True in Hside by exact Hlt.
    specialize (Habove 0 ltac:(by left) ltac:(done) ltac:(lia)).
    exists L, (child_lo (σc (n + 1)) None 0), (child_hi (σc (n + 1)) None 0). split.
    + split_and!.
      * assert (HV : BPlusTreeInternalPage.ValueAt (σc (n + 1)) 0 = L)
          by (unfold BPlusTreeInternalPage.ValueAt; by rewrite HσR).
        by rewrite HV in Habove.
      * unfold child_lo, child_hi, BPlusTreeInternalPage.KeyAt. rewrite HσR. simpl.
        eapply (split_leaf_left_ok σ σc n (n + 2) _ (n + 1)); try done; lia.
      * unfold child_lo, child_hi, BPlusTreeInternalPage.KeyAt. rewrite HσR. simpl.
        split; [done|]. by intros h [= <-].
    + by rewrite HσL.
  - rewrite decide_False in Hside by exact Hge.
    specialize (Habove 1 ltac:(by right) ltac:(lia) ltac:(lia)).
    exists n, (child_lo (σc (n + 1)) None 1), (child_hi (σc (n + 1)) None 1). split.
    + split_and!.
      * assert (HV : BPlusTreeInternalPage.ValueAt (σc (n + 1)) 1 = n)
          by (unfold BPlusTreeInternalPage.ValueAt; by rewrite HσR).
        by rewrite HV in Habove.
      * unfold child_lo, child_hi, BPlusTreeInternalPage.KeyAt. rewrite HσR. simpl.
        eapply (split_leaf_right_ok σ σc n (n + 2) _ (n + 1)); try done; lia.
      * unfold child_lo, child_hi, BPlusTreeInternalPage.KeyAt. rewrite HσR. simpl.
        split; [|done]. intros l [= <-]. lia.
    + by rewrite HσN.
Qed.
